(** * Work-stealing thread pool and fork-join quicksort (HW_30)

    Shallow embedding of [ThreadPool.h] and [main.cpp].

    - Part I   : the array, the partition loop and one activation of
                 [quicksort_job] (main.cpp, lines 66-111).
    - Part II  : the thread pool: per-worker deques, [push_task],
                 [try_pop_from_queue], [try_steal_from_queue] and the
                 scheduling part of [worker_loop] (ThreadPool.h).
    - Part III : [QuicksortState], [spawn_task_in_pool] and the whole
                 concurrent system as an interleaving of atomic steps.
    - Part IV  : the properties.
    - Part V   : further properties of the pool: its shape, the round
                 robin, the order of a queue, shut-down, idle and seeking
                 workers.
    - Part VI  : further properties of the fork-join state.
    - Part VII : further properties of the sort. *)

From Stdlib Require Import ZArith Lia List Permutation Sorted.
From stdpp Require Import base tactics option list sorting.

Local Open Scope Z_scope.

#[local] Set Warnings "-clear-no-such-hyp".

(* ===================================================================== *)
(** * Part I.  Arrays, partition, one activation of [quicksort_job]      *)
(* ===================================================================== *)

(** [int* array] is a list of integers addressed by a signed index of type
    [long].  The elements are only compared and moved, never computed with,
    so their width plays no role.  Reading or writing outside the
    allocation is undefined behaviour in C++; the embedding makes it a
    failure ([None]). *)
Definition get (a : list Z) (i : Z) : option Z :=
  if decide (0 <= i) then a !! Z.to_nat i else None.

(** [std::swap(array[l], array[r])]. *)
Definition swap (a : list Z) (i j : Z) : option (list Z) :=
  x ← get a i;
  y ← get a j;
  Some (<[Z.to_nat j := x]> (<[Z.to_nat i := y]> a)).

(** [long] is 32 bits wide on the program's platform (it includes
    [windows.h]).  Signed overflow is undefined behaviour: a failure. *)
Definition LONG_MAX : Z := 2 ^ 31 - 1.
Definition LONG_MIN : Z := - 2 ^ 31.

Definition long_add (x y : Z) : option Z :=
  if decide (LONG_MIN <= x + y <= LONG_MAX) then Some (x + y) else None.

(** [while (array[l] < pivot) ++l;]   The loop either stops or runs off the
    allocation within [length a] iterations, so [S (length a)] units of fuel
    never run out before the failure does.  [++l] and [--r] are additions
    on [long]. *)
Fixpoint scan_up (fuel : nat) (a : list Z) (pivot l : Z) : option Z :=
  match fuel with
  | O => None
  | S f =>
      x ← get a l;
      if decide (x < pivot)
      then l' ← long_add l 1; scan_up f a pivot l'
      else Some l
  end.

(** [while (array[r] > pivot) --r;] *)
Fixpoint scan_down (fuel : nat) (a : list Z) (pivot r : Z) : option Z :=
  match fuel with
  | O => None
  | S f =>
      x ← get a r;
      if decide (x > pivot)
      then r' ← long_add r (-1); scan_down f a pivot r'
      else Some r
  end.

(** The [do { ... } while (l <= r);] loop of [quicksort_job].  One unit of
    fuel is one iteration of the body. *)
Fixpoint partition_loop (fuel : nat) (a : list Z) (pivot l r : Z)
  : option (list Z * Z * Z) :=
  match fuel with
  | O => None
  | S f =>
      l1 ← scan_up (S (length a)) a pivot l;
      r1 ← scan_down (S (length a)) a pivot r;
      if decide (l1 <= r1) then
        a' ← swap a l1 r1;
        l2 ← long_add l1 1;
        r2 ← long_add r1 (-1);
        if decide (l2 <= r2)
        then partition_loop f a' pivot l2 r2
        else Some (a', l2, r2)
      else Some (a, l1, r1)
  end.

(** [long l = left, r = right; int pivot = array[(l + r) / 2]; do ... ]
    C++ division truncates toward zero ([Z.quot]). *)
Definition pivot_of (a : list Z) (left right : Z) : option Z :=
  s ← long_add left right; get a (Z.quot s 2).

Definition partition_range (a : list Z) (left right : Z) : option (list Z * Z * Z) :=
  pivot ← pivot_of a left right;
  partition_loop (S (Z.to_nat (right - left))) a pivot left right.

(** [std::sort(first, last)] on the half-open index range [first, last):
    the C++ standard library, not part of the repository.  It must return
    the elements of the range in ascending order; on integers that list is
    unique (see [std_sort_unique] below), so a merge sort stands for it. *)
Definition sort_list (l : list Z) : list Z := merge_sort Z.le l.

Definition std_sort (a : list Z) (first last : Z) : option (list Z) :=
  if decide (0 <= first <= last /\ last <= Z.of_nat (length a)) then
    Some (take (Z.to_nat first) a
          ++ sort_list (take (Z.to_nat (last - first)) (drop (Z.to_nat first) a))
          ++ drop (Z.to_nat last) a)
  else None.

(** A range [left, right] handed to [quicksort_job]: both ends inclusive. *)
Definition range : Type := Z * Z.

Definition tiny : Z := 1000.

(** What one activation of [quicksort_job] does before it returns, apart
    from running its recursive calls: the new array, the closure handed to
    [spawn_task_in_pool] (at most one) and the recursive calls it makes
    itself, in program order. *)
Record activation := Activation {
  act_array  : list Z;
  act_spawn  : option range;
  act_inline : list range;
}.

Definition quicksort_job (threshold : Z) (a : list Z) (left right : Z)
  : option activation :=
  if decide (left >= right) then Some (Activation a None [])
  else if decide (right - left <= tiny) then
    a' ← std_sort a left (right + 1);
    Some (Activation a' None [])
  else
    '(a', l, r) ← partition_range a left right;
    let left_big := bool_decide (r - left > threshold) in
    let right_big := bool_decide (right - l > threshold) in
    if left_big && right_big then
      Some (Activation a' (Some (left, r)) [(l, right)])
    else if left_big then
      Some (Activation a' (Some (left, r)) [(l, right)])
    else if right_big then
      Some (Activation a' (Some (l, right)) [(left, r)])
    else
      Some (Activation a' None [(left, r); (l, right)]).

(* ===================================================================== *)
(** * Part II.  ThreadPool.h                                              *)
(* ===================================================================== *)

Section ThreadPool.

(** [task_type = std::function<void()>]: what a queue holds. *)
Context {T : Type}.

(** The data members of [class ThreadPool] that carry state.  A
    [std::deque] is a list whose head is the deque's front.  [m_index] is a
    [std::atomic<size_t>] (64 bits, wraps around).  The mutexes and
    condition variables have no state of their own here: every operation
    below that the code runs under a [lock_guard], and every operation on an
    atomic, is one atomic step of the interleaving semantics. *)
Record ThreadPool := mkPool {
  m_queues : list (list T);
  m_index  : Z;
  m_done   : bool;
}.

Definition SIZE_MAX : Z := 2 ^ 64 - 1.

(** Constructor: [if (n == 0) n = 4; m_done.store(false); m_queues.resize(n)]. *)
Definition pool_size (n : nat) : nat := if decide (n = 0%nat) then 4%nat else n.

Definition new_pool (n : nat) : ThreadPool :=
  mkPool (replicate (pool_size n) []) 0 false.

(** Destructor, as far as the workers can see it: [m_done.store(true)]. *)
Definition shutdown (p : ThreadPool) : ThreadPool :=
  mkPool (m_queues p) (m_index p) true.

(** [push_task], first atomic step:
    [idx = m_index.fetch_add(1) % m_queues.size()]. *)
Definition next_index (p : ThreadPool) : nat * ThreadPool :=
  (Z.to_nat (m_index p `mod` Z.of_nat (length (m_queues p))),
   mkPool (m_queues p) ((m_index p + 1) `mod` (SIZE_MAX + 1)) (m_done p)).

(** [push_task], second atomic step, under the queue's mutex:
    [m_queues[idx].push_front(t)]. *)
Definition push_front (idx : nat) (t : T) (p : ThreadPool) : ThreadPool :=
  mkPool (alter (cons t) idx (m_queues p)) (m_index p) (m_done p).

(** [push_task] run without interruption. *)
Definition push_task (t : T) (p : ThreadPool) : ThreadPool :=
  let '(idx, p') := next_index p in push_front idx t p'.

(** [try_pop_from_queue(idx, out)]: [None] is the [false] result. *)
Definition try_pop_from_queue (idx : nat) (p : ThreadPool)
  : option (T * ThreadPool) :=
  match m_queues p !! idx with
  | Some (t :: q) =>
      Some (t, mkPool (<[idx := q]> (m_queues p)) (m_index p) (m_done p))
  | _ => None
  end.

(** [try_steal_from_queue(idx, out)]: takes [back()]. *)
Definition try_steal_from_queue (idx : nat) (p : ThreadPool)
  : option (T * ThreadPool) :=
  match m_queues p !! idx with
  | Some q =>
      match last q with
      | Some t =>
          Some (t, mkPool (<[idx := removelast q]> (m_queues p))
                          (m_index p) (m_done p))
      | None => None
      end
  | None => None
  end.

(** The queue the [i]-th iteration of the stealing loop looks at:
    [size_t idx = (my_index + 1 + i) % m_queues.size();] *)
Definition steal_index (p : ThreadPool) (my_index i : nat) : nat :=
  ((my_index + 1 + i) `mod` length (m_queues p))%nat.

(** Control points of [worker_loop] outside the call [task()]:
    - [LoopTop]: at [while (!m_done.load())];
    - [Popping]: [m_done] has been read as [false], at the call
      [try_pop_from_queue(my_index, task)];
    - [Stealing i]: at the condition [i < m_queues.size()] of the [for];
    - [Waiting]: in [wait_for], which returns on a notification, when its
      predicate holds, or after 50 ms;
    - [Exited]: the loop has ended.
    The load of [m_done] and the locked pop are two atomic steps: the
    destructor's store can fall between them. *)
Inductive seek := LoopTop | Popping | Stealing (i : nat) | Waiting | Exited.

Inductive sought := Next (s : seek) | Got (t : T).

(** One atomic step of [worker_loop] from a control point.  [Got t] means
    the worker now calls [task()]; after the call both paths [continue]
    to [LoopTop]. *)
Definition worker_loop (my_index : nat) (s : seek) (p : ThreadPool)
  : sought * ThreadPool :=
  match s with
  | LoopTop => if m_done p then (Next Exited, p) else (Next Popping, p)
  | Popping =>
      match try_pop_from_queue my_index p with
      | Some (t, p') => (Got t, p')
      | None => (Next (Stealing 0), p)
      end
  | Stealing i =>
      if decide (i < length (m_queues p))%nat then
        match try_steal_from_queue (steal_index p my_index i) p with
        | Some (t, p') => (Got t, p')
        | None => (Next (Stealing (S i)), p)
        end
      else (Next Waiting, p)
  | Waiting => (Next LoopTop, p)
  | Exited => (Next Exited, p)
  end.

(** The queues the stealing loop visits, in order, when every attempt
    fails. *)
Definition steal_order (p : ThreadPool) (my_index : nat) : list nat :=
  map (steal_index p my_index) (seq 0 (length (m_queues p))).

(** ** The pool on its own

    Tasks are opaque.  Any thread may call [push_task] at any time (two
    atomic steps: [Reserve] then [Land]); a worker that got a task runs it
    ([Call t]) and logs it when [task()] returns. *)
Inductive pworker := Seek (s : seek) | Call (t : T).

Record pool_sys := mkPoolSys {
  ps_pool      : ThreadPool;
  ps_workers   : list pworker;
  ps_inflight  : list (nat * T);   (* index chosen, [push_front] pending *)
  ps_submitted : list T;           (* calls of [push_task], oldest first *)
  ps_executed  : list T;           (* completed calls [task()], oldest first *)
}.

Inductive pool_label :=
  | Reserve (t : T)      (* some thread enters [push_task(t)] *)
  | Land (n : nat)       (* the [n]-th pending [push_front] happens *)
  | Work (k : nat)       (* worker [k] makes one step *)
  | Shutdown.            (* the destructor sets [m_done] *)

Definition pool_init (n : nat) : pool_sys :=
  mkPoolSys (new_pool n) (replicate (pool_size n) (Seek LoopTop)) [] [] [].

Definition pool_step (lbl : pool_label) (s : pool_sys) : pool_sys :=
  match lbl with
  | Reserve t =>
      let '(idx, p') := next_index (ps_pool s) in
      mkPoolSys p' (ps_workers s) (ps_inflight s ++ [(idx, t)])
                (ps_submitted s ++ [t]) (ps_executed s)
  | Land n =>
      match ps_inflight s !! n with
      | Some (idx, t) =>
          mkPoolSys (push_front idx t (ps_pool s)) (ps_workers s)
                    (delete n (ps_inflight s)) (ps_submitted s) (ps_executed s)
      | None => s
      end
  | Work k =>
      match ps_workers s !! k with
      | Some (Seek c) =>
          let '(r, p') := worker_loop k c (ps_pool s) in
          let w' := match r with Next c' => Seek c' | Got t => Call t end in
          mkPoolSys p' (<[k := w']> (ps_workers s)) (ps_inflight s)
                    (ps_submitted s) (ps_executed s)
      | Some (Call t) =>
          mkPoolSys (ps_pool s) (<[k := Seek LoopTop]> (ps_workers s))
                    (ps_inflight s) (ps_submitted s) (ps_executed s ++ [t])
      | None => s
      end
  | Shutdown =>
      mkPoolSys (shutdown (ps_pool s)) (ps_workers s) (ps_inflight s)
                (ps_submitted s) (ps_executed s)
  end.

Definition pool_run (sched : list pool_label) (s : pool_sys) : pool_sys :=
  foldl (fun s lbl => pool_step lbl s) s sched.

End ThreadPool.

Arguments ThreadPool : clear implicits.
Arguments sought : clear implicits.
Arguments pworker : clear implicits.
Arguments pool_sys : clear implicits.
Arguments pool_label : clear implicits.

(* ===================================================================== *)
(** * Part III.  main.cpp: QuicksortState, spawn_task_in_pool, the system *)
(* ===================================================================== *)

(** [std::atomic<int>]: [fetch_add] and [fetch_sub] wrap around in two's
    complement on 32 bits. *)
Definition wrap_int (x : Z) : Z := (x + 2 ^ 31) `mod` 2 ^ 32 - 2 ^ 31.

Section ForkJoin.

(** - [job]  : a closure handed to [spawn_task_in_pool] ([task_type job]);
    - [cont] : what is left to run of a job body that has been started;
    - [exn]  : what a body can throw;
    - [mem]  : the memory the bodies share (the array). *)
Context {job cont exn mem : Type}.

(** One step of a running job body, up to its next interaction with the
    fork-join machinery. *)
Inductive outcome :=
  | Continue (m : mem) (c : cont)          (* local work, body goes on *)
  | Fork (m : mem) (j : job) (c : cont)    (* reaches [spawn_task_in_pool(.., j)] *)
  | Return                                 (* [job()] returns *)
  | Raise (e : exn)                        (* [job()] throws *)
  | Fault.                                 (* undefined behaviour *)

Context (start : job -> cont) (body_step : mem -> cont -> outcome).

(** What the [std::future<void>] delivers once the promise is set. *)
Inductive future_result := Value | Exception (e : exn).

(** [struct QuicksortState]; all fields are shared through [shared_ptr]s.
    [prom = None] is a promise that has not been satisfied yet;
    [except_ptr = None] is a null [std::exception_ptr].  [except_mtx] is
    the atomicity of the steps that take it. *)
Record QuicksortState := mkState {
  prom       : option future_result;
  counter    : Z;
  except_ptr : option exn;
  except_set : bool;
}.

(** Constructor [QuicksortState()]. *)
Definition new_state : QuicksortState := mkState None 0 None false.

(** Program points inside one call of [spawn_task_in_pool]:
    before [counter->fetch_add(1)], before [m_index.fetch_add(1)] in
    [push_task], before the locked [push_front] on queue [idx]. *)
Inductive spawn_pc := AtCounter | AtIndex | AtPush (idx : nat).

(** One atomic step of [spawn_task_in_pool(pool, state, job)];
    [None] for the program point means the call has returned. *)
Definition spawn_task_in_pool (pc : spawn_pc) (j : job)
    (st : QuicksortState) (p : ThreadPool job)
  : option spawn_pc * QuicksortState * ThreadPool job :=
  match pc with
  | AtCounter =>
      (Some AtIndex,
       mkState (prom st) (wrap_int (counter st + 1)) (except_ptr st) (except_set st),
       p)
  | AtIndex => let '(idx, p') := next_index p in (Some (AtPush idx), st, p')
  | AtPush idx => (None, st, push_front idx j p)
  end.

(** Program points of the lambda that [spawn_task_in_pool] pushes:
    - [Body c]: inside [try { job(); }];
    - [Spawning pc j c]: the body is inside a call of [spawn_task_in_pool];
    - [Caught e]: in [catch(...)], before the [lock_guard];
    - [Decrement]: before [counter->fetch_sub(1)];
    - [Finalize]: [prev == 1] held, before the [lock_guard]. *)
Inductive activity :=
  | Body (c : cont)
  | Spawning (pc : spawn_pc) (j : job) (c : cont)
  | Caught (e : exn)
  | Decrement
  | Finalize.

(** Why a thread can die: undefined behaviour in a body, an exception
    leaving the task ([std::promise] throws [future_error] when set twice),
    or [set_exception] on a null pointer. *)
Inductive crash := BodyFault | PromiseAlreadySatisfied | NullException.

Inductive worker :=
  | Seeking (s : seek)
  | Running (a : activity)
  | Crashed (why : crash).

(** The thread that calls [quicksort_async]: it spawns the root job and
    then waits on the future. *)
Inductive main_thread := MainSpawning (pc : spawn_pc) (j : job) | MainWaiting.

(** The whole system.  The last four fields are history variables: they
    record events and no step reads them. *)
Record sys := mkSys {
  sys_pool    : ThreadPool job;
  sys_workers : list worker;
  sys_main    : main_thread;
  sys_state   : QuicksortState;
  sys_mem     : mem;
  h_hits      : nat;                 (* [fetch_sub] calls that returned 1 *)
  h_sets      : list future_result;  (* calls of [set_value]/[set_exception] *)
  h_arrivals  : list exn;            (* entries into the locked [catch] block *)
  h_raised    : list exn;            (* exceptions thrown by bodies *)
}.

Definition set_worker (k : nat) (w : worker) (s : sys) : sys :=
  mkSys (sys_pool s) (<[k := w]> (sys_workers s)) (sys_main s) (sys_state s)
        (sys_mem s) (h_hits s) (h_sets s) (h_arrivals s) (h_raised s).

Definition set_pool (p : ThreadPool job) (s : sys) : sys :=
  mkSys p (sys_workers s) (sys_main s) (sys_state s)
        (sys_mem s) (h_hits s) (h_sets s) (h_arrivals s) (h_raised s).

Definition set_state (st : QuicksortState) (s : sys) : sys :=
  mkSys (sys_pool s) (sys_workers s) (sys_main s) st
        (sys_mem s) (h_hits s) (h_sets s) (h_arrivals s) (h_raised s).

Definition set_main (m : main_thread) (s : sys) : sys :=
  mkSys (sys_pool s) (sys_workers s) m (sys_state s)
        (sys_mem s) (h_hits s) (h_sets s) (h_arrivals s) (h_raised s).

Definition set_mem (m : mem) (s : sys) : sys :=
  mkSys (sys_pool s) (sys_workers s) (sys_main s) (sys_state s)
        m (h_hits s) (h_sets s) (h_arrivals s) (h_raised s).

Definition log_hit (s : sys) : sys :=
  mkSys (sys_pool s) (sys_workers s) (sys_main s) (sys_state s)
        (sys_mem s) (S (h_hits s)) (h_sets s) (h_arrivals s) (h_raised s).

Definition log_set (r : future_result) (s : sys) : sys :=
  mkSys (sys_pool s) (sys_workers s) (sys_main s) (sys_state s)
        (sys_mem s) (h_hits s) (h_sets s ++ [r]) (h_arrivals s) (h_raised s).

Definition log_arrival (e : exn) (s : sys) : sys :=
  mkSys (sys_pool s) (sys_workers s) (sys_main s) (sys_state s)
        (sys_mem s) (h_hits s) (h_sets s) (h_arrivals s ++ [e]) (h_raised s).

Definition log_raise (e : exn) (s : sys) : sys :=
  mkSys (sys_pool s) (sys_workers s) (sys_main s) (sys_state s)
        (sys_mem s) (h_hits s) (h_sets s) (h_arrivals s) (h_raised s ++ [e]).

(** The locked part of the [catch(...)] block:
    [if (!*except_set) { *except_ptr = current_exception(); *except_set = true; }] *)
Definition record_exception (e : exn) (st : QuicksortState) : QuicksortState :=
  if except_set st then st
  else mkState (prom st) (counter st) (Some e) true.

(** [int prev = counter->fetch_sub(1)]: the old value and the new state. *)
Definition fetch_sub (st : QuicksortState) : Z * QuicksortState :=
  (counter st,
   mkState (prom st) (wrap_int (counter st - 1)) (except_ptr st) (except_set st)).

(** The locked block under [if (prev == 1)]: which call is made on the
    promise.  [inr] is a crash. *)
Definition finalize (st : QuicksortState) : future_result + crash :=
  match prom st with
  | Some _ => inr PromiseAlreadySatisfied
  | None =>
      if except_set st then
        match except_ptr st with
        | Some e => inl (Exception e)
        | None => inr NullException
        end
      else inl Value
  end.

Definition fulfil (r : future_result) (st : QuicksortState) : QuicksortState :=
  mkState (Some r) (counter st) (except_ptr st) (except_set st).

(** One atomic step of worker [k] while it runs a task.  The program
    points [Running a] are those of the lambda up to its last access to
    the shared state: the [fetch_sub], or, for the task that read 1, the
    call on the promise.  What the lambda does after that access, its
    return into [worker_loop], touches neither the state nor the array and
    is part of the same step: [Seeking LoopTop] is reached with it. *)
Definition task_step (k : nat) (a : activity) (s : sys) : sys :=
  match a with
  | Body c =>
      match body_step (sys_mem s) c with
      | Continue m c' => set_worker k (Running (Body c')) (set_mem m s)
      | Fork m j c' => set_worker k (Running (Spawning AtCounter j c')) (set_mem m s)
      | Return => set_worker k (Running Decrement) s
      | Raise e => set_worker k (Running (Caught e)) (log_raise e s)
      | Fault => set_worker k (Crashed BodyFault) s
      end
  | Spawning pc j c =>
      let '(pc', st', p') := spawn_task_in_pool pc j (sys_state s) (sys_pool s) in
      let a' := match pc' with Some pc'' => Spawning pc'' j c | None => Body c end in
      set_worker k (Running a') (set_state st' (set_pool p' s))
  | Caught e =>
      set_worker k (Running Decrement)
        (set_state (record_exception e (sys_state s)) (log_arrival e s))
  | Decrement =>
      let '(prev, st') := fetch_sub (sys_state s) in
      if decide (prev = 1)
      then set_worker k (Running Finalize) (set_state st' (log_hit s))
      else set_worker k (Seeking LoopTop) (set_state st' s)
  | Finalize =>
      match finalize (sys_state s) with
      | inl r =>
          set_worker k (Seeking LoopTop)
            (set_state (fulfil r (sys_state s)) (log_set r s))
      | inr why => set_worker k (Crashed why) s
      end
  end.

Inductive label :=
  | Main             (* the thread inside [quicksort_async] steps *)
  | Worker (k : nat) (* worker [k] steps *)
  | Stop.            (* the pool's destructor sets [m_done] *)

Definition step (lbl : label) (s : sys) : sys :=
  match lbl with
  | Main =>
      match sys_main s with
      | MainSpawning pc j =>
          let '(pc', st', p') := spawn_task_in_pool pc j (sys_state s) (sys_pool s) in
          let m' := match pc' with Some pc'' => MainSpawning pc'' j | None => MainWaiting end in
          set_main m' (set_state st' (set_pool p' s))
      | MainWaiting => s
      end
  | Worker k =>
      match sys_workers s !! k with
      | Some (Seeking c) =>
          let '(r, p') := worker_loop k c (sys_pool s) in
          let w' := match r with
                    | Next c' => Seeking c'
                    | Got j => Running (Body (start j))
                    end in
          set_worker k w' (set_pool p' s)
      | Some (Running a) => task_step k a s
      | Some (Crashed _) => s
      | None => s
      end
  | Stop => set_pool (shutdown (sys_pool s)) s
  end.

Definition run (sched : list label) (s : sys) : sys :=
  foldl (fun s lbl => step lbl s) s sched.

(** [ThreadPool pool; auto fut = quicksort_async(pool, ...)]: a pool of
    [n] workers (4 when [n = 0]), a fresh [QuicksortState], the main thread
    about to spawn the root job [root], memory [m]. *)
Definition quicksort_async (n : nat) (root : job) (m : mem) : sys :=
  mkSys (new_pool n) (replicate (pool_size n) (Seeking LoopTop))
        (MainSpawning AtCounter root) new_state m 0 [] [] [].

End ForkJoin.

Arguments outcome : clear implicits.
Arguments future_result : clear implicits.
Arguments QuicksortState : clear implicits.
Arguments activity : clear implicits.
Arguments worker : clear implicits.
Arguments main_thread : clear implicits.
Arguments sys : clear implicits.

(** ** The quicksort client

    A job is the closure [[=, &pool]() { quicksort_job(pool, array, l, r,
    state, threshold); }], that is, a range.  A started body is the stack
    of calls of [quicksort_job] it still has to make, innermost first.
    Nothing in it throws.  One activation, up to the point where it spawns
    or calls itself, is one step: it reads and writes only indices of its
    own range, and the ranges of the activations that are alive at the same
    time are pairwise disjoint (field [qi_cover] of [qs_inv] in Part IV), so
    no other thread can observe or disturb its intermediate states. *)
Definition qs_start (j : range) : list range := [j].

Definition qs_body (threshold : Z) (a : list Z) (c : list range)
  : outcome range (list range) Empty_set (list Z) :=
  match c with
  | [] => Return
  | (lo, hi) :: rest =>
      match quicksort_job threshold a lo hi with
      | None => Fault
      | Some act =>
          match act_spawn act with
          | Some j => Fork (act_array act) j (act_inline act ++ rest)
          | None => Continue (act_array act) (act_inline act ++ rest)
          end
      end
  end.

Definition qs_sys : Type := sys range (list range) Empty_set (list Z).

(** [quicksort_async(pool, array, left, right, threshold)] on a pool built
    with [ThreadPool pool(n)]. *)
Definition qs_async (n : nat) (a : list Z) (left right : Z) : qs_sys :=
  quicksort_async n (left, right) a.

Definition qs_step (threshold : Z) : label -> qs_sys -> qs_sys :=
  step qs_start (qs_body threshold).

Definition qs_run (threshold : Z) : list label -> qs_sys -> qs_sys :=
  run qs_start (qs_body threshold).

(** The sequential baseline of [main]: [std::sort(arr2, arr2 + N)] applied
    to the range, [std::sort(array + left, array + right + 1)]. *)
Definition baseline (a : list Z) (left right : Z) : list Z :=
  if decide (left <= right) then default a (std_sort a left (right + 1)) else a.

(** ** Arbitrary fork-join task trees

    What the fork-join state can observe of a job body: the jobs it spawns,
    in order, and whether it then returns or throws. *)
#[warnings="-register-all"]
Inductive jtree (E : Type) := JNode (spawns : list (jtree E)) (fail : option E).
Arguments JNode {E} spawns fail.

Definition jt_spawns {E} (t : jtree E) : list (jtree E) :=
  match t with JNode l _ => l end.
Definition jt_fail {E} (t : jtree E) : option E :=
  match t with JNode _ f => f end.

Definition jt_start {E} (t : jtree E) : list (jtree E) * option E :=
  (jt_spawns t, jt_fail t).

Definition jt_body {E} (m : unit) (c : list (jtree E) * option E)
  : outcome (jtree E) (list (jtree E) * option E) E unit :=
  match c with
  | (t :: rest, f) => Fork m t (rest, f)
  | ([], Some e) => Raise e
  | ([], None) => Return
  end.

Definition jt_sys (E : Type) : Type :=
  sys (jtree E) (list (jtree E) * option E) E unit.

Definition jt_async {E} (n : nat) (root : jtree E) : jt_sys E :=
  quicksort_async n root tt.

Definition jt_run {E} : list label -> jt_sys E -> jt_sys E :=
  run jt_start jt_body.

(** Every exception a tree will throw, and the number of its jobs. *)
Fixpoint jt_failures {E} (t : jtree E) : list E :=
  match t with
  | JNode l f =>
      (fix go (l : list (jtree E)) : list E :=
         match l with
         | [] => []
         | t' :: l' => jt_failures t' ++ go l'
         end) l ++ match f with Some e => [e] | None => [] end
  end.

Fixpoint jt_size {E} (t : jtree E) : nat :=
  match t with
  | JNode l _ =>
      S ((fix go (l : list (jtree E)) : nat :=
            match l with
            | [] => O
            | t' :: l' => (jt_size t' + go l')%nat
            end) l)
  end.




(* ===================================================================== *)
(** * Part IV.  Properties                                                *)
(* ===================================================================== *)

(** ** Arrays *)

Lemma get_Some (a : list Z) i x :
  get a i = Some x <-> 0 <= i /\ a !! Z.to_nat i = Some x.
Proof. unfold get. case_decide; intuition (try discriminate; auto). Qed.

Lemma get_bounds (a : list Z) i x :
  get a i = Some x -> 0 <= i < Z.of_nat (length a).
Proof.
  intros [? H%lookup_lt_Some]%get_Some. lia.
Qed.

Lemma get_is_Some (a : list Z) i :
  0 <= i < Z.of_nat (length a) -> exists x, get a i = Some x.
Proof.
  intros Hi. destruct (lookup_lt_is_Some_2 a (Z.to_nat i)) as [x Hx]; [lia|].
  exists x. apply get_Some. split; [lia|done].
Qed.

Lemma insert_Permutation_delete (l : list Z) j a y :
  l !! j = Some y -> <[j := a]> l ≡ₚ a :: delete j l.
Proof.
  intros H. rewrite insert_take_drop by (eapply lookup_lt_Some; eauto).
  rewrite delete_take_drop. by rewrite Permutation_middle.
Qed.

Lemma swap_nat_Permutation (l : list Z) i j x y :
  l !! i = Some x -> l !! j = Some y ->
  <[j := x]> (<[i := y]> l) ≡ₚ l.
Proof.
  revert i j. induction l as [|a l IH]; intros [|i] [|j] Hi Hj;
    simplify_eq/=; try done.
  - rewrite (insert_Permutation_delete _ _ _ _ Hj).
    etrans; [apply perm_swap|]. f_equiv. symmetry. by apply delete_Permutation.
  - rewrite (insert_Permutation_delete _ _ _ _ Hi).
    etrans; [apply perm_swap|]. f_equiv. symmetry. by apply delete_Permutation.
  - f_equiv. by apply IH.
Qed.

Lemma swap_Some (a : list Z) i j :
  0 <= i < Z.of_nat (length a) -> 0 <= j < Z.of_nat (length a) ->
  exists a', swap a i j = Some a'.
Proof.
  intros [x Hx]%get_is_Some [y Hy]%get_is_Some. unfold swap.
  rewrite Hx, Hy. simpl. eauto.
Qed.

Lemma swap_spec (a a' : list Z) i j :
  swap a i j = Some a' ->
  length a' = length a /\ a' ≡ₚ a /\
  get a' i = get a j /\ get a' j = get a i /\
  (forall k, k <> i -> k <> j -> get a' k = get a k).
Proof.
  unfold swap. intros H.
  destruct (get a i) as [x|] eqn:Hx; [|done].
  destruct (get a j) as [y|] eqn:Hy; [|done]. simplify_eq/=.
  pose proof (get_bounds _ _ _ Hx). pose proof (get_bounds _ _ _ Hy).
  apply get_Some in Hx as [? Hx]. apply get_Some in Hy as [? Hy].
  split_and!.
  - by rewrite !length_insert.
  - by apply swap_nat_Permutation.
  - unfold get. rewrite !decide_True by lia.
    destruct (decide (i = j)) as [->|].
    + rewrite list_lookup_insert_eq by (rewrite length_insert; lia). congruence.
    + rewrite list_lookup_insert_ne by lia.
      rewrite list_lookup_insert_eq by lia. done.
  - unfold get. rewrite !decide_True by lia.
    rewrite list_lookup_insert_eq by (rewrite length_insert; lia). done.
  - intros k ? ?. unfold get. case_decide; [|done].
    rewrite !list_lookup_insert_ne by lia. done.
Qed.

(** ** Arithmetic on [long] *)

Lemma long_add_Some x y z :
  long_add x y = Some z <-> z = x + y /\ LONG_MIN <= x + y <= LONG_MAX.
Proof. unfold long_add. case_decide; naive_solver. Qed.

Lemma long_add_total x y :
  LONG_MIN <= x + y <= LONG_MAX -> long_add x y = Some (x + y).
Proof. intros. by apply long_add_Some. Qed.

(** ** The scanning loops *)

Lemma scan_up_some fuel a p l l1 :
  scan_up fuel a p l = Some l1 ->
  l <= l1 /\ (exists y, get a l1 = Some y /\ p <= y) /\
  (forall i, l <= i < l1 -> exists y, get a i = Some y /\ y < p).
Proof.
  revert l. induction fuel as [|f IH]; intros l H; [done|]. simpl in H.
  destruct (get a l) as [x|] eqn:Hx; [|done]. simpl in H.
  case_decide.
  - destruct (long_add l 1) as [l'|] eqn:Hl'; [|done]. simpl in H.
    apply long_add_Some in Hl' as [-> _].
    apply IH in H as (? & ? & Hlt). split_and!; [lia|done|].
    intros i Hi. destruct (decide (i = l)) as [->|]; [eauto|].
    apply Hlt. lia.
  - simplify_eq. split_and!; [lia|exists x; split; [done|lia]|intros; lia].
Qed.

Lemma scan_up_total fuel a p l s x :
  0 <= l <= s -> s <= LONG_MAX -> get a s = Some x -> p <= x ->
  (Z.to_nat (s - l) < fuel)%nat ->
  exists l1, scan_up fuel a p l = Some l1.
Proof.
  revert l. induction fuel as [|f IH]; intros l Hl Hmax Hs Hx Hf; [lia|].
  simpl. pose proof (get_bounds _ _ _ Hs).
  destruct (get_is_Some a l) as [y Hy]; [lia|]. rewrite Hy. simpl.
  case_decide; [|eauto].
  assert (l <> s) by (intros ->; simplify_eq; lia).
  rewrite long_add_total by (unfold LONG_MIN; lia). simpl.
  apply IH; try done; lia.
Qed.

Lemma scan_down_some fuel a p r r1 :
  scan_down fuel a p r = Some r1 ->
  r1 <= r /\ (exists y, get a r1 = Some y /\ y <= p) /\
  (forall i, r1 < i <= r -> exists y, get a i = Some y /\ p < y).
Proof.
  revert r. induction fuel as [|f IH]; intros r H; [done|]. simpl in H.
  destruct (get a r) as [x|] eqn:Hx; [|done]. simpl in H.
  case_decide.
  - destruct (long_add r (-1)) as [r'|] eqn:Hr'; [|done]. simpl in H.
    apply long_add_Some in Hr' as [-> _].
    apply IH in H as (? & ? & Hlt). split_and!; [lia|done|].
    intros i Hi. destruct (decide (i = r)) as [->|].
    + exists x. split; [done|lia].
    + apply Hlt. lia.
  - simplify_eq. split_and!; [lia|exists x; split; [done|lia]|intros; lia].
Qed.

Lemma scan_down_total fuel a p r t x :
  t <= r < Z.of_nat (length a) -> r <= LONG_MAX ->
  get a t = Some x -> x <= p ->
  (Z.to_nat (r - t) < fuel)%nat ->
  exists r1, scan_down fuel a p r = Some r1.
Proof.
  revert r. induction fuel as [|f IH]; intros r Hr Hmax Ht Hx Hf; [lia|].
  simpl. pose proof (get_bounds _ _ _ Ht).
  destruct (get_is_Some a r) as [y Hy]; [lia|]. rewrite Hy. simpl.
  case_decide; [|eauto].
  assert (r <> t) by (intros ->; simplify_eq; lia).
  rewrite long_add_total by (unfold LONG_MIN; lia). simpl.
  apply IH; try done; lia.
Qed.

(** ** The partition loop *)

Definition all_le (a : list Z) (lo hi p : Z) : Prop :=
  forall i x, lo <= i <= hi -> get a i = Some x -> x <= p.

Definition all_ge (a : list Z) (lo hi p : Z) : Prop :=
  forall i x, lo <= i <= hi -> get a i = Some x -> p <= x.

(** Indices outside [lo, hi] keep their contents. *)
Definition same_outside (a a' : list Z) (lo hi : Z) : Prop :=
  forall i, ~ (lo <= i <= hi) -> get a' i = get a i.

Record loop_post (a : list Z) (p l r : Z) (a' : list Z) (l' r' : Z) : Prop := {
  lp_length : length a' = length a;
  lp_perm   : a' ≡ₚ a;
  lp_frame  : same_outside a a' l r;
  lp_l      : l <= l';
  lp_r      : r' <= r;
  lp_cross  : r' < l';
  lp_le     : forall lo, all_le a lo (l - 1) p -> all_le a' lo (l' - 1) p;
  lp_ge     : forall hi, all_ge a (r + 1) hi p -> all_ge a' (r' + 1) hi p;
  lp_strict : forall m, l <= m <= r -> get a m = Some p -> l < l' /\ r' < r;
  lp_l_max  : (exists s x, l <= s <= r + 1 /\ get a s = Some x /\ p <= x) ->
              l' <= r + 1;
  lp_r_min  : (exists t x, l - 1 <= t <= r /\ get a t = Some x /\ x <= p) ->
              l - 1 <= r';
}.

Lemma partition_loop_S f a p l r :
  partition_loop (S f) a p l r =
  (l1 ← scan_up (S (length a)) a p l;
   r1 ← scan_down (S (length a)) a p r;
   if decide (l1 <= r1) then
     a' ← swap a l1 r1;
     l2 ← long_add l1 1;
     r2 ← long_add r1 (-1);
     if decide (l2 <= r2)
     then partition_loop f a' p l2 r2
     else Some (a', l2, r2)
   else Some (a, l1, r1)).
Proof. reflexivity. Qed.

Lemma partition_loop_some fuel a p l r a' l' r' :
  partition_loop fuel a p l r = Some (a', l', r') ->
  loop_post a p l r a' l' r'.
Proof.
  revert a l r. induction fuel as [|f IH]; intros a l r H; [done|].
  rewrite partition_loop_S in H.
  destruct (scan_up _ a p l) as [l1|] eqn:Hl1; [|done].
  destruct (scan_down _ a p r) as [r1|] eqn:Hr1; [|done].
  cbn [mbind option_bind] in H.
  apply scan_up_some in Hl1 as (Hll1 & (yl & Hyl & Hpl) & Hup).
  apply scan_down_some in Hr1 as (Hrr1 & (yr & Hyr & Hpr) & Hdown).
  assert (Hm : forall m, l <= m <= r -> get a m = Some p -> l1 <= m <= r1).
  { intros m Hm Hgm. split.
    - destruct (decide (l1 <= m)); [done|].
      destruct (Hup m) as (y & ? & ?); [lia|]. simplify_eq. lia.
    - destruct (decide (m <= r1)); [done|].
      destruct (Hdown m) as (y & ? & ?); [lia|]. simplify_eq. lia. }
  assert (Hlmax : (exists s x, l <= s <= r + 1 /\ get a s = Some x /\ p <= x) ->
                  l1 <= r + 1).
  { intros (s & x & Hs & Hgs & Hx). destruct (decide (l1 <= s)); [lia|].
    destruct (Hup s) as (y & ? & ?); [lia|]. simplify_eq. lia. }
  assert (Hrmin : (exists t x, l - 1 <= t <= r /\ get a t = Some x /\ x <= p) ->
                  l - 1 <= r1).
  { intros (t & x & Ht & Hgt & Hx). destruct (decide (t <= r1)); [lia|].
    destruct (Hdown t) as (y & ? & ?); [lia|]. simplify_eq. lia. }
  case_decide as Hle.
  - destruct (swap a l1 r1) as [a1|] eqn:Hsw; [|done].
    cbn [mbind option_bind] in H.
    destruct (long_add l1 1) as [l2|] eqn:Hl2; [|done].
    destruct (long_add r1 (-1)) as [r2|] eqn:Hr2; [|done].
    cbn [mbind option_bind] in H.
    apply long_add_Some in Hl2 as [-> _].
    apply long_add_Some in Hr2 as [-> _].
    replace (r1 + -1) with (r1 - 1) in H by lia.
    apply swap_spec in Hsw as (Hlen & Hperm & Hg1 & Hg2 & Hgo).
    assert (Hle1 : forall lo, all_le a lo (l - 1) p -> all_le a1 lo l1 p).
    { intros lo Hlo i x Hi Hx. destruct (decide (i = l1)) as [->|].
      - rewrite Hg1 in Hx. simplify_eq. lia.
      - rewrite Hgo in Hx by lia.
        destruct (decide (i < l)); [eapply Hlo; [|done]; lia|].
        destruct (Hup i) as (y & ? & ?); [lia|]. simplify_eq. lia. }
    assert (Hge1 : forall hi, all_ge a (r + 1) hi p -> all_ge a1 r1 hi p).
    { intros hi Hhi i x Hi Hx. destruct (decide (i = r1)) as [->|].
      - rewrite Hg2 in Hx. simplify_eq. lia.
      - rewrite Hgo in Hx by lia.
        destruct (decide (r < i)); [eapply Hhi; [|done]; lia|].
        destruct (Hdown i) as (y & ? & ?); [lia|]. simplify_eq. lia. }
    case_decide as Hcont.
    + apply IH in H. destruct H. constructor.
      * congruence.
      * by etrans.
      * intros i Hi. rewrite lp_frame0 by lia. apply Hgo; lia.
      * lia.
      * lia.
      * done.
      * intros lo Hlo. apply lp_le0. replace (l1 + 1 - 1) with l1 by lia. auto.
      * intros hi Hhi. apply lp_ge0. replace (r1 - 1 + 1) with r1 by lia. auto.
      * intros; lia.
      * intros _. assert (l' <= r1 - 1 + 1); [|lia].
        apply lp_l_max0. exists r1, yl. split_and!; [lia|lia|congruence|done].
      * intros _. assert (l1 + 1 - 1 <= r'); [|lia].
        apply lp_r_min0. exists l1, yr. split_and!; [lia|lia|congruence|done].
    + simplify_eq. constructor; try done; try lia.
      * intros i Hi. apply Hgo; lia.
      * intros lo Hlo. replace (l1 + 1 - 1) with l1 by lia. auto.
      * intros hi Hhi. replace (r1 - 1 + 1) with r1 by lia. auto.
  - simplify_eq. constructor; try done; try lia.
    + intros lo Hlo i x Hi Hx.
      destruct (decide (i < l)); [eapply Hlo; [|done]; lia|].
      destruct (Hup i) as (y & ? & ?); [lia|]. simplify_eq. lia.
    + intros hi Hhi i x Hi Hx.
      destruct (decide (r < i)); [eapply Hhi; [|done]; lia|].
      destruct (Hdown i) as (y & ? & ?); [lia|]. simplify_eq. lia.
    + intros m Hm' Hgm. specialize (Hm m Hm' Hgm). lia.
Qed.

Lemma partition_loop_total fuel a p l r :
  0 <= l -> r < Z.of_nat (length a) -> r < LONG_MAX ->
  (exists s x, l <= s <= r + 1 /\ get a s = Some x /\ p <= x) ->
  (exists t x, l - 1 <= t <= r /\ get a t = Some x /\ x <= p) ->
  (Z.to_nat (r - l) < fuel)%nat ->
  exists res, partition_loop fuel a p l r = Some res.
Proof.
  revert a l r. induction fuel as [|f IH];
    intros a l r Hl Hr Hmax (s & xs & Hs & Hgs & Hxs)
      (t & xt & Ht & Hgt & Hxt) Hf;
    [lia|].
  rewrite partition_loop_S.
  pose proof (get_bounds _ _ _ Hgs). pose proof (get_bounds _ _ _ Hgt).
  destruct (scan_up_total (S (length a)) a p l s xs) as [l1 Hl1];
    [lia|lia|done|done|lia|].
  destruct (scan_down_total (S (length a)) a p r t xt) as [r1 Hr1];
    [lia|lia|done|done|lia|].
  rewrite Hl1, Hr1. cbn [mbind option_bind].
  apply scan_up_some in Hl1 as (? & (yl & Hyl & ?) & _).
  apply scan_down_some in Hr1 as (? & (yr & Hyr & ?) & _).
  pose proof (get_bounds _ _ _ Hyl). pose proof (get_bounds _ _ _ Hyr).
  case_decide; [|eauto].
  destruct (swap_Some a l1 r1) as [a1 Ha1]; [lia|lia|].
  rewrite Ha1. cbn [mbind option_bind].
  rewrite !long_add_total by (unfold LONG_MIN, LONG_MAX in *; lia).
  cbn [mbind option_bind].
  apply swap_spec in Ha1 as (Hlen & _ & Hg1 & Hg2 & _).
  case_decide; [|eauto].
  apply IH.
  - lia.
  - rewrite Hlen. lia.
  - lia.
  - exists r1, yl. split_and!; [lia|lia|congruence|done].
  - exists l1, yr. split_and!; [lia|lia|congruence|done].
  - lia.
Qed.

Lemma quot2_between l r : l <= r -> l <= Z.quot (l + r) 2 <= r.
Proof.
  intros Hlr. pose proof (Z.quot_rem' (l + r) 2) as Hqr.
  destruct (decide (0 <= l + r)).
  - pose proof (Z.rem_bound_pos (l + r) 2). lia.
  - pose proof (Z.rem_bound_pos_neg (l + r) 2). lia.
Qed.

Lemma pivot_of_some a left right p :
  left <= right -> pivot_of a left right = Some p ->
  exists m, left <= m <= right /\ get a m = Some p.
Proof.
  unfold pivot_of, long_add. intros Hlr H. case_decide; [|done].
  cbn [mbind option_bind] in H. exists (Z.quot (left + right) 2).
  split; [by apply quot2_between|done].
Qed.

Lemma pivot_of_total a left right :
  0 <= left <= right -> right < Z.of_nat (length a) ->
  left + right <= LONG_MAX ->
  exists p, pivot_of a left right = Some p.
Proof.
  intros Hlr Hr Hmax. unfold pivot_of, long_add.
  rewrite decide_True by (unfold LONG_MIN; lia). cbn [mbind option_bind].
  apply get_is_Some. pose proof (quot2_between left right). lia.
Qed.

(** What is known once the partitioning of [left, right] has produced the
    array [a'] and the indices [l] and [r]. *)
Record partitioned (a : list Z) (left right : Z) (a' : list Z) (p l r : Z)
  : Prop := {
  pt_pivot  : exists m, left <= m <= right /\ get a m = Some p;
  pt_length : length a' = length a;
  pt_perm   : a' ≡ₚ a;
  pt_frame  : same_outside a a' left right;
  pt_cross  : r < l;
  pt_l      : left < l <= right + 1;
  pt_r      : left - 1 <= r < right;
  pt_le     : all_le a' left (l - 1) p;
  pt_ge     : all_ge a' (r + 1) right p;
}.

Lemma partition_range_some a left right a' l r :
  left <= right ->
  partition_range a left right = Some (a', l, r) ->
  exists p, pivot_of a left right = Some p /\ partitioned a left right a' p l r.
Proof.
  unfold partition_range. intros Hlr H.
  destruct (pivot_of a left right) as [p|] eqn:Hp; [|done].
  cbn [mbind option_bind] in H. exists p. split; [done|].
  destruct (pivot_of_some _ _ _ _ Hlr Hp) as (m & Hm & Hgm).
  apply partition_loop_some in H. destruct H.
  destruct (lp_strict0 m Hm Hgm).
  constructor; try done; try lia; eauto.
  - assert (l <= right + 1); [|lia].
    apply lp_l_max0. exists m, p. split_and!; [lia|lia|done|lia].
  - assert (left - 1 <= r); [|lia].
    apply lp_r_min0. exists m, p. split_and!; [lia|lia|done|lia].
  - apply lp_le0. intros i x Hi. lia.
  - apply lp_ge0. intros i x Hi. lia.
Qed.

Lemma partition_range_total a left right :
  0 <= left <= right -> right < Z.of_nat (length a) ->
  left + right <= LONG_MAX -> right < LONG_MAX ->
  exists res, partition_range a left right = Some res.
Proof.
  intros Hlr Hr Hmax Hmax'. unfold partition_range.
  destruct (pivot_of_total a left right) as [p Hp]; [done..|].
  rewrite Hp. cbn [mbind option_bind].
  destruct (pivot_of_some _ _ _ _ (proj2 Hlr) Hp) as (m & Hm & Hgm).
  apply partition_loop_total; [lia|lia|lia| | |lia].
  - exists m, p. split_and!; [lia|lia|done|lia].
  - exists m, p. split_and!; [lia|lia|done|lia].
Qed.

(** ** Slices of the array *)

Definition in_range (rg : range) (i : Z) : Prop := rg.1 <= i <= rg.2.

(** The elements at the indices of a range, in order. *)
Definition slice (a : list Z) (rg : range) : list Z :=
  take (Z.to_nat (rg.2 - rg.1 + 1)) (drop (Z.to_nat rg.1) a).

Lemma slice_lookup a lo hi k :
  0 <= lo ->
  slice a (lo, hi) !! k =
  if decide (Z.of_nat k < hi - lo + 1) then get a (lo + Z.of_nat k) else None.
Proof.
  intros Hlo. unfold slice, get. simpl. rewrite lookup_take, lookup_drop.
  repeat case_decide; try lia; try done. f_equal. lia.
Qed.

Lemma slice_length a lo hi :
  0 <= lo -> hi < Z.of_nat (length a) ->
  length (slice a (lo, hi)) = Z.to_nat (hi - lo + 1).
Proof.
  intros. unfold slice. simpl. rewrite length_take, length_drop. lia.
Qed.

Lemma slice_ext a b lo hi :
  0 <= lo -> (forall i, lo <= i <= hi -> get a i = get b i) ->
  slice a (lo, hi) = slice b (lo, hi).
Proof.
  intros Hlo H. apply list_eq. intros k. rewrite !slice_lookup by done.
  case_decide; [|done]. apply H. lia.
Qed.

Lemma slice_split a lo mid hi :
  0 <= lo -> lo <= mid + 1 -> mid <= hi ->
  slice a (lo, hi) = slice a (lo, mid) ++ slice a (mid + 1, hi).
Proof.
  intros. unfold slice. simpl.
  replace (Z.to_nat (hi - lo + 1))
    with (Z.to_nat (mid - lo + 1) + Z.to_nat (hi - (mid + 1) + 1))%nat by lia.
  rewrite <- take_take_drop. f_equal. rewrite drop_drop. do 2 f_equal. lia.
Qed.

Lemma slice_elem_of a lo hi x :
  0 <= lo ->
  x ∈ slice a (lo, hi) <-> exists i, lo <= i <= hi /\ get a i = Some x.
Proof.
  intros Hlo. rewrite list_elem_of_lookup. split.
  - intros [k Hk]. rewrite slice_lookup in Hk by done.
    case_decide; [|done]. exists (lo + Z.of_nat k). split; [lia|done].
  - intros (i & Hi & Hx). exists (Z.to_nat (i - lo)).
    rewrite slice_lookup by done. rewrite decide_True by lia.
    rewrite <- Hx. f_equal. lia.
Qed.

Lemma array_split a lo hi :
  0 <= lo -> lo <= hi + 1 ->
  a = take (Z.to_nat lo) a ++ slice a (lo, hi) ++ drop (Z.to_nat (hi + 1)) a.
Proof.
  intros. unfold slice. simpl.
  rewrite <- (take_drop (Z.to_nat lo) a) at 1. f_equal.
  rewrite <- (take_drop (Z.to_nat (hi - lo + 1)) (drop (Z.to_nat lo) a)) at 1.
  f_equal. rewrite drop_drop. f_equal. lia.
Qed.

Lemma get_take a n i : 0 <= i < Z.of_nat n -> get (take n a) i = get a i.
Proof. intros. unfold get. case_decide; [|done]. apply lookup_take_lt. lia. Qed.

Lemma same_outside_take a a' lo hi :
  same_outside a a' lo hi -> 0 <= lo ->
  take (Z.to_nat lo) a' = take (Z.to_nat lo) a.
Proof.
  intros H Hlo. apply list_eq. intros k. rewrite !lookup_take.
  case_decide; [|done]. specialize (H (Z.of_nat k)).
  unfold get in H. rewrite !decide_True, !Nat2Z.id in H by lia. apply H. lia.
Qed.

Lemma same_outside_drop a a' lo hi :
  same_outside a a' lo hi -> 0 <= hi + 1 ->
  drop (Z.to_nat (hi + 1)) a' = drop (Z.to_nat (hi + 1)) a.
Proof.
  intros H Hhi. apply list_eq. intros k. rewrite !lookup_drop.
  specialize (H (Z.of_nat (Z.to_nat (hi + 1) + k))).
  unfold get in H. rewrite !decide_True, !Nat2Z.id in H by lia. apply H. lia.
Qed.

Lemma slice_perm_frame a a' lo hi :
  a' ≡ₚ a -> same_outside a a' lo hi -> 0 <= lo -> lo <= hi + 1 ->
  slice a' (lo, hi) ≡ₚ slice a (lo, hi).
Proof.
  intros Hp Hf Hlo Hhi.
  rewrite (array_split a lo hi), (array_split a' lo hi) in Hp by done.
  rewrite (same_outside_take _ _ _ _ Hf), (same_outside_drop _ _ _ _ Hf) in Hp
    by lia.
  apply (inj (app _)) in Hp. by apply (inj (λ l, l ++ _)) in Hp.
Qed.

Lemma same_outside_slice a a' lo hi lo' hi' :
  same_outside a a' lo hi -> 0 <= lo' ->
  (forall i, ~ (in_range (lo, hi) i /\ in_range (lo', hi') i)) ->
  slice a' (lo', hi') = slice a (lo', hi').
Proof.
  intros Hf Hlo Hd. apply slice_ext; [done|]. intros i Hi. apply Hf.
  intros ?. apply (Hd i). unfold in_range. simpl. lia.
Qed.

(** ** [std::sort] *)

Global Instance Z_le_total : Total Z.le.
Proof. intros x y. lia. Qed.

Lemma sort_list_sorted l : Sorted Z.le (sort_list l).
Proof. apply Sorted_merge_sort. apply _. Qed.

Lemma sort_list_perm l : sort_list l ≡ₚ l.
Proof. apply merge_sort_Permutation. Qed.

(** Any two ascending arrangements of the same integers coincide: every
    conforming [std::sort] returns what [sort_list] returns. *)
Lemma std_sort_unique (l s : list Z) :
  Sorted Z.le s -> s ≡ₚ l -> s = sort_list l.
Proof.
  intros Hs Hp. apply (Sorted_unique Z.le); [done|apply sort_list_sorted|].
  by rewrite sort_list_perm.
Qed.

Lemma std_sort_spec a lo hi :
  0 <= lo -> lo <= hi + 1 -> hi < Z.of_nat (length a) ->
  exists a', std_sort a lo (hi + 1) = Some a' /\
    length a' = length a /\ a' ≡ₚ a /\ same_outside a a' lo hi /\
    slice a' (lo, hi) = sort_list (slice a (lo, hi)).
Proof.
  intros Hlo Hhi Hlen. unfold std_sort. rewrite decide_True by lia.
  eexists; split; [done|].
  replace (Z.to_nat (hi + 1 - lo)) with (Z.to_nat (hi - lo + 1)) by lia.
  change (take (Z.to_nat (hi - lo + 1)) (drop (Z.to_nat lo) a))
    with (slice a (lo, hi)).
  set (s := sort_list (slice a (lo, hi))).
  assert (Hs : length s = Z.to_nat (hi - lo + 1)).
  { unfold s. rewrite (Permutation_length (sort_list_perm _)).
    apply slice_length; lia. }
  split_and!.
  - rewrite !length_app, length_take, length_drop. lia.
  - transitivity (take (Z.to_nat lo) a ++ slice a (lo, hi)
                    ++ drop (Z.to_nat (hi + 1)) a);
      [|by rewrite <- array_split].
    unfold s. by rewrite sort_list_perm.
  - intros i Hi. unfold get. case_decide; [|done].
    destruct (decide (i < lo)).
    + rewrite lookup_app_l by (rewrite length_take; lia).
      apply lookup_take_lt. lia.
    + rewrite lookup_app_r by (rewrite length_take; lia).
      rewrite lookup_app_r by (rewrite length_take; lia).
      rewrite lookup_drop. f_equal. rewrite length_take. lia.
  - unfold slice at 1. simpl.
    rewrite drop_app_length' by (rewrite length_take; lia).
    rewrite take_app_length' by lia. done.
Qed.


(* --------------------------------------------------------------------- *)
(** ** The queues of the pool                                             *)
(* --------------------------------------------------------------------- *)

Lemma bind_insert {A B} (f : A -> list B) (l : list A) i x y :
  l !! i = Some x ->
  l ≫= f ≡ₚ f x ++ delete i l ≫= f /\
  <[i := y]> l ≫= f ≡ₚ f y ++ delete i l ≫= f.
Proof.
  intros H. split.
  - rewrite (delete_Permutation l i x H) at 1. by rewrite bind_cons.
  - assert (Hi : (i < length l)%nat) by eauto using lookup_lt_Some.
    rewrite insert_take_drop, delete_take_drop by done.
    rewrite !bind_app, bind_cons.
    rewrite (Permutation_app_comm (take i l ≫= f)).
    rewrite <- (assoc_L (++)). f_equiv. apply Permutation_app_comm.
Qed.

Section PoolFacts.
Context {T : Type}.
Implicit Types (p : ThreadPool T) (t : T).

(** All queued tasks, queue by queue. *)
Definition queued p : list T := concat (m_queues p).

Definition pool_width p : nat := length (m_queues p).

Lemma concat_insert (qs : list (list T)) i q q' :
  qs !! i = Some q ->
  concat qs ≡ₚ q ++ concat (delete i qs) /\
  concat (<[i := q']> qs) ≡ₚ q' ++ concat (delete i qs).
Proof.
  intros H. split.
  - rewrite (delete_Permutation qs i q H) at 1. done.
  - assert (Hi : (i < length qs)%nat) by eauto using lookup_lt_Some.
    rewrite insert_take_drop, delete_take_drop by done.
    rewrite !concat_app. simpl.
    rewrite (Permutation_app_comm (concat (take i qs))).
    rewrite <- (assoc_L (++)). f_equiv. apply Permutation_app_comm.
Qed.

Lemma removelast_last (q : list T) t :
  last q = Some t -> q = removelast q ++ [t].
Proof.
  intros [l' ->]%last_Some. by rewrite removelast_last.
Qed.

Lemma try_pop_spec idx p t p' :
  try_pop_from_queue idx p = Some (t, p') ->
  queued p ≡ₚ t :: queued p' /\ pool_width p' = pool_width p /\
  m_done p' = m_done p /\ m_index p' = m_index p /\
  exists q, m_queues p !! idx = Some (t :: q) /\ m_queues p' !! idx = Some q.
Proof.
  unfold try_pop_from_queue, queued, pool_width. intros H.
  destruct (m_queues p !! idx) as [[|t' q]|] eqn:Hq; simplify_eq.
  destruct (concat_insert _ _ _ q Hq) as [H1 H2]. simpl.
  split_and!; try done.
  - rewrite H1, H2. done.
  - by rewrite length_insert.
  - exists q. split; [done|]. apply list_lookup_insert_eq.
    eauto using lookup_lt_Some.
Qed.

Lemma try_steal_spec idx p t p' :
  try_steal_from_queue idx p = Some (t, p') ->
  queued p ≡ₚ t :: queued p' /\ pool_width p' = pool_width p /\
  m_done p' = m_done p /\ m_index p' = m_index p /\
  exists q, m_queues p !! idx = Some (q ++ [t]) /\ m_queues p' !! idx = Some q.
Proof.
  unfold try_steal_from_queue, queued, pool_width. intros H.
  destruct (m_queues p !! idx) as [q|] eqn:Hq; [|done].
  destruct (last q) as [t'|] eqn:Hl; [|done]. simplify_eq/=.
  destruct (concat_insert _ _ _ (removelast q) Hq) as [H1 H2].
  pose proof (removelast_last _ _ Hl) as Hq'.
  split_and!; try done.
  - rewrite H1, H2. rewrite Hq' at 1.
    rewrite <- (assoc_L (++)). simpl. by rewrite <- Permutation_middle.
  - by rewrite length_insert.
  - exists (removelast q). split; [congruence|].
    apply list_lookup_insert_eq. eauto using lookup_lt_Some.
Qed.

Lemma try_pop_none idx p :
  try_pop_from_queue idx p = None <->
  m_queues p !! idx = None \/ m_queues p !! idx = Some [].
Proof.
  unfold try_pop_from_queue.
  destruct (m_queues p !! idx) as [[|??]|]; naive_solver.
Qed.

Lemma try_steal_none idx p :
  try_steal_from_queue idx p = None <->
  m_queues p !! idx = None \/ m_queues p !! idx = Some [].
Proof.
  unfold try_steal_from_queue.
  destruct (m_queues p !! idx) as [q|]; [|naive_solver].
  destruct (last q) eqn:Hl.
  - split; [done|]. intros [|]; by simplify_eq.
  - apply last_None in Hl as ->. naive_solver.
Qed.

Lemma push_front_spec idx t p :
  (idx < pool_width p)%nat ->
  queued (push_front idx t p) ≡ₚ t :: queued p /\
  pool_width (push_front idx t p) = pool_width p /\
  m_done (push_front idx t p) = m_done p.
Proof.
  unfold push_front, queued, pool_width. simpl. intros Hi.
  destruct (lookup_lt_is_Some_2 _ _ Hi) as [q Hq].
  split_and!; [|by rewrite length_alter|done].
  destruct (concat_insert _ _ _ (t :: q) Hq) as [H1 H2].
  assert (E : alter (cons t) idx (m_queues p) = <[idx := t :: q]> (m_queues p)).
  { apply list_eq. intros i. destruct (decide (i = idx)) as [->|].
    - rewrite list_lookup_alter_eq, list_lookup_insert_eq by done.
      by rewrite Hq.
    - by rewrite list_lookup_alter_ne, list_lookup_insert_ne. }
  rewrite E, H2, H1. done.
Qed.

Lemma next_index_spec p idx p' :
  next_index p = (idx, p') ->
  m_queues p' = m_queues p /\ m_done p' = m_done p /\
  ((0 < pool_width p)%nat -> (idx < pool_width p)%nat).
Proof.
  unfold next_index, pool_width. intros H. simplify_eq/=.
  split_and!; try done. intros Hk.
  pose proof (Z.mod_pos_bound (m_index p) (Z.of_nat (length (m_queues p)))).
  lia.
Qed.

Lemma steal_index_lt p my i :
  (0 < pool_width p)%nat -> (steal_index p my i < pool_width p)%nat.
Proof.
  intros. unfold steal_index. apply Nat.mod_upper_bound.
  unfold pool_width in *. lia.
Qed.

(** What one scheduling step of a worker does to the pool. *)
Lemma worker_loop_spec my c p r p' :
  worker_loop my c p = (r, p') ->
  pool_width p' = pool_width p /\ m_done p' = m_done p /\
  match r with
  | Next _ => p' = p
  | Got t => queued p ≡ₚ t :: queued p'
  end.
Proof.
  unfold worker_loop. intros H. destruct c as [| |i| |].
  - by destruct (m_done p) eqn:Hd; simplify_eq.
  - destruct (try_pop_from_queue my p) as [[t p1]|] eqn:Hpop; simplify_eq;
      [|done].
    apply try_pop_spec in Hpop. naive_solver.
  - case_decide; simplify_eq; [|done].
    destruct (try_steal_from_queue _ p) as [[t p1]|] eqn:Hst; simplify_eq;
      [|done].
    apply try_steal_spec in Hst. naive_solver.
  - by simplify_eq.
  - by simplify_eq.
Qed.

(** How far the owner of a non-empty queue is from popping it. *)
Definition seek_dist (K : nat) (c : seek) : nat :=
  match c with
  | Popping => 1
  | LoopTop => 2
  | Waiting => 3
  | Stealing i => 4 + (K - i)
  | Exited => 0
  end.

Lemma owner_seek my c p r p' t q :
  m_done p = false -> m_queues p !! my = Some (t :: q) -> c <> Exited ->
  worker_loop my c p = (r, p') ->
  match r with
  | Got _ => True
  | Next c' => (seek_dist (pool_width p) c' < seek_dist (pool_width p) c)%nat
               /\ c' <> Exited
  end.
Proof.
  unfold worker_loop, pool_width. intros Hd Hq Hc H.
  destruct c as [| |i| |]; try done.
  - rewrite Hd in H. simplify_eq. simpl. split; [lia|done].
  - unfold try_pop_from_queue in H. rewrite Hq in H.
    by simplify_eq.
  - case_decide; [destruct (try_steal_from_queue _ p) as [[??]|]|];
      simplify_eq; simpl; try done; split; (lia || done).
  - simplify_eq. simpl. split; [lia|done].
Qed.

End PoolFacts.

(* --------------------------------------------------------------------- *)
(** ** The pool on its own: every task runs exactly once                  *)
(* --------------------------------------------------------------------- *)

Section PoolAccounting.
Context {T : Type}.
Implicit Types (s : pool_sys T) (t : T) (p : ThreadPool T).

(** The tasks the workers are running right now. *)
Definition calling (ws : list (pworker T)) : list T :=
  ws ≫= (λ w, match w with Call t => [t] | Seek _ => [] end).


(** Labels of the workers and of pushes already under way: no new call of
    [push_task], no destructor. *)
Definition drains (sched : list (pool_label T)) : Prop :=
  Forall (λ lbl, match lbl with Work _ | Land _ => True | _ => False end) sched.

Record pool_inv s : Prop := {
  pi_width    : length (ps_workers s) = pool_width (ps_pool s);
  pi_pos      : (0 < pool_width (ps_pool s))%nat;
  pi_inflight : Forall (λ it, (it.1 < pool_width (ps_pool s))%nat) (ps_inflight s);
  pi_account  : ps_submitted s ≡ₚ
                ps_executed s ++ calling (ps_workers s)
                ++ queued (ps_pool s) ++ (ps_inflight s).*2;
  pi_live     : m_done (ps_pool s) = false ->
                Forall (λ w, w <> Seek Exited) (ps_workers s);
}.

Lemma concat_replicate_nil {A} n : concat (replicate n (@nil A)) = [].
Proof. induction n; simpl; auto. Qed.

Lemma calling_replicate_seek n c : calling (replicate n (Seek c)) = [].
Proof. induction n as [|n IH]; [done|]. unfold calling in *. simpl. done. Qed.

Lemma pool_size_pos n : (0 < pool_size n)%nat.
Proof. unfold pool_size. case_decide; lia. Qed.

Lemma pool_init_inv n : pool_inv (pool_init n).
Proof.
  pose proof (pool_size_pos n).
  constructor; simpl; unfold pool_width, queued; simpl;
    rewrite ?length_replicate, ?concat_replicate_nil, ?calling_replicate_seek;
    try done.
  intros _. apply Forall_replicate. done.
Qed.

Lemma worker_loop_exited my c p c' p' :
  worker_loop my c p = (Next c', p') -> c' = Exited ->
  c = Exited \/ m_done p = true.
Proof.
  unfold worker_loop. intros H ->. destruct c as [| |i| |]; auto.
  - destruct (m_done p); auto. simplify_eq.
  - destruct (try_pop_from_queue my p) as [[??]|]; simplify_eq.
  - case_decide; [destruct (try_steal_from_queue _ p) as [[??]|]|];
      simplify_eq.
  - simplify_eq.
Qed.

Lemma Forall_insert_2 {A} (P : A -> Prop) (l : list A) i x :
  Forall P l -> P x -> Forall P (<[i := x]> l).
Proof.
  intros Hl Hx. apply Forall_forall. intros y Hy.
  apply list_elem_of_lookup in Hy as [j Hj].
  apply list_lookup_insert_Some in Hj as [(-> & -> & _)|[_ Hj]]; [done|].
  eapply Forall_forall; [done|]. by eapply list_elem_of_lookup_2.
Qed.

Lemma pool_step_inv lbl s : pool_inv s -> pool_inv (pool_step lbl s).
Proof.
  intros [Hw Hpos Hin Hacc Hlive]. destruct lbl as [t|n|k|]; unfold pool_step.
  - destruct (next_index (ps_pool s)) as [idx p'] eqn:Hn.
    apply next_index_spec in Hn as (Hq & Hd & Hidx).
    constructor; simpl; unfold pool_width, queued in *; rewrite ?Hq, ?Hd;
      try done.
    + apply Forall_app. split; [done|]. repeat constructor. simpl. auto.
    + rewrite fmap_app. simpl. rewrite Hacc.
      rewrite !(assoc_L (++)). done.
  - destruct (ps_inflight s !! n) as [[idx t]|] eqn:Hn; [|by constructor].
    assert (Hidx : (idx < pool_width (ps_pool s))%nat).
    { eapply Forall_forall in Hin; [|by eapply list_elem_of_lookup_2].
      done. }
    destruct (push_front_spec idx t (ps_pool s) Hidx) as (Hq & Hwd & Hd).
    constructor; simpl; rewrite ?Hwd, ?Hd; try done.
    + rewrite delete_take_drop. rewrite <- (take_drop n (ps_inflight s)) in Hin.
      apply Forall_app in Hin as [? Hin]. apply Forall_app. split; [done|].
      replace (S n) with (n + 1)%nat by lia.
      rewrite <- drop_drop. by apply Forall_drop.
    + rewrite Hacc, Hq. rewrite (delete_Permutation _ _ _ Hn) at 1.
      rewrite fmap_cons. simpl. rewrite <- !Permutation_middle. done.
  - destruct (ps_workers s !! k) as [[c|t]|] eqn:Hk; [| |by constructor].
    + destruct (worker_loop k c (ps_pool s)) as [r p'] eqn:Hwl.
      pose proof (worker_loop_spec _ _ _ _ _ Hwl) as (Hwd & Hd & Hr).
      destruct (bind_insert
        (λ w : pworker T, match w with Call t => [t] | Seek _ => [] end)
        _ _ _ (match r with Next c' => Seek c' | Got t => Call t end) Hk)
        as [Hc1 Hc2].
      constructor; simpl; rewrite ?length_insert, ?Hwd, ?Hd; try done.
      * unfold calling. rewrite Hacc, Hc2. unfold calling. rewrite Hc1.
        destruct r as [c'|t]; [by subst|]. rewrite Hr. simpl.
        rewrite <- !Permutation_middle. done.
      * intros Hd'. apply Forall_insert_2; [auto|].
        destruct r as [c'|t]; [|done]. intros [= ->].
        destruct (worker_loop_exited _ _ _ _ _ Hwl eq_refl) as [->|?];
          [|congruence].
        eapply Forall_forall in Hlive; [|done|by eapply list_elem_of_lookup_2].
        done.
    + destruct (bind_insert
        (λ w : pworker T, match w with Call t => [t] | Seek _ => [] end)
        _ _ _ (Seek LoopTop) Hk) as [Hc1 Hc2].
      constructor; simpl; rewrite ?length_insert; try done.
      * unfold calling. rewrite Hacc, Hc2. unfold calling. rewrite Hc1.
        simpl. rewrite <- (assoc_L (++)). simpl.
        rewrite <- !Permutation_middle. done.
      * intros Hd'. apply Forall_insert_2; [auto|done].
  - constructor; simpl; try done.
Qed.

Lemma pool_run_app sched1 sched2 s :
  pool_run (sched1 ++ sched2) s = pool_run sched2 (pool_run sched1 s).
Proof. unfold pool_run. by rewrite foldl_app. Qed.

Lemma pool_run_inv sched s : pool_inv s -> pool_inv (pool_run sched s).
Proof.
  revert s. induction sched as [|lbl sched IH]; intros s Hs; [done|].
  simpl. apply IH. by apply pool_step_inv.
Qed.





Lemma concat_nonempty {A} (qs : list (list A)) :
  concat qs <> [] -> exists k x q, qs !! k = Some (x :: q).
Proof.
  induction qs as [|[|x q] qs IH]; simpl; intros H; [done| |].
  - destruct (IH H) as (k & x & q & Hk). by exists (S k), x, q.
  - by exists 0%nat, x, q.
Qed.






End PoolAccounting.

Section PoolTheorems.
Context {T : Type}.



(** The tasks a schedule submits: the arguments of its calls of
    [push_task], in the order of the calls. *)
Definition submissions (sched : list (pool_label T)) : list T :=
  sched ≫= (λ lbl, match lbl with Reserve t => [t] | _ => [] end).



Lemma drains_submissions (rest : list (pool_label T)) :
  drains rest -> submissions rest = [].
Proof.
  unfold submissions. induction 1 as [|lbl rest Hl _ IH]; [done|].
  rewrite bind_cons, IH. by destruct lbl.
Qed.


End PoolTheorems.


Lemma steal_order_last {T} (p : ThreadPool T) my :
  (my < pool_width p)%nat -> last (steal_order p my) = Some my.
Proof.
  unfold steal_order, pool_width. intros Hmy.
  destruct (length (m_queues p)) as [|k] eqn:Hk; [lia|].
  rewrite seq_S, map_app.
  change (map (steal_index p my) [(0 + k)%nat])
    with [steal_index p my k].
  rewrite last_snoc. f_equal. unfold steal_index. rewrite Hk.
  replace (my + 1 + k)%nat with (my + 1 * S k)%nat by lia.
  rewrite Nat.Div0.mod_add. apply Nat.mod_small. lia.
Qed.

(** C5.  The stealing loop of [worker_loop] runs [i] over all of
    [0 .. size-1], so its last iteration looks at index
    [(my_index + size) % size = my_index]: the scan visits [N] queues, the
    worker's own one last, not the other [N - 1] only.  In a pool of three,
    worker 1 visits queues 2, 0, 1.  In a pool of one, a worker that found
    its queue empty (two steps: the test of [m_done], the failed pop) and
    then scans takes from the back of its own queue: with 7 pushed before
    8, it runs 7 although 8 is at the front. *)
Theorem steal_scan_visits_own_queue :
  steal_order (new_pool (T := nat) 3) 1 = [2; 0; 1]%nat /\
  steal_order (new_pool (T := nat) 1) 0 = [0%nat] /\
  let s := pool_run [Work 0; Work 0; Reserve 7%nat; Land 0; Reserve 8%nat;
                     Land 0] (pool_init 1) in
  ps_workers s = [Seek (Stealing 0)] /\
  m_queues (ps_pool s) = [[8%nat; 7%nat]] /\
  ps_workers (pool_step (Work 0) s) = [Call 7%nat].
Proof. repeat split. Qed.

(** C7.  In a pool with a single queue, tasks [A], [B], [C] pushed in that
    order come back from successive calls of [try_pop_from_queue] as [C],
    [B], [A]; and a worker that is at the top of its loop when the three
    are in the queue executes them in that order.  But the single worker
    does not always execute them so: if it has found its queue empty just
    before the three are pushed, it is in its stealing scan, which looks
    at its own queue too (the worker's own index is the last, and with one
    queue the only, index of the scan) and takes from the back.  It then
    executes [A] first: the order is [A], [C], [B]. *)
Theorem single_worker_runs_oldest_first_after_failed_pop {T} (A B C : T) :
  let p := push_task C (push_task B (push_task A (new_pool 1))) in
  (exists p1 p2 p3,
     try_pop_from_queue 0 p = Some (C, p1) /\
     try_pop_from_queue 0 p1 = Some (B, p2) /\
     try_pop_from_queue 0 p2 = Some (A, p3) /\
     try_pop_from_queue 0 p3 = None) /\
  (let s := pool_run [Reserve A; Land 0; Reserve B; Land 0; Reserve C; Land 0]
                     (pool_init 1) in
   ps_pool s = p /\
   ps_workers s = [Seek LoopTop] /\
   ps_executed (pool_run (replicate 9 (Work 0)) s) = [C; B; A]) /\
  (let s := pool_run [Work 0; Work 0;
                      Reserve A; Land 0; Reserve B; Land 0; Reserve C; Land 0]
                     (pool_init 1) in
   ps_pool s = p /\
   ps_workers s = [Seek (Stealing 0)] /\
   ps_executed s = [] /\
   ps_executed (pool_run (replicate 2 (Work 0)) s) = [A] /\
   ps_executed (pool_run (replicate 8 (Work 0)) s) = [A; C; B]).
Proof.
  split; [|split].
  - do 3 eexists. repeat split.
  - repeat split.
  - repeat split.
Qed.


(** ** The 32-bit counter *)

Lemma wrap_int_idemp x y : wrap_int (wrap_int x + y) = wrap_int (x + y).
Proof.
  unfold wrap_int. f_equal.
  replace ((x + 2 ^ 31) `mod` 2 ^ 32 - 2 ^ 31 + y + 2 ^ 31)
    with ((x + 2 ^ 31) `mod` 2 ^ 32 + y) by lia.
  rewrite Zplus_mod_idemp_l. f_equal. lia.
Qed.

Lemma wrap_int_idemp_sub x y : wrap_int (wrap_int x - y) = wrap_int (x - y).
Proof. unfold Z.sub. apply wrap_int_idemp. Qed.

Lemma wrap_int_small x : - 2 ^ 31 <= x < 2 ^ 31 -> wrap_int x = x.
Proof. intros. unfold wrap_int. rewrite Z.mod_small; lia. Qed.

Lemma wrap_int_one (n : nat) :
  Z.of_nat n <= 2 ^ 32 -> wrap_int (Z.of_nat n) = 1 <-> n = 1%nat.
Proof.
  intros Hn. unfold wrap_int. split; [|intros ->; reflexivity].
  intros H. destruct (decide (Z.of_nat n + 2 ^ 31 < 2 ^ 32)).
  - rewrite Z.mod_small in H by lia. lia.
  - replace (Z.of_nat n + 2 ^ 31)
      with (Z.of_nat n - 2 ^ 31 + 1 * 2 ^ 32) in H by lia.
    rewrite Z_mod_plus_full, Z.mod_small in H by lia. lia.
Qed.

Lemma bind_nil {A B} (f : A -> list B) : [] ≫= f = [].
Proof. reflexivity. Qed.

(* --------------------------------------------------------------------- *)
(** ** The fork-join system: every step is local                          *)
(* --------------------------------------------------------------------- *)

Ltac unfold_step := unfold step.
Ltac unfold_run := unfold run.

Section ForkJoinFacts.
Context {job cont exn mem : Type}.
Context (start : job -> cont) (body_step : mem -> cont -> outcome job cont exn mem).

Abbreviation sys := (sys job cont exn mem).
Abbreviation worker := (worker job cont exn).
Abbreviation activity := (activity job cont exn).
Abbreviation QuicksortState := (QuicksortState exn).
Abbreviation step := (step start body_step).
Abbreviation run := (run start body_step).

Implicit Types (s : sys) (w : worker) (a : activity) (j : job) (c : cont)
  (st : QuicksortState) (e : exn) (lbl : label).

(** Everything in the system that holds or is a task: the main thread, the
    workers, and the queued jobs. *)
Inductive item :=
  | IMain (m : main_thread job)
  | IWorker (w : worker)
  | IQueued (j : job).

Definition items s : list item :=
  IMain (sys_main s) :: (IWorker <$> sys_workers s)
  ++ (IQueued <$> queued (sys_pool s)).

(** The part of the system that is not a list of items. *)
Definition aux_of s :=
  (sys_state s, sys_mem s, h_hits s, h_sets s, h_arrivals s, h_raised s).

Definition sys_width s : nat := pool_width (sys_pool s).

Definition incr_counter st : QuicksortState :=
  mkState (prom st) (wrap_int (counter st + 1)) (except_ptr st) (except_set st).

(** A queue index held by a thread between [m_index.fetch_add] and the
    [push_front] is a valid one. *)
Definition item_ok (K : nat) (it : item) : Prop :=
  match it with
  | IMain (MainSpawning (AtPush idx) _) => (idx < K)%nat
  | IWorker (Running (Spawning (AtPush idx) _ _)) => (idx < K)%nat
  | _ => True
  end.

Record shape s : Prop := {
  sh_workers : length (sys_workers s) = sys_width s;
  sh_pos     : (0 < sys_width s)%nat;
  sh_items   : Forall (item_ok (sys_width s)) (items s);
}.

(** The steps of the system, one constructor per atomic step of the code:
    [kind lbl s s' old new] says that label [lbl] in state [s] replaces the
    items [old] by the items [new] and leaves the rest of the state as it
    is in [s']. *)
Inductive kind s : label -> sys -> list item -> list item -> Prop :=
  | k_stop : kind s Stop s [] []
  | k_main_wait :
      sys_main s = MainWaiting -> kind s Main s [] []
  | k_main_counter j :
      sys_main s = MainSpawning AtCounter j ->
      kind s Main (set_state (incr_counter (sys_state s)) s)
        [IMain (MainSpawning AtCounter j)] [IMain (MainSpawning AtIndex j)]
  | k_main_index j idx :
      sys_main s = MainSpawning AtIndex j -> (idx < sys_width s)%nat ->
      kind s Main s
        [IMain (MainSpawning AtIndex j)] [IMain (MainSpawning (AtPush idx) j)]
  | k_main_push j idx :
      sys_main s = MainSpawning (AtPush idx) j ->
      kind s Main s
        [IMain (MainSpawning (AtPush idx) j)] [IMain MainWaiting; IQueued j]
  | k_absent k :
      sys_workers s !! k = None -> kind s (Worker k) s [] []
  | k_crashed k why :
      sys_workers s !! k = Some (Crashed why) -> kind s (Worker k) s [] []
  | k_seek k (sk sk' : seek) :
      sys_workers s !! k = Some (Seeking sk) ->
      worker_loop k sk (sys_pool s) = (Next sk', sys_pool s) ->
      kind s (Worker k) s [IWorker (Seeking sk)] [IWorker (Seeking sk')]
  | k_got k (sk : seek) j p' :
      sys_workers s !! k = Some (Seeking sk) ->
      worker_loop k sk (sys_pool s) = (Got j, p') ->
      kind s (Worker k) s
        [IWorker (Seeking sk); IQueued j] [IWorker (Running (Body (start j)))]
  | k_continue k c m c' :
      sys_workers s !! k = Some (Running (Body c)) ->
      body_step (sys_mem s) c = Continue m c' ->
      kind s (Worker k) (set_mem m s)
        [IWorker (Running (Body c))] [IWorker (Running (Body c'))]
  | k_fork k c m j c' :
      sys_workers s !! k = Some (Running (Body c)) ->
      body_step (sys_mem s) c = Fork m j c' ->
      kind s (Worker k) (set_mem m s)
        [IWorker (Running (Body c))]
        [IWorker (Running (Spawning AtCounter j c'))]
  | k_return k c :
      sys_workers s !! k = Some (Running (Body c)) ->
      body_step (sys_mem s) c = Return ->
      kind s (Worker k) s
        [IWorker (Running (Body c))] [IWorker (Running Decrement)]
  | k_raise k c e :
      sys_workers s !! k = Some (Running (Body c)) ->
      body_step (sys_mem s) c = Raise e ->
      kind s (Worker k) (log_raise e s)
        [IWorker (Running (Body c))] [IWorker (Running (Caught e))]
  | k_fault k c :
      sys_workers s !! k = Some (Running (Body c)) ->
      body_step (sys_mem s) c = Fault ->
      kind s (Worker k) s
        [IWorker (Running (Body c))] [IWorker (Crashed BodyFault)]
  | k_spawn_counter k j c :
      sys_workers s !! k = Some (Running (Spawning AtCounter j c)) ->
      kind s (Worker k) (set_state (incr_counter (sys_state s)) s)
        [IWorker (Running (Spawning AtCounter j c))]
        [IWorker (Running (Spawning AtIndex j c))]
  | k_spawn_index k j c idx :
      sys_workers s !! k = Some (Running (Spawning AtIndex j c)) ->
      (idx < sys_width s)%nat ->
      kind s (Worker k) s
        [IWorker (Running (Spawning AtIndex j c))]
        [IWorker (Running (Spawning (AtPush idx) j c))]
  | k_spawn_push k j c idx :
      sys_workers s !! k = Some (Running (Spawning (AtPush idx) j c)) ->
      kind s (Worker k) s
        [IWorker (Running (Spawning (AtPush idx) j c))]
        [IWorker (Running (Body c)); IQueued j]
  | k_caught k e :
      sys_workers s !! k = Some (Running (Caught e)) ->
      kind s (Worker k)
        (set_state (record_exception e (sys_state s)) (log_arrival e s))
        [IWorker (Running (Caught e))] [IWorker (Running Decrement)]
  | k_decrement_last k :
      sys_workers s !! k = Some (Running Decrement) ->
      counter (sys_state s) = 1 ->
      kind s (Worker k) (set_state (fetch_sub (sys_state s)).2 (log_hit s))
        [IWorker (Running Decrement)] [IWorker (Running Finalize)]
  | k_decrement k :
      sys_workers s !! k = Some (Running Decrement) ->
      counter (sys_state s) <> 1 ->
      kind s (Worker k) (set_state (fetch_sub (sys_state s)).2 s)
        [IWorker (Running Decrement)] [IWorker (Seeking LoopTop)]
  | k_finalize k r :
      sys_workers s !! k = Some (Running Finalize) ->
      finalize (sys_state s) = inl r ->
      kind s (Worker k) (set_state (fulfil r (sys_state s)) (log_set r s))
        [IWorker (Running Finalize)] [IWorker (Seeking LoopTop)]
  | k_finalize_crash k why :
      sys_workers s !! k = Some (Running Finalize) ->
      finalize (sys_state s) = inr why ->
      kind s (Worker k) s
        [IWorker (Running Finalize)] [IWorker (Crashed why)].

Definition rest_of_worker (k : nat) s (qs : list job) : list item :=
  IMain (sys_main s) :: (IWorker <$> delete k (sys_workers s))
  ++ (IQueued <$> qs).

Global Instance rest_of_worker_perm k s :
  Proper ((≡ₚ) ==> (≡ₚ)) (rest_of_worker k s).
Proof. intros qs qs' H. unfold rest_of_worker. by rewrite H. Qed.

Lemma items_worker k w s :
  sys_workers s !! k = Some w ->
  items s ≡ₚ IWorker w :: rest_of_worker k s (queued (sys_pool s)).
Proof.
  intros H. unfold items, rest_of_worker.
  rewrite (delete_Permutation _ _ _ H) at 1. rewrite fmap_cons. simpl.
  apply perm_swap.
Qed.

Lemma items_set_worker k w w' s s' :
  sys_workers s !! k = Some w ->
  sys_main s' = sys_main s -> sys_workers s' = sys_workers s ->
  items (set_worker k w' s')
  ≡ₚ IWorker w' :: rest_of_worker k s (queued (sys_pool s')).
Proof.
  intros H Hm Hw. unfold items, rest_of_worker, set_worker. simpl.
  rewrite Hm, Hw.
  assert (Hi : (k < length (sys_workers s))%nat) by eauto using lookup_lt_Some.
  rewrite insert_take_drop, delete_take_drop by done.
  rewrite !fmap_app, fmap_cons. rewrite <- !(assoc_L (++)). simpl.
  rewrite <- Permutation_middle. apply perm_swap.
Qed.

Lemma rest_of_worker_queued k s j qs :
  rest_of_worker k s (j :: qs) ≡ₚ IQueued j :: rest_of_worker k s qs.
Proof.
  unfold rest_of_worker. rewrite fmap_cons.
  rewrite <- Permutation_middle. apply perm_swap.
Qed.

Lemma shape_worker k w s :
  shape s -> sys_workers s !! k = Some w -> item_ok (sys_width s) (IWorker w).
Proof.
  intros [_ _ H] Hk. eapply Forall_forall; [exact H|].
  unfold items. apply list_elem_of_In. right. apply in_or_app. left.
  apply list_elem_of_In, list_elem_of_fmap. exists w.
  split; [done|]. by eapply list_elem_of_lookup_2.
Qed.

(** What [step] does, read off the code case by case. *)
Lemma step_kind lbl s :
  shape s ->
  exists sx old new rest,
    kind s lbl sx old new /\
    items s ≡ₚ old ++ rest /\ items (step lbl s) ≡ₚ new ++ rest /\
    aux_of (step lbl s) = aux_of sx /\
    sys_width (step lbl s) = sys_width s /\
    length (sys_workers (step lbl s)) = length (sys_workers s) /\
    m_done (sys_pool (step lbl s)) =
      match lbl with Stop => true | _ => m_done (sys_pool s) end.
Proof.
  intros Hsh. pose proof Hsh as [Hlen Hpos Hok].
  destruct lbl as [|k|]; unfold_step.
  - (* Main *)
    destruct (sys_main s) as [[| |idx] j|] eqn:Hm.
    + exists (set_state (incr_counter (sys_state s)) s), [IMain (MainSpawning AtCounter j)],
        [IMain (MainSpawning AtIndex j)],
        ((IWorker <$> sys_workers s) ++ (IQueued <$> queued (sys_pool s))).
      split; [by constructor|]. unfold items. rewrite Hm. by simpl.
    + unfold spawn_task_in_pool.
      destruct (next_index (sys_pool s)) as [idx p'] eqn:Hn.
      apply next_index_spec in Hn as (Hq & Hd & Hidx).
      exists s, [IMain (MainSpawning AtIndex j)],
        [IMain (MainSpawning (AtPush idx) j)],
        ((IWorker <$> sys_workers s) ++ (IQueued <$> queued (sys_pool s))).
      split; [constructor; auto|]. unfold items, queued, sys_width, pool_width.
      simpl. rewrite Hm, Hq. by simpl.
    + assert (Hidx : (idx < sys_width s)%nat).
      { apply Forall_cons in Hok as [Hok _]. by rewrite Hm in Hok. }
      destruct (push_front_spec idx j (sys_pool s) Hidx) as (Hq & Hwd & Hd).
      exists s, [IMain (MainSpawning (AtPush idx) j)],
        [IMain MainWaiting; IQueued j],
        ((IWorker <$> sys_workers s) ++ (IQueued <$> queued (sys_pool s))).
      split; [by constructor|]. unfold items, sys_width. simpl.
      rewrite Hm, Hq. split_and!; try done.
      rewrite fmap_cons. by rewrite <- Permutation_middle.
    + exists s, [], [], (items s). split; [by constructor|]. by simpl.
  - (* Worker k *)
    destruct (sys_workers s !! k) as [[sk|a|why]|] eqn:Hk.
    + destruct (worker_loop k sk (sys_pool s)) as [r p'] eqn:Hwl.
      pose proof (worker_loop_spec _ _ _ _ _ Hwl) as (Hwd & Hd & Hr).
      pose proof (items_worker _ _ _ Hk) as Hi.
      destruct r as [sk'|j].
      * subst p'.
        exists s, [IWorker (Seeking sk)], [IWorker (Seeking sk')],
          (rest_of_worker k s (queued (sys_pool s))).
        split; [by econstructor|].
        rewrite (items_set_worker k _ _ s _ Hk) by done.
        unfold sys_width. simpl. rewrite length_insert. by simpl.
      * exists s, [IWorker (Seeking sk); IQueued j],
          [IWorker (Running (Body (start j)))],
          (rest_of_worker k s (queued p')).
        split; [by econstructor|].
        rewrite (items_set_worker k _ _ s _ Hk) by done.
        unfold sys_width. simpl. rewrite length_insert.
        split_and!; try done.
        rewrite Hi, Hr, rest_of_worker_queued. done.
    + pose proof (items_worker _ _ _ Hk) as Hi.
      pose proof (shape_worker _ _ _ Hsh Hk) as Hokw.
      destruct a as [c|pc j c|e| |]; unfold task_step.
      * destruct (body_step (sys_mem s) c) as [m c'|m j c'| |e|] eqn:Hb.
        all: eexists _, [IWorker (Running (Body c))], [_],
               (rest_of_worker k s (queued (sys_pool s))).
        all: (split; [by econstructor|]).
        all: rewrite (items_set_worker k _ _ s _ Hk) by done.
        all: unfold sys_width; simpl; rewrite length_insert; by simpl.
      * destruct pc as [| |idx]; unfold spawn_task_in_pool.
        -- eexists _, [IWorker (Running (Spawning AtCounter j c))], [_],
             (rest_of_worker k s (queued (sys_pool s))).
           split; [by econstructor|].
           rewrite (items_set_worker k _ _ s _ Hk) by done.
           unfold sys_width; simpl; rewrite length_insert; by simpl.
        -- destruct (next_index (sys_pool s)) as [idx p'] eqn:Hn.
           apply next_index_spec in Hn as (Hq & Hd & Hidx).
           exists s, [IWorker (Running (Spawning AtIndex j c))],
             [IWorker (Running (Spawning (AtPush idx) j c))],
             (rest_of_worker k s (queued (sys_pool s))).
           split; [constructor; auto|].
           rewrite (items_set_worker k _ _ s _ Hk) by done.
           unfold sys_width, pool_width, queued; simpl.
           rewrite length_insert, Hq. by simpl.
        -- simpl in Hokw.
           destruct (push_front_spec idx j (sys_pool s) Hokw) as (Hq & Hwd & Hd).
           exists s, [IWorker (Running (Spawning (AtPush idx) j c))],
             [IWorker (Running (Body c)); IQueued j],
             (rest_of_worker k s (queued (sys_pool s))).
           split; [by constructor|].
           rewrite (items_set_worker k _ _ s _ Hk) by done.
           unfold sys_width; simpl. rewrite length_insert.
           split_and!; try done. rewrite Hq, rest_of_worker_queued. done.
      * eexists _, [IWorker (Running (Caught e))], [_],
          (rest_of_worker k s (queued (sys_pool s))).
        split; [by econstructor|].
        rewrite (items_set_worker k _ _ s _ Hk) by done.
        unfold sys_width; simpl; rewrite length_insert; by simpl.
      * change (fetch_sub (sys_state s))
          with (counter (sys_state s), (fetch_sub (sys_state s)).2).
        cbv beta iota. case_decide as Hc.
        all: eexists _, [IWorker (Running Decrement)], [_],
               (rest_of_worker k s (queued (sys_pool s))).
        all: (split; [by econstructor|]).
        all: rewrite (items_set_worker k _ _ s _ Hk) by done.
        all: unfold sys_width; simpl; rewrite length_insert; by simpl.
      * destruct (finalize (sys_state s)) as [r|why] eqn:Hf.
        all: eexists _, [IWorker (Running Finalize)], [_],
               (rest_of_worker k s (queued (sys_pool s))).
        all: (split; [by econstructor|]).
        all: rewrite (items_set_worker k _ _ s _ Hk) by done.
        all: unfold sys_width; simpl; rewrite length_insert; by simpl.
    + exists s, [], [], (items s). split; [by econstructor|]. by simpl.
    + exists s, [], [], (items s). split; [by econstructor|]. by simpl.
  - exists s, [], [], (items s). split; [by constructor|]. by simpl.
Qed.

Lemma kind_new_ok s lbl sx old new :
  kind s lbl sx old new -> Forall (item_ok (sys_width s)) new.
Proof. destruct 1; repeat constructor; done. Qed.

Lemma step_shape lbl s : shape s -> shape (step lbl s).
Proof.
  intros Hsh. destruct (step_kind lbl s Hsh)
    as (sx & old & new & rest & Hk & Hi & Hi' & _ & Hw & Hl & _).
  destruct Hsh as [Hlen Hpos Hok]. constructor.
  - congruence.
  - by rewrite Hw.
  - rewrite Hw, Hi'. rewrite Hi in Hok. apply Forall_app in Hok as [_ ?].
    apply Forall_app. split; [|done]. by eapply kind_new_ok.
Qed.

(** ** Counting the tasks that have not decremented yet *)

(** How much each item contributes to the tasks counted by [counter]:
    a job counts from the [fetch_add] of its spawn to the [fetch_sub] of
    its wrapper. *)
Definition pend (it : item) : nat :=
  match it with
  | IMain (MainSpawning AtCounter _) => 0
  | IMain (MainSpawning _ _) => 1
  | IMain MainWaiting => 0
  | IWorker (Running (Body _)) => 1
  | IWorker (Running (Spawning AtCounter _ _)) => 1
  | IWorker (Running (Spawning _ _ _)) => 2
  | IWorker (Running (Caught _)) => 1
  | IWorker (Running Decrement) => 1
  | IWorker (Running Finalize) => 0
  | IWorker (Crashed BodyFault) => 1
  | IWorker _ => 0
  | IQueued _ => 1
  end%nat.

Definition unstarted (it : item) : nat :=
  match it with IMain (MainSpawning AtCounter _) => 1 | _ => 0 end%nat.

Definition finalizing (it : item) : nat :=
  match it with IWorker (Running Finalize) => 1 | _ => 0 end%nat.

Definition dead (it : item) : nat :=
  match it with
  | IWorker (Crashed PromiseAlreadySatisfied) => 1
  | IWorker (Crashed NullException) => 1
  | _ => 0
  end%nat.

Definition catching (it : item) : list exn :=
  match it with IWorker (Running (Caught e)) => [e] | _ => [] end.

Definition pending s : nat := sum_list_with pend (items s).

Definition expected_result (arrivals : list exn) : future_result exn :=
  match arrivals with [] => Value | e :: _ => Exception e end.

(** The invariant of the fork-join state, over the items and the rest. *)
Definition fj_inv_on
    (x : QuicksortState * mem * nat * list (future_result exn)
         * list exn * list exn)
    (its : list item) : Prop :=
  let '(st, _, hits, sets, arrivals, raised) := x in
  counter st = wrap_int (Z.of_nat (sum_list_with pend its)) /\
  hits = (sum_list_with finalizing its + length sets)%nat /\
  sum_list_with dead its = 0%nat /\
  ((sum_list_with unstarted its = 1 /\ sum_list_with pend its = 0
    /\ hits = 0)%nat
   \/ (sum_list_with unstarted its = 0 /\
       ((hits = 0 /\ 1 <= sum_list_with pend its)
        \/ (hits = 1 /\ sum_list_with pend its = 0)))%nat) /\
  prom st = last sets /\
  except_ptr st = head arrivals /\
  except_set st = bool_decide (arrivals <> []) /\
  raised ≡ₚ arrivals ++ (its ≫= catching) /\
  (forall r, r ∈ sets -> r = expected_result arrivals).

Definition fj_inv s : Prop := fj_inv_on (aux_of s) (items s).

Lemma fj_inv_on_perm x its its' :
  its ≡ₚ its' -> fj_inv_on x its -> fj_inv_on x its'.
Proof.
  intros Hp. destruct x as [[[[[st m] hits] sets] arrivals] raised].
  unfold fj_inv_on. by rewrite Hp.
Qed.

Lemma pend_catching its :
  sum_list_with pend its = 0%nat -> its ≫= catching = [].
Proof.
  induction its as [|it its IH]; [done|]. intros H. simpl in H.
  rewrite bind_cons, IH by lia.
  destruct it as [[[]|]|[|[]|]|]; simpl in *; done || lia.
Qed.

Lemma expected_result_snoc arrivals e :
  arrivals <> [] -> expected_result (arrivals ++ [e]) = expected_result arrivals.
Proof. by destruct arrivals. Qed.

Lemma kind_fj_inv s lbl sx old new rest :
  kind s lbl sx old new ->
  Z.of_nat (sum_list_with pend (old ++ rest)) <= 2 ^ 32 ->
  fj_inv_on (aux_of s) (old ++ rest) -> fj_inv_on (aux_of sx) (new ++ rest).
Proof.
  intros Hk Hb. unfold fj_inv_on, aux_of.
  rewrite !sum_list_with_app, !bind_app in *.
  set (Rp := sum_list_with pend rest) in *.
  set (Rf := sum_list_with finalizing rest) in *.
  set (Rd := sum_list_with dead rest) in *.
  set (Ru := sum_list_with unstarted rest) in *.
  set (Rc := rest ≫= catching) in *.
  intros (Hc & Hh & Hd & Hph & Hpr & Hptr & Hset & Hr & Hres).
  destruct Hk; simpl in *.
  all: try (split_and!;
            first [done | lia | by (rewrite Hc, wrap_int_idemp; f_equal; lia)]).
  - (* the body throws *)
    split_and!; try done.
    rewrite Hr, <- (assoc_L (++)). f_equiv. symmetry.
    apply Permutation_cons_append.
  - (* catch: the locked block *)
    assert (Hsets : h_sets s = []).
    { destruct (h_sets s); [done|]. simpl in *. lia. }
    assert (Hr' : h_raised s ≡ₚ (h_arrivals s ++ [e]) ++ Rc).
    { rewrite Hr, <- (assoc_L (++)). done. }
    unfold record_exception. rewrite Hset.
    destruct (h_arrivals s) as [|e0 l] eqn:Harr.
    + rewrite bool_decide_false by naive_solver. simpl.
      split_and!; try done; try lia. rewrite Hsets. by intros r ?%elem_of_nil.
    + rewrite bool_decide_true by done. simpl.
      split_and!; try done; lia.
  - (* the last decrement *)
    rewrite Hc in H0. apply wrap_int_one in H0; [|done].
    split_and!; try done; try lia.
    rewrite Hc. replace (S Rp) with 1%nat by lia.
    replace Rp with 0%nat by lia. done.
  - (* a decrement that is not the last *)
    assert (S Rp <> 1)%nat.
    { intros Heq. apply H0. rewrite Hc, Heq. done. }
    split_and!; try done; try lia.
    rewrite Hc, wrap_int_idemp_sub. f_equal. lia.
  - (* setting the promise *)
    unfold finalize in H0.
    destruct (prom (sys_state s)) eqn:Hp; [done|].
    symmetry in Hpr. apply last_None in Hpr.
    rewrite Hpr in *. simpl in *.
    split_and!; try done; try lia.
    intros r0 ->%list_elem_of_singleton.
    destruct (except_set (sys_state s)); symmetry in Hset.
    + apply bool_decide_eq_true in Hset.
      destruct (h_arrivals s); [done|]. simpl in *.
      rewrite Hptr in H0. by simplify_eq.
    + apply bool_decide_eq_false in Hset.
      destruct (h_arrivals s); [|by destruct Hset]. by simplify_eq.
  - (* no crash in the locked block *)
    exfalso. unfold finalize in H0.
    destruct (prom (sys_state s)) eqn:Hp.
    + destruct (h_sets s) as [|r0 l] eqn:Hs; [done|]. simpl in *. lia.
    + destruct (except_set (sys_state s)); [|done]. symmetry in Hset.
      apply bool_decide_eq_true in Hset.
      destruct (h_arrivals s); [done|]. simpl in *.
      rewrite Hptr in H0. done.
Qed.

Lemma step_fj_inv lbl s :
  shape s -> Z.of_nat (pending s) <= 2 ^ 32 -> fj_inv s -> fj_inv (step lbl s).
Proof.
  intros Hsh Hb Hinv. destruct (step_kind lbl s Hsh)
    as (sx & old & new & rest & Hk & Hi & Hi' & Haux & _).
  unfold fj_inv. rewrite Haux. eapply fj_inv_on_perm; [by symmetry|].
  eapply kind_fj_inv; [done| |].
  - unfold pending in Hb. by rewrite Hi in Hb.
  - eapply fj_inv_on_perm; [|exact Hinv]. done.
Qed.

(** ** The initial state *)

Lemma sum_list_with_zero {A} (f : A -> nat) (l : list A) :
  (forall x, f x = 0%nat) -> sum_list_with f l = 0%nat.
Proof. intros H. induction l; simpl; rewrite ?H; auto. Qed.

Lemma init_items n root m :
  items (quicksort_async n root m)
  = IMain (MainSpawning AtCounter root)
    :: (IWorker <$> replicate (pool_size n) (Seeking LoopTop)).
Proof.
  unfold items, quicksort_async, queued, new_pool. simpl.
  by rewrite concat_replicate_nil, app_nil_r.
Qed.

Lemma sum_init_workers (f : item -> nat) n :
  f (IWorker (Seeking LoopTop)) = 0%nat ->
  sum_list_with f (IWorker <$> replicate n (Seeking LoopTop)) = 0%nat.
Proof. intros H. induction n; simpl; rewrite ?H; auto. Qed.

Lemma init_shape n root m : shape (quicksort_async n root m).
Proof.
  pose proof (pool_size_pos n). constructor.
  - unfold sys_width, pool_width. simpl. by rewrite !length_replicate.
  - unfold sys_width, pool_width. simpl. by rewrite length_replicate.
  - rewrite init_items. constructor; [done|].
    apply Forall_fmap, Forall_replicate. done.
Qed.

Lemma init_fj_inv n root m : fj_inv (quicksort_async n root m).
Proof.
  assert (Hc : (IWorker <$> replicate (pool_size n) (Seeking LoopTop))
               ≫= catching = []).
  { induction (pool_size n) as [|k IH]; [done|].
    change (replicate (S k) (Seeking LoopTop))
      with (Seeking LoopTop :: replicate k (@Seeking job cont exn LoopTop)).
    by rewrite fmap_cons, bind_cons, IH. }
  unfold fj_inv, fj_inv_on, aux_of. rewrite init_items, bind_cons, Hc.
  cbn [sum_list_with quicksort_async sys_state h_hits h_sets h_arrivals
       h_raised].
  rewrite !sum_init_workers by done. simpl.
  split_and!; try done.
  - left. done.
  - by intros r ?%elem_of_nil.
Qed.

(** ** Work left, and termination *)

Section Weight.

(** A measure on started bodies that every step of a body decreases, a fork
    by at least the measure of the forked job. *)
Context (wcont : cont -> nat).
Hypothesis wcont_pos : forall c, (1 <= wcont c)%nat.
Hypothesis wcont_continue : forall m c m' c',
  body_step m c = Continue m' c' -> (wcont c' < wcont c)%nat.
Hypothesis wcont_fork : forall m c m' j c',
  body_step m c = Fork m' j c' -> (wcont (start j) + wcont c' < wcont c)%nat.

Definition pc_weight (pc : spawn_pc) : nat :=
  match pc with AtCounter => 3 | AtIndex => 2 | AtPush _ => 1 end.

Definition job_weight j : nat := 16 * wcont (start j) + 4.
Definition body_weight c : nat := 16 * wcont c + 3.

(** The number of atomic steps an item can still cause, at most. *)
Definition weight (it : item) : nat :=
  match it with
  | IMain (MainSpawning pc j) => job_weight j + pc_weight pc
  | IMain MainWaiting => 0
  | IWorker (Running (Body c)) => body_weight c
  | IWorker (Running (Spawning pc j c)) =>
      job_weight j + body_weight c + pc_weight pc
  | IWorker (Running (Caught _)) => 18
  | IWorker (Running Decrement) => 17
  | IWorker (Running Finalize) => 1
  | IWorker (Crashed BodyFault) => 16
  | IWorker _ => 0
  | IQueued j => job_weight j
  end%nat.

Definition work s : nat := sum_list_with weight (items s).

Lemma pend_weight it : (16 * pend it <= weight it)%nat.
Proof.
  destruct it as [[pc j|]|[sk|[c|pc j c|e| |]|[]]|j]; simpl;
    unfold job_weight, body_weight; try lia.
  - pose proof (wcont_pos (start j)). destruct pc; simpl; lia.
  - pose proof (wcont_pos c). lia.
  - pose proof (wcont_pos c). pose proof (wcont_pos (start j)).
    destruct pc; simpl; lia.
  - pose proof (wcont_pos (start j)). lia.
Qed.

Lemma pending_work s : (16 * pending s <= work s)%nat.
Proof.
  unfold pending, work. induction (items s) as [|it its IH]; simpl; [lia|].
  pose proof (pend_weight it). lia.
Qed.

(** Steps of a thread that is not looking for work decrease the measure;
    no step increases it. *)
Lemma kind_weight s lbl sx old new :
  kind s lbl sx old new ->
  (sum_list_with weight new < sum_list_with weight old)%nat
  \/ (old = [] /\ new = [])
  \/ (exists sk sk', old = [IWorker (Seeking sk)]
                     /\ new = [IWorker (Seeking sk')]).
Proof.
  destruct 1; simpl; unfold job_weight, body_weight; eauto 10; left;
    repeat match goal with
    | H : body_step _ _ = Continue _ _ |- _ => apply wcont_continue in H
    | H : body_step _ _ = Fork _ _ _ |- _ => apply wcont_fork in H
    | c : cont |- _ => learn_hyp (wcont_pos c)
    | why : crash |- _ => destruct why
    end; try lia.
  exfalso. unfold finalize in *. repeat case_match; congruence.
Qed.

Lemma step_work lbl s : shape s -> (work (step lbl s) <= work s)%nat.
Proof.
  intros Hsh. destruct (step_kind lbl s Hsh)
    as (sx & old & new & rest & Hk & Hi & Hi' & _).
  unfold work. rewrite Hi, Hi', !sum_list_with_app.
  destruct (kind_weight _ _ _ _ _ Hk) as [?|[[-> ->]|(sk & sk' & -> & ->)]];
    simpl; lia.
Qed.

Lemma init_work n root m :
  work (quicksort_async n root m) = (16 * wcont (start root) + 7)%nat.
Proof.
  unfold work. rewrite init_items. simpl. rewrite sum_init_workers by done.
  unfold job_weight. lia.
Qed.

(** *** Invariants of the client, lifted to the system *)

(** What a client invariant can talk about: the jobs that have been created
    and not started, and the bodies that are running. *)
Inductive unit_ := UJob (j : job) | UCont (c : cont).

Definition unit_of (it : item) : list unit_ :=
  match it with
  | IMain (MainSpawning _ j) => [UJob j]
  | IWorker (Running (Body c)) => [UCont c]
  | IWorker (Running (Spawning _ j c)) => [UJob j; UCont c]
  | IQueued j => [UJob j]
  | _ => []
  end.

Definition units s : list unit_ := items s ≫= unit_of.

Context (Inv : mem -> list unit_ -> Prop).
Hypothesis Inv_perm : forall m us us', us ≡ₚ us' -> Inv m us -> Inv m us'.
Hypothesis Inv_start : forall m j us,
  Inv m (UJob j :: us) -> Inv m (UCont (start j) :: us).
Hypothesis Inv_body : forall m c us,
  Inv m (UCont c :: us) ->
  match body_step m c with
  | Continue m' c' => Inv m' (UCont c' :: us)
  | Fork m' j c' => Inv m' (UJob j :: UCont c' :: us)
  | Return | Raise _ => Inv m us
  | Fault => False
  end.

Lemma kind_inv s lbl sx old new rest :
  kind s lbl sx old new ->
  Inv (sys_mem s) ((old ++ rest) ≫= unit_of) ->
  Inv (sys_mem sx) ((new ++ rest) ≫= unit_of)
  /\ new <> [IWorker (Crashed BodyFault)].
Proof.
  intros Hk. rewrite !bind_app.
  destruct Hk; rewrite ?bind_cons, ?bind_nil; simpl; intros HI;
    try (split; [done|congruence]).
  - split; [|done]. by apply Inv_start.
  - apply Inv_body in HI. rewrite H0 in HI. done.
  - apply Inv_body in HI. rewrite H0 in HI. done.
  - apply Inv_body in HI. rewrite H0 in HI. done.
  - apply Inv_body in HI. rewrite H0 in HI. done.
  - apply Inv_body in HI. rewrite H0 in HI. done.
  - split; [|done]. eapply Inv_perm; [|exact HI]. apply perm_swap.
  - split; [done|]. unfold finalize in *. repeat case_match; congruence.
Qed.

Definition crashed (it : item) : nat :=
  match it with IWorker (Crashed _) => 1 | _ => 0 end.

(** What holds in every state of every run, shut down or not. *)
Definition sane s : Prop :=
  shape s /\ fj_inv s /\ Z.of_nat (work s) <= 16 * 2 ^ 32 + 7
  /\ Inv (sys_mem s) (units s)
  /\ sum_list_with crashed (items s) = 0%nat.

Lemma sane_pending s : sane s -> Z.of_nat (pending s) <= 2 ^ 32.
Proof. intros (_ & _ & Hw & _). pose proof (pending_work s). lia. Qed.

Lemma step_sane lbl s : sane s -> sane (step lbl s).
Proof.
  intros Hs. pose proof (sane_pending s Hs) as Hb.
  destruct Hs as (Hsh & Hfj & Hw & HI & Hcr).
  pose proof (step_fj_inv lbl s Hsh Hb Hfj) as Hfj'.
  destruct (step_kind lbl s Hsh)
    as (sx & old & new & rest & Hk & Hi & Hi' & Haux & _).
  assert (HI' : Inv (sys_mem s) ((old ++ rest) ≫= unit_of)).
  { eapply Inv_perm; [|exact HI]. unfold units. by rewrite Hi. }
  destruct (kind_inv s lbl sx old new rest Hk HI') as [HIx Hnf].
  split_and!.
  - by apply step_shape.
  - done.
  - pose proof (step_work lbl s Hsh). lia.
  - assert (Hm : sys_mem (step lbl s) = sys_mem sx).
    { unfold aux_of in Haux. by simplify_eq. }
    rewrite Hm. unfold units. eapply Inv_perm; [by rewrite Hi'|]. done.
  - assert (Hdead : sum_list_with dead (new ++ rest) = 0%nat).
    { apply (fj_inv_on_perm _ _ _ Hi') in Hfj'. unfold fj_inv_on in Hfj'.
      destruct (aux_of (step lbl s)) as [[[[[? ?] ?] ?] ?] ?]. tauto. }
    rewrite Hi in Hcr. rewrite Hi'. rewrite sum_list_with_app in *.
    destruct Hk; simpl in *; try lia; try done.
    destruct why; simpl in *; try lia. done.
Qed.

Lemma run_app sched1 sched2 s :
  run (sched1 ++ sched2) s = run sched2 (run sched1 s).
Proof. unfold_run. by rewrite foldl_app. Qed.

Lemma run_sane sched s : sane s -> sane (run sched s).
Proof.
  revert s. induction sched as [|lbl sched IH]; intros s Hs; [done|].
  simpl. apply IH. by apply step_sane.
Qed.

Lemma init_units n root m : units (quicksort_async n root m) = [UJob root].
Proof.
  unfold units. rewrite init_items, bind_cons.
  assert (Hu : (IWorker <$> replicate (pool_size n) (Seeking LoopTop))
               ≫= unit_of = []).
  { induction (pool_size n) as [|k IH]; [done|].
    change (replicate (S k) (Seeking LoopTop))
      with (Seeking LoopTop :: replicate k (@Seeking job cont exn LoopTop)).
    by rewrite fmap_cons, bind_cons, IH. }
  by rewrite Hu.
Qed.

Lemma init_sane n root m :
  Z.of_nat (wcont (start root)) <= 2 ^ 32 -> Inv m [UJob root] ->
  sane (quicksort_async n root m).
Proof.
  intros Hw HI. split_and!.
  - apply init_shape.
  - apply init_fj_inv.
  - rewrite init_work. lia.
  - by rewrite init_units.
  - rewrite init_items. simpl. by rewrite sum_init_workers.
Qed.

(** Once the promise is set, nothing is pending and no unit is left. *)
Lemma pend_units its :
  sum_list_with pend its = 0%nat -> sum_list_with unstarted its = 0%nat ->
  its ≫= unit_of = [].
Proof.
  induction its as [|it its IH]; [done|]. intros H H'. simpl in H, H'.
  rewrite bind_cons, IH by lia.
  destruct it as [[[]|]|[|[| []| | |]|]|]; simpl in *; done || lia.
Qed.

Lemma fj_inv_set s r :
  fj_inv s -> prom (sys_state s) = Some r ->
  pending s = 0%nat /\ h_sets s = [r] /\ h_hits s = 1%nat
  /\ r = expected_result (h_arrivals s) /\ h_raised s ≡ₚ h_arrivals s
  /\ counter (sys_state s) = 0
  /\ sum_list_with unstarted (items s) = 0%nat.
Proof.
  unfold fj_inv, fj_inv_on, aux_of, pending.
  intros (Hc & Hh & Hd & Hph & Hpr & Hptr & Hset & Hr & Hres) Hp.
  rewrite Hp in Hpr. symmetry in Hpr.
  apply last_Some in Hpr as [l' Hl'].
  assert (Hlen : length (h_sets s) = S (length l')).
  { rewrite Hl', length_app. simpl. lia. }
  assert (l' = []) as -> by (destruct l'; [done|simpl in Hlen; lia]).
  change ([] ++ [r]) with [r] in Hl'. simpl in Hlen.
  assert (Hp0 : sum_list_with pend (items s) = 0%nat) by lia.
  split_and!; try done; try lia.
  - apply Hres. rewrite Hl'. by left.
  - rewrite Hr, (pend_catching _ Hp0). by rewrite app_nil_r.
  - rewrite Hc, Hp0. done.
Qed.

Lemma sane_set s r :
  sane s -> prom (sys_state s) = Some r -> Inv (sys_mem s) [].
Proof.
  intros (_ & Hfj & _ & HI & _) Hp.
  destruct (fj_inv_set s r Hfj Hp) as (Hp0 & _ & _ & _ & _ & _ & Hu).
  unfold units in HI. by rewrite (pend_units _ Hp0 Hu) in HI.
Qed.

(** *** Progress while the pool is not shut down *)

Definition unhealthy (it : item) : nat :=
  match it with
  | IWorker (Seeking Exited) => 1
  | IWorker (Crashed _) => 1
  | _ => 0
  end.

(** No worker has left its loop or died, and the pool is running. *)
Definition good s : Prop :=
  sane s /\ sum_list_with unhealthy (items s) = 0%nat
  /\ m_done (sys_pool s) = false.

Definition no_stop (sched : list label) : Prop :=
  Forall (λ lbl, lbl <> Stop) sched.

Lemma step_good lbl s : lbl <> Stop -> good s -> good (step lbl s).
Proof.
  intros Hl (Hs & Hh & Hd). pose proof (step_sane lbl s Hs) as Hs'.
  split; [done|].
  destruct Hs as (Hsh & Hfj & Hw & HI & Hcr).
  destruct (step_kind lbl s Hsh)
    as (sx & old & new & rest & Hk & Hi & Hi' & Haux & _ & _ & Hd').
  split; [|rewrite Hd'; by destruct lbl].
  destruct Hs' as (_ & Hfj' & _ & _ & _).
  assert (Hdead : sum_list_with dead (new ++ rest) = 0%nat).
  { apply (fj_inv_on_perm _ _ _ Hi') in Hfj'. unfold fj_inv_on in Hfj'.
    destruct (aux_of (step lbl s)) as [[[[[? ?] ?] ?] ?] ?]. tauto. }
  assert (Hnf : new <> [IWorker (Crashed BodyFault)]).
  { eapply (kind_inv s lbl sx old new rest); [done|].
    eapply Inv_perm; [|exact HI]. unfold units. by rewrite Hi. }
  rewrite Hi in Hh. rewrite Hi'. rewrite sum_list_with_app in *.
  destruct Hk; simpl in *; try lia; try done.
  - (* a worker looking for work does not leave the loop *)
    destruct sk'; try lia.
    destruct (worker_loop_exited _ _ _ _ _ H0 eq_refl) as [->|?];
      [simpl in Hh; lia|congruence].
  - destruct why; simpl in *; try lia. done.
Qed.

Lemma run_good sched s : no_stop sched -> good s -> good (run sched s).
Proof.
  revert s. induction sched as [|lbl sched IH]; intros s Hn Hs; [done|].
  apply Forall_cons in Hn as [? ?]. simpl. apply IH; [done|].
  by apply step_good.
Qed.

Definition seeking_dist (K : nat) (it : item) : nat :=
  match it with IWorker (Seeking sk) => seek_dist K sk | _ => 0%nat end.

Definition dist s : nat :=
  sum_list_with (seeking_dist (sys_width s)) (items s).

Lemma find_running (ws : list worker) :
  (exists k a, ws !! k = Some (Running a))
  \/ Forall (λ w, forall a, w <> Running a) ws.
Proof.
  induction ws as [|w ws [(k & a & Hk)|IH]].
  - right. constructor.
  - left. by exists (S k), a.
  - destruct w as [sk|a|why].
    + right. by constructor.
    + left. by exists 0%nat, a.
    + right. by constructor.
Qed.

Lemma unstarted_others (ws : list worker) (js : list job) :
  sum_list_with unstarted ((IWorker <$> ws) ++ (IQueued <$> js)) = 0%nat.
Proof.
  rewrite sum_list_with_app.
  assert (sum_list_with unstarted (IWorker <$> ws) = 0%nat) as ->
    by (induction ws; simpl; auto).
  induction js; simpl; auto.
Qed.

Lemma idle_sums (ws : list worker) (js : list job) :
  Forall (λ w, forall a, w <> Running a) ws ->
  sum_list_with unhealthy (IWorker <$> ws) = 0%nat ->
  sum_list_with pend ((IWorker <$> ws) ++ (IQueued <$> js)) = length js /\
  sum_list_with finalizing ((IWorker <$> ws) ++ (IQueued <$> js)) = 0%nat.
Proof.
  intros Hws. rewrite !sum_list_with_app.
  assert (H1 : sum_list_with pend (IQueued <$> js) = length js).
  { induction js; simpl; auto. }
  assert (H2 : sum_list_with finalizing (IQueued <$> js) = 0%nat).
  { induction js; simpl; auto. }
  rewrite H1, H2. clear H1 H2.
  induction Hws as [|w ws Hw Hws IH]; [done|].
  rewrite fmap_cons. cbn [sum_list_with]. intros Hu.
  destruct w as [sk|a|why].
  - destruct IH as [IH1 IH2]; [destruct sk; simpl in Hu; lia|].
    simpl. lia.
  - by destruct (Hw a).
  - simpl in Hu. lia.
Qed.

Lemma progress s :
  good s -> prom (sys_state s) = None ->
  exists lbl, lbl <> Stop /\
    ((work (step lbl s) < work s)%nat \/
     (work (step lbl s) = work s /\ dist (step lbl s) < dist s)%nat).
Proof.
  intros ((Hsh & Hfj & Hw & HI & Hcr) & Hh & Hd) Hp.
  assert (Hstrict : forall lbl,
    (forall sx old new, kind s lbl sx old new ->
       old <> [] /\ forall sk, old <> [IWorker (Seeking sk)]) ->
    (work (step lbl s) < work s)%nat).
  { intros lbl Hnon. destruct (step_kind lbl s Hsh)
      as (sx & old & new & rest & Hk & Hi & Hi' & _).
    destruct (Hnon _ _ _ Hk) as [Hne Hns].
    unfold work. rewrite Hi, Hi', !sum_list_with_app.
    destruct (kind_weight _ _ _ _ _ Hk) as [?|[[-> ->]|(sk & sk' & -> & ->)]];
      [lia|done|by destruct (Hns sk)]. }
  destruct (sys_main s) as [pc j|] eqn:Hm.
  { exists Main. split; [done|]. left. apply Hstrict.
    intros sx old new Hk. inversion Hk; subst; try congruence; done. }
  destruct (find_running (sys_workers s)) as [(k & a & Hk)|Hidle].
  { exists (Worker k). split; [done|]. left. apply Hstrict.
    intros sx old new Hkd.
    inversion Hkd; subst; try congruence; split; done. }
  (* every worker is looking for work: some queue is not empty *)
  assert (Hu : sum_list_with unhealthy (IWorker <$> sys_workers s) = 0%nat).
  { unfold items in Hh. rewrite Hm in Hh. simpl in Hh.
    rewrite sum_list_with_app in Hh. lia. }
  destruct (idle_sums _ (queued (sys_pool s)) Hidle Hu) as [Hpend Hfin].
  assert (Hq : queued (sys_pool s) <> []).
  { unfold fj_inv, fj_inv_on, aux_of in Hfj.
    destruct Hfj as (_ & Hhits & _ & Hph & Hpr & _).
    rewrite Hp in Hpr. symmetry in Hpr. apply last_None in Hpr.
    unfold items in Hhits, Hph. rewrite Hm in Hhits, Hph.
    cbn [sum_list_with pend finalizing unstarted] in Hhits, Hph.
    rewrite Hpend, unstarted_others in Hph. rewrite Hfin, Hpr in Hhits.
    simpl in Hhits. intros Hq. rewrite Hq in Hph. simpl in Hph. lia. }
  destruct (concat_nonempty _ Hq) as (k & t & q & Hk).
  destruct (lookup_lt_is_Some_2 (sys_workers s) k) as [w Hwk].
  { rewrite (sh_workers _ Hsh). unfold sys_width, pool_width.
    eauto using lookup_lt_Some. }
  assert (exists sk, w = Seeking sk /\ sk <> Exited) as (sk & -> & Hsk).
  { pose proof (items_worker _ _ _ Hwk) as Hi. rewrite Hi in Hh.
    simpl in Hh. destruct w as [sk|a|why]; simpl in Hh; try lia.
    - exists sk. split; [done|]. intros ->. simpl in Hh. lia.
    - eapply Forall_forall in Hidle; [|by eapply list_elem_of_lookup_2].
      by destruct (Hidle a). }
  exists (Worker k). split; [done|].
  destruct (step_kind (Worker k) s Hsh)
    as (sx & old & new & rest & Hkd & Hi & Hi' & _ & Hwd & _).
  unfold work, dist. rewrite Hwd, Hi, Hi', !sum_list_with_app.
  inversion Hkd; subst; try congruence.
  - right. simplify_eq. simpl.
    match goal with
    | H : worker_loop _ _ _ = (Next _, _) |- _ =>
        destruct (owner_seek _ _ _ _ _ _ _ Hd Hk Hsk H) as [? _]
    end.
    unfold sys_width. lia.
  - left. simpl. unfold job_weight, body_weight. lia.
Qed.

Lemma completes_aux n : forall d s,
  work s = n -> dist s = d -> good s ->
  exists sched, no_stop sched /\ prom (sys_state (run sched s)) <> None.
Proof.
  induction n as [n IHn] using lt_wf_ind.
  induction d as [d IHd] using lt_wf_ind. intros s Hn Hdist Hg.
  destruct (prom (sys_state s)) as [r|] eqn:Hp.
  { exists []. split; [constructor|]. simpl. by rewrite Hp. }
  destruct (progress s Hg Hp) as (lbl & Hl & Hm).
  pose proof (step_good lbl s Hl Hg) as Hg'.
  assert (exists sched, no_stop sched
            /\ prom (sys_state (run sched (step lbl s))) <> None)
    as (sched & Hns & Hres)
    by (destruct Hm as [Hlt|[Heq Hlt]];
        [eapply (IHn (work (step lbl s))); [lia|done..]
        |eapply (IHd (dist (step lbl s))); [lia|lia|done..]]).
  exists (lbl :: sched). split; [by constructor|done].
Qed.

Lemma good_completes s :
  good s ->
  exists sched, no_stop sched /\ prom (sys_state (run sched s)) <> None.
Proof. intros. by eapply completes_aux. Qed.

Lemma init_good n root m :
  Z.of_nat (wcont (start root)) <= 2 ^ 32 -> Inv m [UJob root] ->
  good (quicksort_async n root m).
Proof.
  intros Hw HI. split; [by apply init_sane|]. split; [|done].
  rewrite init_items. simpl. by rewrite sum_init_workers.
Qed.

(** *** Every exception a body is going to throw gets thrown *)

Context (fails : unit_ -> list exn).
Hypothesis fails_start : forall j, fails (UCont (start j)) ≡ₚ fails (UJob j).
Hypothesis fails_body : forall m c,
  match body_step m c with
  | Continue _ c' => fails (UCont c') ≡ₚ fails (UCont c)
  | Fork _ j c' => fails (UJob j) ++ fails (UCont c') ≡ₚ fails (UCont c)
  | Return => fails (UCont c) = []
  | Raise e => fails (UCont c) = [e]
  | Fault => True
  end.

(** Thrown so far, and still to be thrown. *)
Definition owed s : list exn := h_raised s ++ (units s ≫= fails).

Lemma kind_owed s lbl sx old new rest :
  kind s lbl sx old new ->
  Inv (sys_mem s) ((old ++ rest) ≫= unit_of) ->
  h_raised sx ++ (((new ++ rest) ≫= unit_of) ≫= fails)
  ≡ₚ h_raised s ++ (((old ++ rest) ≫= unit_of) ≫= fails).
Proof.
  intros Hk. rewrite !bind_app.
  destruct Hk; rewrite ?bind_cons, ?bind_nil, ?app_nil_r, ?bind_app,
    ?bind_cons, ?bind_nil, ?app_nil_r;
    cbn [unit_of app h_raised log_raise set_mem set_state log_hit log_set
         log_arrival]; rewrite ?bind_cons, ?bind_nil, ?app_nil_r;
    try done; intros HI.
  all: try (pose proof (fails_body (sys_mem s) c) as Hf; rewrite H0 in Hf).
  - by rewrite fails_start.
  - by rewrite Hf.
  - rewrite <- Hf. by rewrite <- (assoc_L (++)).
  - by rewrite Hf.
  - rewrite Hf. simpl. by rewrite <- (assoc_L (++) (h_raised s) [e]).
  - apply Inv_body in HI. by rewrite H0 in HI.
  - do 2 f_equiv. apply Permutation_app_comm.
Qed.

Lemma step_owed lbl s : sane s -> owed (step lbl s) ≡ₚ owed s.
Proof.
  intros (Hsh & _ & _ & HI & _). destruct (step_kind lbl s Hsh)
    as (sx & old & new & rest & Hk & Hi & Hi' & Haux & _).
  assert (Hr : h_raised (step lbl s) = h_raised sx).
  { unfold aux_of in Haux. by simplify_eq. }
  unfold owed, units. rewrite Hr, Hi', Hi. eapply kind_owed; [done|].
  eapply Inv_perm; [|exact HI]. unfold units. by rewrite Hi.
Qed.

Lemma run_owed sched s : sane s -> owed (run sched s) ≡ₚ owed s.
Proof.
  revert s. induction sched as [|lbl sched IH]; intros s Hs; [done|].
  simpl. rewrite IH by (by apply step_sane). by apply step_owed.
Qed.

End Weight.

End ForkJoinFacts.


(* --------------------------------------------------------------------- *)
(** ** The wrapper, step by step                                          *)
(* --------------------------------------------------------------------- *)

Section Wrapper.
Context {job cont exn mem : Type}.
Context (start : job -> cont) (body_step : mem -> cont -> outcome job cont exn mem).

Abbreviation sys' := (sys job cont exn mem).
Abbreviation step' := (step start body_step).

Implicit Types (s : sys') (k : nat).

Lemma worker_after k w w0 s :
  sys_workers s !! k = Some w0 ->
  sys_workers (set_worker k w s) !! k = Some w.
Proof.
  intros H. unfold set_worker. simpl.
  apply list_lookup_insert_eq. eauto using lookup_lt_Some.
Qed.

Lemma step_raise k c e s :
  sys_workers s !! k = Some (Running (Body c)) ->
  body_step (sys_mem s) c = Raise e ->
  sys_workers (step' (Worker k) s) !! k = Some (Running (Caught e)).
Proof.
  intros Hk Hb. unfold step. rewrite Hk. unfold task_step. rewrite Hb.
  by eapply worker_after.
Qed.

Lemma step_caught k e s :
  sys_workers s !! k = Some (Running (Caught e)) ->
  sys_workers (step' (Worker k) s) !! k = Some (Running Decrement).
Proof.
  intros Hk. unfold step. rewrite Hk. unfold task_step.
  by eapply worker_after.
Qed.

(** [int prev = counter->fetch_sub(1); if (prev == 1) ...]: the worker
    goes on to finalize exactly when it read 1, which is exactly when it
    was the only task left. *)
Lemma step_decrement k s :
  fj_inv s -> Z.of_nat (pending s) <= 2 ^ 32 ->
  sys_workers s !! k = Some (Running Decrement) ->
  let s' := step' (Worker k) s in
  (pending s = 1%nat /\ counter (sys_state s) = 1 /\
   counter (sys_state s') = 0 /\ h_hits s' = S (h_hits s) /\
   sys_workers s' !! k = Some (Running Finalize))
  \/ (pending s <> 1%nat /\ counter (sys_state s) <> 1 /\
      h_hits s' = h_hits s /\
      sys_workers s' !! k = Some (Seeking LoopTop)).
Proof.
  intros Hfj Hb Hk. unfold step. rewrite Hk. unfold task_step.
  change (fetch_sub (sys_state s))
    with (counter (sys_state s), (fetch_sub (sys_state s)).2).
  cbv beta iota zeta.
  assert (Hc : counter (sys_state s) = wrap_int (Z.of_nat (pending s))).
  { unfold fj_inv, fj_inv_on, aux_of in Hfj. tauto. }
  pose proof (wrap_int_one (pending s) Hb) as Hone. rewrite <- Hc in Hone.
  case_decide as H1.
  - left. split_and!; try tauto.
    + simpl. by rewrite H1.
    + by eapply worker_after.
  - right. split_and!; try tauto. by eapply worker_after.
Qed.

Lemma step_finalize k s :
  sys_workers s !! k = Some (Running Finalize) ->
  let s' := step' (Worker k) s in
  (exists r, finalize (sys_state s) = inl r /\
     prom (sys_state s') = Some r /\ h_sets s' = h_sets s ++ [r] /\
     sys_workers s' !! k = Some (Seeking LoopTop))
  \/ (exists why, sys_workers s' !! k = Some (Crashed why)).
Proof.
  intros Hk. unfold step. rewrite Hk. unfold task_step.
  destruct (finalize (sys_state s)) as [r|why] eqn:Hf.
  - left. exists r. split_and!; try done. by eapply worker_after.
  - right. exists why. by eapply worker_after.
Qed.

Lemma fj_inv_hits s :
  fj_inv s -> (length (h_sets s) <= h_hits s <= 1)%nat.
Proof. unfold fj_inv, fj_inv_on, aux_of. lia. Qed.

Lemma fj_inv_hit s :
  fj_inv s -> h_hits s = 1%nat -> pending s = 0%nat /\ counter (sys_state s) = 0.
Proof.
  unfold fj_inv, fj_inv_on, aux_of, pending.
  intros (Hc & _ & _ & Hph & _) Hh.
  assert (H0 : sum_list_with pend (items s) = 0%nat) by lia.
  by rewrite Hc, H0.
Qed.

Lemma fj_inv_slot s :
  fj_inv s ->
  prom (sys_state s) = last (h_sets s) /\
  except_ptr (sys_state s) = head (h_arrivals s) /\
  (except_set (sys_state s) = true <-> h_arrivals s <> []).
Proof.
  unfold fj_inv, fj_inv_on, aux_of.
  intros (_ & _ & _ & _ & Hp & Hptr & Hset & _). split_and!; try done.
  rewrite Hset. apply bool_decide_eq_true.
Qed.

Lemma no_crashed_worker s k w :
  sum_list_with crashed (items s) = 0%nat ->
  sys_workers s !! k = Some w -> forall why, w <> Crashed why.
Proof.
  intros Hc Hk why ->. rewrite (items_worker _ _ _ Hk) in Hc.
  simpl in Hc. lia.
Qed.

End Wrapper.

(* --------------------------------------------------------------------- *)
(** ** Fork-join task trees                                               *)
(* --------------------------------------------------------------------- *)

Section TaskTrees.
Context {E : Type}.
Implicit Types (t root : jtree E) (l : list (jtree E)) (s : jt_sys E)
  (c : list (jtree E) * option E) (f : option E).

Fixpoint jt_weight t : nat :=
  match t with
  | JNode l _ =>
      S ((fix go (l : list (jtree E)) : nat :=
            match l with
            | [] => O
            | t' :: l' => (S (jt_weight t') + go l')%nat
            end) l)
  end.

Definition jt_wcont (c : list (jtree E) * option E) : nat :=
  S (sum_list_with (λ t, S (jt_weight t)) c.1).

Definition jt_fails (u : @unit_ (jtree E) (list (jtree E) * option E))
  : list E :=
  match u with
  | UJob t => jt_failures t
  | UCont c => (c.1 ≫= jt_failures) ++ option_list c.2
  end.

Lemma jtree_induction (P : jtree E -> Prop) :
  (forall l f, Forall P l -> P (JNode l f)) -> forall t, P t.
Proof.
  intros H. fix IH 1. intros [l f]. apply H.
  induction l as [|t l IHl]; constructor; [apply IH|apply IHl].
Qed.

Lemma jt_weight_unfold l f :
  jt_weight (JNode l f) = S (sum_list_with (λ t, S (jt_weight t)) l).
Proof. reflexivity. Qed.

Lemma jt_size_unfold l f :
  jt_size (JNode l f) = S (sum_list_with jt_size l).
Proof. reflexivity. Qed.

Lemma jt_failures_unfold l f :
  jt_failures (JNode l f) = (l ≫= jt_failures) ++ option_list f.
Proof.
  simpl. f_equal.
Qed.

Lemma jt_weight_size t : (jt_weight t + 1 = 2 * jt_size t)%nat.
Proof.
  induction t as [l f IH] using jtree_induction.
  rewrite jt_weight_unfold, jt_size_unfold.
  assert (sum_list_with (λ t, S (jt_weight t)) l
          = 2 * sum_list_with jt_size l)%nat; [|lia].
  induction IH as [|t l Ht _ IHl]; simpl; lia.
Qed.

Lemma jt_wcont_start t : jt_wcont (jt_start t) = jt_weight t.
Proof. destruct t as [l f]. by rewrite jt_weight_unfold. Qed.

Definition jt_Inv (m : unit)
    (us : list (@unit_ (jtree E) (list (jtree E) * option E))) : Prop := True.

Lemma jt_wcont_pos c : (1 <= jt_wcont c)%nat.
Proof. unfold jt_wcont. lia. Qed.

Lemma jt_wcont_continue (m : unit) c m' c' :
  jt_body m c = Continue m' c' -> (jt_wcont c' < jt_wcont c)%nat.
Proof. destruct c as [[|t l] [e|]]; done. Qed.

Lemma jt_wcont_fork (m : unit) c m' t c' :
  jt_body m c = Fork m' t c' ->
  (jt_wcont (jt_start t) + jt_wcont c' < jt_wcont c)%nat.
Proof.
  destruct c as [[|t0 l] [e|]]; intros H; simpl in H; simplify_eq;
    rewrite jt_wcont_start; unfold jt_wcont; cbn [fst sum_list_with]; lia.
Qed.

Lemma jt_Inv_body (m : unit) c us :
  jt_Inv m (UCont c :: us) ->
  match jt_body m c with
  | Continue m' c' => jt_Inv m' (UCont c' :: us)
  | Fork m' j c' => jt_Inv m' (UJob j :: UCont c' :: us)
  | Return | Raise _ => jt_Inv m us
  | Fault => False
  end.
Proof. destruct c as [[|t l] [e|]]; done. Qed.

Lemma jt_fails_start t : jt_fails (UCont (jt_start t)) ≡ₚ jt_fails (UJob t).
Proof.
  destruct t as [l f]. unfold jt_fails. by rewrite jt_failures_unfold.
Qed.

Lemma jt_fails_body (m : unit) c :
  match jt_body m c with
  | Continue _ c' => jt_fails (UCont c') ≡ₚ jt_fails (UCont c)
  | Fork _ j c' => jt_fails (UJob j) ++ jt_fails (UCont c') ≡ₚ jt_fails (UCont c)
  | Return => jt_fails (UCont c) = []
  | Raise e => jt_fails (UCont c) = [e]
  | Fault => True
  end.
Proof.
  destruct c as [[|t l] [e|]]; unfold jt_body, jt_fails; try done;
    cbn [fst snd]; by rewrite bind_cons, (assoc_L (++)).
Qed.

Definition jt_sane s : Prop := sane jt_start jt_wcont jt_Inv s.
Definition jt_good s : Prop := good jt_start jt_wcont jt_Inv s.

Lemma jt_bound root :
  Z.of_nat (jt_size root) <= 2 ^ 31 ->
  Z.of_nat (jt_wcont (jt_start root)) <= 2 ^ 32.
Proof. rewrite jt_wcont_start. pose proof (jt_weight_size root). lia. Qed.

Lemma jt_Inv_perm (m : unit) us us' : us ≡ₚ us' -> jt_Inv m us -> jt_Inv m us'.
Proof. done. Qed.

Lemma jt_Inv_start (m : unit) t us :
  jt_Inv m (UJob t :: us) -> jt_Inv m (UCont (jt_start t) :: us).
Proof. done. Qed.

Lemma jt_step_sane lbl s : jt_sane s -> jt_sane (step jt_start jt_body lbl s).
Proof.
  apply (step_sane jt_start jt_body jt_wcont jt_wcont_pos jt_wcont_continue
           jt_wcont_fork jt_Inv jt_Inv_perm jt_Inv_start jt_Inv_body).
Qed.

Lemma jt_sane_pending s : jt_sane s -> Z.of_nat (pending s) <= 2 ^ 32.
Proof. apply (sane_pending jt_start jt_wcont jt_wcont_pos jt_Inv). Qed.

Lemma jt_run_sane' sched s : jt_sane s -> jt_sane (jt_run sched s).
Proof.
  apply (run_sane jt_start jt_body jt_wcont jt_wcont_pos jt_wcont_continue
           jt_wcont_fork jt_Inv jt_Inv_perm jt_Inv_start jt_Inv_body).
Qed.

Lemma jt_run_sane n root sched :
  Z.of_nat (jt_size root) <= 2 ^ 31 ->
  jt_sane (jt_run sched (jt_async n root)).
Proof.
  intros Hb. apply jt_run_sane', init_sane; [by apply jt_bound|done].
Qed.

Lemma jt_run_good n root sched :
  Z.of_nat (jt_size root) <= 2 ^ 31 -> no_stop sched ->
  jt_good (jt_run sched (jt_async n root)).
Proof.
  intros Hb Hns.
  apply (run_good jt_start jt_body jt_wcont jt_wcont_pos jt_wcont_continue
           jt_wcont_fork jt_Inv jt_Inv_perm jt_Inv_start jt_Inv_body);
    [done|].
  apply init_good; [by apply jt_bound|done].
Qed.

Lemma jt_completes s :
  jt_good s ->
  exists rest, no_stop rest /\ prom (sys_state (jt_run rest s)) <> None.
Proof.
  apply (good_completes jt_start jt_body jt_wcont jt_wcont_pos
           jt_wcont_continue jt_wcont_fork jt_Inv jt_Inv_perm jt_Inv_start
           jt_Inv_body).
Qed.

Lemma jt_run_owed n root sched :
  Z.of_nat (jt_size root) <= 2 ^ 31 ->
  owed jt_fails (jt_run sched (jt_async n root)) ≡ₚ jt_failures root.
Proof.
  intros Hb. unfold jt_run, jt_async.
  rewrite (run_owed jt_start jt_body jt_wcont jt_wcont_pos jt_wcont_continue
             jt_wcont_fork jt_Inv jt_Inv_perm jt_Inv_start jt_Inv_body
             jt_fails jt_fails_start jt_fails_body)
    by (apply init_sane; [by apply jt_bound|done]).
  unfold owed. rewrite init_units. simpl. by rewrite app_nil_r.
Qed.

(** C1.  For every fork-join task tree and every interleaving, the
    completion signal (a call of [set_value] or [set_exception] on the
    promise of the QuicksortState) is fired at most once, and only by a
    worker whose [fetch_sub] returned 1: the number of signals never exceeds
    the number of decrements that read 1, which never exceeds one; when a
    decrement has read 1 the counter is at zero and no task is left; a
    worker at its decrement goes on to finalize exactly when it reads 1,
    which is exactly when it is the last unfinished task; and as long as
    the pool is not shut down the run can always be continued to a state in
    which the signal has been fired exactly once. *)
Theorem completion_fires_exactly_once (n : nat) root (sched : list label) :
  Z.of_nat (jt_size root) <= 2 ^ 31 ->
  let s := jt_run sched (jt_async n root) in
  (length (h_sets s) <= h_hits s <= 1)%nat /\
  prom (sys_state s) = last (h_sets s) /\
  (h_hits s = 1%nat -> counter (sys_state s) = 0 /\ pending s = 0%nat) /\
  (forall k, sys_workers s !! k = Some (Running Decrement) ->
     let s' := step jt_start jt_body (Worker k) s in
     (pending s = 1%nat /\ counter (sys_state s) = 1 /\
      counter (sys_state s') = 0 /\ h_hits s' = S (h_hits s) /\
      sys_workers s' !! k = Some (Running Finalize))
     \/ (pending s <> 1%nat /\ counter (sys_state s) <> 1 /\
         h_hits s' = h_hits s /\
         sys_workers s' !! k = Some (Seeking LoopTop))) /\
  (no_stop sched ->
   exists rest, no_stop rest /\
     let s' := jt_run rest s in
     is_Some (prom (sys_state s')) /\ length (h_sets s') = 1%nat
     /\ h_hits s' = 1%nat).
Proof.
  intros Hb s.
  pose proof (jt_run_sane n root sched Hb) as Hs. fold s in Hs.
  pose proof (jt_sane_pending _ Hs) as Hp.
  destruct Hs as (Hsh & Hfj & Hrest).
  split_and!.
  - by apply fj_inv_hits.
  - by apply fj_inv_hits.
  - by apply fj_inv_slot.
  - intros Hh. destruct (fj_inv_hit s Hfj Hh). done.
  - intros k Hk. by apply step_decrement.
  - intros Hns. pose proof (jt_run_good n root sched Hb Hns) as Hg.
    destruct (jt_completes _ Hg) as (rest & Hnr & Hprom).
    exists rest. split; [done|]. fold s in Hprom.
    destruct (prom (sys_state (jt_run rest s))) as [r|] eqn:Hr; [|done].
    assert (Hs' : jt_sane (jt_run rest s)) by (apply jt_run_sane', Hg).
    destruct Hs' as (_ & Hfj' & _).
    destruct (fj_inv_set _ r Hfj' Hr) as (_ & Hsets & Hhits & _).
    split_and!; [by eexists|by rewrite Hsets|done].
Qed.

(** C2.  For every fork-join task tree: once the promise is set, every job
    of the tree has run, the exceptions caught at the wrapper are exactly
    the exceptions the bodies of the tree throw, the counter is at zero,
    and the future delivers [Value] if no body throws and otherwise the
    exception that entered the locked [catch] block first.  At every moment
    the error slot holds the first exception that arrived, so a later
    failure never overwrites it.  As long as the pool is not shut down the
    run can always be continued until the promise is set. *)
Theorem first_error_wins (n : nat) root (sched : list label) :
  Z.of_nat (jt_size root) <= 2 ^ 31 ->
  let s := jt_run sched (jt_async n root) in
  except_ptr (sys_state s) = head (h_arrivals s) /\
  (except_set (sys_state s) = true <-> h_arrivals s <> []) /\
  (forall r, prom (sys_state s) = Some r ->
     h_arrivals s ≡ₚ jt_failures root /\
     counter (sys_state s) = 0 /\ pending s = 0%nat /\
     (jt_failures root = [] -> r = Value) /\
     (jt_failures root <> [] ->
      exists e, r = Exception e /\ head (h_arrivals s) = Some e
                /\ e ∈ jt_failures root)) /\
  (no_stop sched ->
   exists rest, no_stop rest /\ is_Some (prom (sys_state (jt_run rest s)))).
Proof.
  intros Hb s.
  pose proof (jt_run_sane n root sched Hb) as Hs. fold s in Hs.
  pose proof Hs as (Hsh & Hfj & _ & _ & _).
  destruct (fj_inv_slot s Hfj) as (_ & Hptr & Hset).
  split_and!; try done.
  - intros r Hr.
    destruct (fj_inv_set _ r Hfj Hr)
      as (Hp0 & Hsets & Hhits & Hres & Hraised & Hc & Hu).
    pose proof (jt_run_owed n root sched Hb) as Howed. fold s in Howed.
    unfold owed, units in Howed.
    rewrite (pend_units _ Hp0 Hu) in Howed. simpl in Howed.
    rewrite app_nil_r, Hraised in Howed.
    split_and!; try done.
    + intros Hnil. rewrite Hnil in Howed.
      apply Permutation_nil_r in Howed. by rewrite Hres, Howed.
    + intros Hne. destruct (h_arrivals s) as [|e l] eqn:Harr.
      { apply Permutation_nil_l in Howed. congruence. }
      exists e. split_and!; try done. rewrite <- Howed. by left.
  - intros Hns. pose proof (jt_run_good n root sched Hb Hns) as Hg.
    destruct (jt_completes _ Hg) as (rest & Hnr & Hprom).
    exists rest. split; [done|]. fold s in Hprom.
    by destruct (prom (sys_state (jt_run rest s))).
Qed.

(** C8.  A task submitted through [spawn_task_in_pool] never lets an error
    out of its wrapper: in every reachable state of every fork-join task
    tree no worker has died; a body that throws takes its worker into the
    [catch] block; and from there the worker is back at the top of its
    scheduling loop after at most three more of its own steps, whatever the
    other threads do in between being irrelevant to that. *)
Theorem wrapper_never_propagates (n : nat) root (sched : list label) :
  Z.of_nat (jt_size root) <= 2 ^ 31 ->
  let s := jt_run sched (jt_async n root) in
  (forall k w, sys_workers s !! k = Some w -> forall why, w <> Crashed why) /\
  (forall k c e,
     sys_workers s !! k = Some (Running (Body c)) ->
     jt_body (sys_mem s) c = Raise e ->
     sys_workers (step jt_start jt_body (Worker k) s) !! k
       = Some (Running (Caught e))) /\
  (forall k e,
     sys_workers s !! k = Some (Running (Caught e)) ->
     exists i, (i <= 3)%nat /\
       sys_workers (jt_run (replicate i (Worker k)) s) !! k
         = Some (Seeking LoopTop)).
Proof.
  intros Hb s.
  pose proof (jt_run_sane n root sched Hb) as Hs. fold s in Hs.
  split_and!.
  - intros k w Hk. destruct Hs as (_ & _ & _ & _ & Hcr).
    by eapply no_crashed_worker.
  - intros k c e Hk Hbody. by eapply step_raise.
  - intros k e Hk.
    pose proof (step_caught jt_start jt_body k e s Hk) as H1.
    pose proof (jt_step_sane (Worker k) s Hs) as Hs1.
    set (s1 := step jt_start jt_body (Worker k) s) in *.
    pose proof (jt_sane_pending _ Hs1) as Hp1.
    pose proof Hs1 as (_ & Hfj1 & _).
    destruct (step_decrement jt_start jt_body k s1 Hfj1 Hp1 H1)
      as [(_ & _ & _ & _ & H2)|(_ & _ & _ & H2)].
    + pose proof (jt_step_sane (Worker k) s1 Hs1) as Hs2.
      set (s2 := step jt_start jt_body (Worker k) s1) in *.
      destruct (step_finalize jt_start jt_body k s2 H2)
        as [(r & _ & _ & _ & H3)|(why & H3)].
      * exists 3%nat. split; [lia|]. exact H3.
      * pose proof (jt_step_sane (Worker k) s2 Hs2) as (_ & _ & _ & _ & Hcr).
        by destruct (no_crashed_worker _ _ _ Hcr H3 why).
    + exists 2%nat. split; [lia|]. exact H2.
Qed.

End TaskTrees.

(** A small tree and a schedule, to exercise the theorems above:
    the root spawns a job that throws 1 and a job that spawns a job. *)
Definition demo_tree : jtree Z :=
  JNode [JNode [] (Some 1); JNode [JNode [] None] None] None.

Definition demo_schedule : list label :=
  [Main; Main; Worker 0; Main; Worker 1; Worker 0; Worker 0].

Lemma completion_fires_exactly_once_witness :
  Z.of_nat (jt_size demo_tree) <= 2 ^ 31 /\
  (length (h_sets (jt_run demo_schedule (jt_async 2 demo_tree)))
   <= h_hits (jt_run demo_schedule (jt_async 2 demo_tree)) <= 1)%nat.
Proof.
  split.
  - vm_compute. discriminate.
  - apply (completion_fires_exactly_once 2 demo_tree demo_schedule).
    vm_compute. discriminate.
Defined.

Lemma first_error_wins_witness :
  Z.of_nat (jt_size demo_tree) <= 2 ^ 31 /\
  except_ptr (sys_state (jt_run demo_schedule (jt_async 2 demo_tree)))
  = head (h_arrivals (jt_run demo_schedule (jt_async 2 demo_tree))).
Proof.
  split.
  - vm_compute. discriminate.
  - apply (first_error_wins 2 demo_tree demo_schedule).
    vm_compute. discriminate.
Defined.

Lemma wrapper_never_propagates_witness :
  Z.of_nat (jt_size demo_tree) <= 2 ^ 31 /\
  forall k w,
    sys_workers (jt_run demo_schedule (jt_async 2 demo_tree)) !! k = Some w ->
    forall why, w <> Crashed why.
Proof.
  split.
  - vm_compute. discriminate.
  - apply (wrapper_never_propagates 2 demo_tree demo_schedule).
    vm_compute. discriminate.
Defined.


(* --------------------------------------------------------------------- *)
(** ** Quicksort: what one activation of [quicksort_job] preserves        *)
(* --------------------------------------------------------------------- *)

Lemma all_equal_sorted (p : Z) (l : list Z) :
  (forall x, x ∈ l -> x = p) -> StronglySorted Z.le l.
Proof.
  induction l as [|y l IH]; intros H; constructor.
  - apply IH. intros x Hx. apply H. by right.
  - apply Forall_forall. intros x Hx.
    rewrite (H y) by (by left). rewrite (H x) by (by right). done.
Qed.

(** A sorted list that is a permutation of [A ++ M ++ B], where [A] is
    below a pivot, [M] consists of the pivot and [B] is above it, splits at
    the same places into a sorted [A], [M] itself and a sorted [B]. *)
Lemma sorted_three_way (p : Z) (A M B TA TM TB : list Z) :
  Sorted Z.le (TA ++ TM ++ TB) ->
  TA ++ TM ++ TB ≡ₚ A ++ M ++ B ->
  length TA = length A -> length TM = length M ->
  (forall x, x ∈ A -> x <= p) -> (forall x, x ∈ M -> x = p) ->
  (forall x, x ∈ B -> p <= x) ->
  TA ≡ₚ A /\ TM = M /\ TB ≡ₚ B.
Proof.
  intros HS HP HlA HlM HA HM HB.
  assert (Heq : TA ++ TM ++ TB = sort_list A ++ M ++ sort_list B).
  { apply (Sorted_unique Z.le); [done| |by rewrite !sort_list_perm].
    apply StronglySorted_Sorted, StronglySorted_app_2; [| |].
    - intros x1 x2 H1 H2. rewrite sort_list_perm in H1.
      apply HA in H1. apply elem_of_app in H2 as [H2|H2].
      + apply HM in H2. lia.
      + rewrite sort_list_perm in H2. apply HB in H2. lia.
    - apply Sorted_StronglySorted; [apply _|apply sort_list_sorted].
    - apply StronglySorted_app_2.
      + intros x1 x2 H1 H2. apply HM in H1. rewrite sort_list_perm in H2.
        apply HB in H2. lia.
      + by apply (all_equal_sorted p).
      + apply Sorted_StronglySorted; [apply _|apply sort_list_sorted]. }
  apply app_inj_1 in Heq as [-> Heq];
    [|by rewrite (Permutation_length (sort_list_perm A))].
  apply app_inj_1 in Heq as [-> ->]; [|done].
  split_and!; [apply sort_list_perm|done|apply sort_list_perm].
Qed.

(** How many of the ranges contain the index [x]. *)
Global Instance in_range_dec rg x : Decision (in_range rg x).
Proof. unfold in_range. apply _. Defined.

Definition covers (x : Z) (rg : range) : nat :=
  if decide (in_range rg x) then 1%nat else 0%nat.

Definition covering (x : Z) (rs : list range) : nat :=
  sum_list_with (covers x) rs.

Global Instance covering_perm x : Proper ((≡ₚ) ==> (=)) (covering x).
Proof. intros rs rs' H. unfold covering. by rewrite H. Qed.

Lemma covering_cons x rg rs :
  covering x (rg :: rs) = (covers x rg + covering x rs)%nat.
Proof. reflexivity. Qed.

(** A range whose access cannot fail: it lies inside the array and the sum
    of two of its indices fits a [long]. *)
Definition range_ok (len : nat) (rg : range) : Prop :=
  0 <= rg.1 /\ rg.2 < Z.of_nat len /\ 2 * rg.2 <= LONG_MAX.

(** The invariant of the parallel sort, relative to the array [T] the sort
    is heading for: the ranges that still have to be sorted do not overlap,
    each holds the elements that [T] has at those indices, and every index
    outside them already holds its final element. *)
Record qs_inv (T : list Z) (a : list Z) (rs : list range) : Prop := {
  qi_length  : length a = length T;
  qi_cover   : forall x, (covering x rs <= 1)%nat;
  qi_ok      : Forall (range_ok (length T)) rs;
  qi_slices  : Forall (λ rg, slice a rg ≡ₚ slice T rg
                             /\ Sorted Z.le (slice T rg)) rs;
  qi_settled : forall x, covering x rs = 0%nat -> get a x = get T x;
}.

Lemma qs_inv_perm T a rs rs' : rs ≡ₚ rs' -> qs_inv T a rs -> qs_inv T a rs'.
Proof.
  intros Hp [H1 H2 H3 H4 H5]. constructor; try done.
  - intros x. by rewrite <- Hp.
  - by rewrite <- Hp.
  - by rewrite <- Hp.
  - intros x. rewrite <- Hp. auto.
Qed.

Lemma covers_in x rg : in_range rg x -> covers x rg = 1%nat.
Proof. intros. unfold covers. by rewrite decide_True. Qed.

Lemma covers_out x rg : ~ in_range rg x -> covers x rg = 0%nat.
Proof. intros. unfold covers. by rewrite decide_False. Qed.

Lemma covering_disjoint x rg rs :
  (covers x rg + covering x rs <= 1)%nat -> in_range rg x ->
  Forall (λ rg', ~ in_range rg' x) rs.
Proof.
  intros H Hin. rewrite covers_in in H by done.
  induction rs as [|rg' rs IH]; constructor.
  - intros Hin'. rewrite covering_cons in H.
    rewrite (covers_in x rg') in H by done. lia.
  - apply IH. rewrite covering_cons in H. lia.
Qed.

Lemma get_slice a lo hi i :
  0 <= lo -> lo <= i <= hi -> slice a (lo, hi) !! Z.to_nat (i - lo) = get a i.
Proof.
  intros. rewrite slice_lookup by done. rewrite decide_True by lia.
  f_equal. lia.
Qed.

Lemma slice_eq_get a b lo hi i :
  0 <= lo -> lo <= i <= hi -> slice a (lo, hi) = slice b (lo, hi) ->
  get a i = get b i.
Proof.
  intros Hlo Hi Heq. rewrite <- (get_slice a lo hi), <- (get_slice b lo hi)
    by done. by rewrite Heq.
Qed.

(** The frame part of a step on the range [rg]: the other ranges and the
    settled indices outside [rg] are not disturbed. *)
Lemma qs_inv_frame T a a' lo hi rs :
  qs_inv T a ((lo, hi) :: rs) ->
  length a' = length a -> same_outside a a' lo hi ->
  length a' = length T /\
  Forall (range_ok (length T)) rs /\
  Forall (λ rg, slice a' rg ≡ₚ slice T rg /\ Sorted Z.le (slice T rg)) rs /\
  (forall x, ~ in_range (lo, hi) x -> covering x rs = 0%nat ->
             get a' x = get T x).
Proof.
  intros [H1 H2 H3 H4 H5] Hlen Hout.
  apply Forall_cons in H3 as [Hok H3]. apply Forall_cons in H4 as [_ H4].
  split_and!; try done.
  - congruence.
  - apply Forall_forall. intros [lo' hi'] Hin.
    pose proof (proj1 (Forall_forall _ _) H4 _ Hin) as [Hs1 Hs2].
    pose proof (proj1 (Forall_forall _ _) H3 _ Hin) as (Hlo' & _).
    split; [|done]. rewrite <- Hs1. simpl in Hlo'.
    rewrite (same_outside_slice a a' lo hi lo' hi'); [done..|].
    intros x [Hx Hx']. specialize (H2 x). rewrite covering_cons in H2.
    rewrite covers_in in H2 by done.
    assert (covers x (lo', hi') <= covering x rs)%nat
      by (by apply sum_list_with_in).
    rewrite (covers_in x (lo', hi')) in * by done. lia.
  - intros x Hx Hc. rewrite Hout by done. apply H5.
    rewrite covering_cons, covers_out by done. lia.
Qed.

(** A range whose elements are all in their final places can be dropped. *)
Lemma qs_inv_settle T a a' lo hi rs :
  qs_inv T a ((lo, hi) :: rs) ->
  length a' = length a -> same_outside a a' lo hi ->
  slice a' (lo, hi) = slice T (lo, hi) ->
  qs_inv T a' rs.
Proof.
  intros Hinv Hlen Hout Hsl.
  destruct (qs_inv_frame T a a' lo hi rs Hinv Hlen Hout)
    as (Hl & Hok & Hslices & Hset).
  destruct Hinv as [H1 H2 H3 H4 H5].
  apply Forall_cons in H3 as [(Hlo & _) _]. simpl in Hlo.
  constructor; try done.
  - intros x. specialize (H2 x). rewrite covering_cons in H2. lia.
  - intros x Hc. destruct (decide (in_range (lo, hi) x)) as [Hin|Hin].
    + by apply (slice_eq_get a' T lo hi).
    + by apply Hset.
Qed.

Lemma short_perm_eq (l l' : list Z) :
  l ≡ₚ l' -> (length l <= 1)%nat -> l = l'.
Proof.
  intros Hp Hl. destruct l as [|x [|??]]; simpl in Hl; try lia.
  - by apply Permutation_nil_l in Hp.
  - by apply Permutation_singleton_l in Hp.
Qed.

(** [if (left >= right) return;] *)
Lemma qs_inv_trivial T a lo hi rs :
  lo >= hi -> qs_inv T a ((lo, hi) :: rs) -> qs_inv T a rs.
Proof.
  intros Hge Hinv. apply (qs_inv_settle T a a lo hi rs); try done.
  destruct Hinv as [H1 H2 H3 H4 H5].
  apply Forall_cons in H4 as [[Hp _] _]. apply short_perm_eq; [done|].
  unfold slice. rewrite length_take. simpl. lia.
Qed.

(** [std::sort(array + left, array + right + 1);] *)
Lemma qs_inv_small T a lo hi rs :
  lo <= hi + 1 -> qs_inv T a ((lo, hi) :: rs) ->
  exists a', std_sort a lo (hi + 1) = Some a' /\ qs_inv T a' rs.
Proof.
  intros Hle Hinv. pose proof Hinv as [H1 H2 H3 H4 H5].
  apply Forall_cons in H3 as [(Hlo & Hhi & _) _]. simpl in Hlo, Hhi.
  apply Forall_cons in H4 as [[Hp Hs] _].
  destruct (std_sort_spec a lo hi) as (a' & Ha' & Hlen & _ & Hout & Hsl);
    [lia..|].
  exists a'. split; [done|].
  apply (qs_inv_settle T a a' lo hi rs); try done.
  rewrite Hsl. symmetry. apply std_sort_unique; [done|by symmetry].
Qed.

Lemma covers_split x lo hi l r :
  r < l -> lo <= l -> r <= hi ->
  (covers x (lo, r) + covers x (l, hi) <= covers x (lo, hi))%nat.
Proof.
  intros. unfold covers, in_range. simpl. repeat case_decide; lia.
Qed.

(** The partition loop, followed by the two recursive calls still to be
    made. *)
Lemma qs_inv_partition T a a' p lo hi l r rs :
  partitioned a lo hi a' p l r ->
  qs_inv T a ((lo, hi) :: rs) ->
  qs_inv T a' ((lo, r) :: (l, hi) :: rs).
Proof.
  intros [Hpiv Hlen Hperm Hout Hcross Hl Hr Hle Hge] Hinv.
  destruct (qs_inv_frame T a a' lo hi rs Hinv Hlen Hout)
    as (HlT & Hok & Hslices & Hset).
  destruct Hinv as [H1 H2 H3 H4 H5].
  apply Forall_cons in H3 as [(Hlo & Hhi & Hmax) _]. simpl in Hlo, Hhi, Hmax.
  apply Forall_cons in H4 as [[Hp Hs] _].
  (* the three parts of the range, in the new array and in the target *)
  assert (Hsplit : forall b, slice b (lo, hi)
            = slice b (lo, r) ++ slice b (r + 1, l - 1) ++ slice b (l, hi)).
  { intros b. rewrite (slice_split b lo r hi) by lia. f_equal.
    rewrite (slice_split b (r + 1) (l - 1) hi) by lia.
    do 3 f_equal. lia. }
  assert (Hp' : slice T (lo, hi) ≡ₚ slice a' (lo, hi)).
  { rewrite <- Hp. symmetry. apply slice_perm_frame; [done|done|lia..]. }
  rewrite (Hsplit T) in Hs. rewrite (Hsplit T), (Hsplit a') in Hp'.
  destruct (sorted_three_way p _ _ _ _ _ _ Hs Hp') as (HA & HM & HB).
  { rewrite !slice_length; (lia || congruence). }
  { rewrite !slice_length; (lia || congruence). }
  { intros x (i & Hi & Hx)%slice_elem_of; [|lia].
    eapply Hle; [|done]. lia. }
  { intros x (i & Hi & Hx)%slice_elem_of; [|lia].
    assert (x <= p) by (eapply Hle; [|done]; lia).
    assert (p <= x) by (eapply Hge; [|done]; lia). lia. }
  { intros x (i & Hi & Hx)%slice_elem_of; [|lia].
    eapply Hge; [|done]. lia. }
  apply Sorted_StronglySorted in Hs; [|apply _].
  apply StronglySorted_app in Hs as (_ & HsA & Hs).
  apply StronglySorted_app in Hs as (_ & _ & HsB).
  constructor.
  - done.
  - intros x. specialize (H2 x). rewrite !covering_cons in *.
    pose proof (covers_split x lo hi l r). lia.
  - repeat constructor; simpl; try lia; done.
  - constructor; [|constructor; [|done]].
    + split; [by symmetry|by apply StronglySorted_Sorted].
    + split; [by symmetry|by apply StronglySorted_Sorted].
  - intros x. rewrite !covering_cons. intros Hc.
    destruct (decide (in_range (lo, hi) x)) as [Hin|Hin].
    + unfold covers, in_range in *. simpl in *.
      repeat case_decide; try lia.
      symmetry. apply (slice_eq_get T a' (r + 1) (l - 1)); [lia|lia|done].
    + apply Hset; [done|lia].
Qed.

(** One activation of [quicksort_job] on a pending range cannot fail, and
    leaves the invariant in place for the ranges it hands on. *)
Lemma qs_activation T threshold a lo hi rs :
  qs_inv T a ((lo, hi) :: rs) ->
  exists act, quicksort_job threshold a lo hi = Some act /\
    qs_inv T (act_array act)
             (option_list (act_spawn act) ++ act_inline act ++ rs).
Proof.
  intros Hinv. unfold quicksort_job.
  case_decide as Hge.
  { eexists. split; [done|]. simpl. by eapply qs_inv_trivial. }
  case_decide as Hsmall.
  { destruct (qs_inv_small T a lo hi rs) as (a' & Ha' & Hinv');
      [lia|done|].
    rewrite Ha'. eexists. split; [done|]. done. }
  pose proof Hinv as [H1 H2 H3 H4 H5].
  apply Forall_cons in H3 as [(Hlo & Hhi & Hmax) _]. simpl in Hlo, Hhi, Hmax.
  destruct (partition_range_total a lo hi) as [[[a' l] r] Hpart];
    [lia|lia|lia|unfold LONG_MAX in *; lia|].
  rewrite Hpart. cbn [mbind option_bind].
  destruct (partition_range_some a lo hi a' l r) as (p & _ & Hpd);
    [lia|done|].
  pose proof (qs_inv_partition T a a' p lo hi l r rs Hpd Hinv) as Hinv'.
  destruct (bool_decide (r - lo > threshold));
    destruct (bool_decide (hi - l > threshold)); simpl;
    eexists; (split; [done|]); simpl; try done.
  eapply qs_inv_perm; [|exact Hinv']. apply perm_swap.
Qed.

(** The sub-ranges an activation hands on lie inside its own range. *)
Definition within (lo hi : Z) (rg : range) : Prop := lo <= rg.1 /\ rg.2 <= hi.

Definition handed_on (act : activation) : list range :=
  option_list (act_spawn act) ++ act_inline act.

Lemma quicksort_job_cases threshold a lo hi act :
  quicksort_job threshold a lo hi = Some act ->
  (handed_on act = [] /\ (hi - lo <= tiny) /\
   (lo >= hi -> act_array act = a))
  \/ (exists p l r, hi - lo > tiny /\
        partition_range a lo hi = Some (act_array act, l, r) /\
        partitioned a lo hi (act_array act) p l r /\
        handed_on act ≡ₚ [(lo, r); (l, hi)] /\
        length (handed_on act) = 2%nat /\
        act_spawn act =
          (if bool_decide (r - lo > threshold) then Some (lo, r)
           else if bool_decide (hi - l > threshold) then Some (l, hi)
           else None) /\
        act_inline act =
          (if bool_decide (r - lo > threshold) then [(l, hi)]
           else if bool_decide (hi - l > threshold) then [(lo, r)]
           else [(lo, r); (l, hi)])).
Proof.
  unfold quicksort_job, handed_on. intros H.
  case_decide as Hge; [simplify_eq; left; unfold tiny; split_and!; (done || lia)|].
  case_decide as Hsmall.
  { destruct (std_sort a lo (hi + 1)); simplify_eq/=. left.
    split_and!; (done || lia). }
  right.
  destruct (partition_range a lo hi) as [[[a' l] r]|] eqn:Hpart; [|done].
  cbn [mbind option_bind] in H.
  destruct (partition_range_some a lo hi a' l r) as (p & _ & Hpd);
    [lia|done|].
  exists p, l, r.
  destruct (bool_decide (r - lo > threshold));
    destruct (bool_decide (hi - l > threshold));
    simplify_eq/=; split_and!; try done; try lia; apply perm_swap.
Qed.

(** *** The measure *)

Definition range_size (rg : range) : nat := Z.to_nat (rg.2 - rg.1 + 1).

(** A bound on the number of activations a range gives rise to: ranges of
    at most 1001 elements are sorted at once, and a partition hands on
    strictly fewer elements than it received. *)
Definition range_weight (rg : range) : nat :=
  if decide (range_size rg <= 1001)%nat then 1%nat
  else (3 * (range_size rg - 1001) + 1)%nat.

Definition qs_wcont (c : list range) : nat := S (sum_list_with range_weight c).

Lemma range_weight_pos rg : (1 <= range_weight rg)%nat.
Proof. unfold range_weight. case_decide; lia. Qed.

Lemma partition_weight a lo hi a' p l r :
  hi - lo > tiny -> partitioned a lo hi a' p l r ->
  (range_weight (lo, r) + range_weight (l, hi) + 2
   <= range_weight (lo, hi))%nat.
Proof.
  intros Hbig [_ _ _ _ Hcross Hl Hr _ _]. unfold tiny in Hbig.
  unfold range_weight, range_size. simpl. repeat case_decide; lia.
Qed.

Lemma quicksort_job_weight threshold a lo hi act :
  quicksort_job threshold a lo hi = Some act ->
  (sum_list_with range_weight (handed_on act)
   + length (option_list (act_spawn act))
   < range_weight (lo, hi))%nat.
Proof.
  intros H.
  destruct (quicksort_job_cases _ _ _ _ _ H)
    as [(Hnil & Hsmall & _)|(p & l & r & Hbig & _ & Hpd & Hperm & _ & Hsp & _)].
  - unfold handed_on in *. apply app_eq_nil in Hnil as [-> ->]. simpl.
    pose proof (range_weight_pos (lo, hi)). lia.
  - rewrite Hperm. simpl.
    pose proof (partition_weight _ _ _ _ _ _ _ Hbig Hpd).
    assert (length (option_list (act_spawn act)) <= 1)%nat
      by (destruct (act_spawn act); simpl; lia).
    lia.
Qed.

Section QuicksortSystem.
Context (threshold : Z).

Lemma qs_wcont_pos c : (1 <= qs_wcont c)%nat.
Proof. unfold qs_wcont. lia. Qed.

Lemma qs_wcont_continue a c a' c' :
  qs_body threshold a c = Continue a' c' -> (qs_wcont c' < qs_wcont c)%nat.
Proof.
  unfold qs_body. destruct c as [|[lo hi] rest]; [done|].
  destruct (quicksort_job threshold a lo hi) as [act|] eqn:Hq; [|done].
  pose proof (quicksort_job_weight _ _ _ _ _ Hq) as Hw.
  unfold handed_on in Hw.
  destruct (act_spawn act); intros H; simplify_eq.
  unfold qs_wcont. simpl in *. rewrite sum_list_with_app. lia.
Qed.

Lemma qs_wcont_fork a c a' j c' :
  qs_body threshold a c = Fork a' j c' ->
  (qs_wcont (qs_start j) + qs_wcont c' < qs_wcont c)%nat.
Proof.
  unfold qs_body. destruct c as [|[lo hi] rest]; [done|].
  destruct (quicksort_job threshold a lo hi) as [act|] eqn:Hq; [|done].
  pose proof (quicksort_job_weight _ _ _ _ _ Hq) as Hw.
  unfold handed_on in Hw.
  destruct (act_spawn act); intros H; simplify_eq.
  unfold qs_wcont, qs_start. simpl in *. rewrite sum_list_with_app in *. lia.
Qed.

(** *** The invariant, on jobs and started bodies *)

Definition ranges_of (u : @unit_ range (list range)) : list range :=
  match u with UJob j => [j] | UCont c => c end.

Definition qs_Inv (L R : Z) (T : list Z) (a : list Z)
    (us : list (@unit_ range (list range))) : Prop :=
  qs_inv T a (us ≫= ranges_of) /\ Forall (within L R) (us ≫= ranges_of).

Lemma qs_Inv_perm L R T a us us' :
  us ≡ₚ us' -> qs_Inv L R T a us -> qs_Inv L R T a us'.
Proof.
  intros Hp [H1 H2]. split.
  - eapply qs_inv_perm; [|done]. by rewrite Hp.
  - by rewrite <- Hp.
Qed.

Lemma qs_Inv_start L R T a j us :
  qs_Inv L R T a (UJob j :: us) -> qs_Inv L R T a (UCont (qs_start j) :: us).
Proof. done. Qed.

Lemma qs_Inv_body L R T a c us :
  qs_Inv L R T a (UCont c :: us) ->
  match qs_body threshold a c with
  | Continue a' c' => qs_Inv L R T a' (UCont c' :: us)
  | Fork a' j c' => qs_Inv L R T a' (UJob j :: UCont c' :: us)
  | Return | Raise _ => qs_Inv L R T a us
  | Fault => False
  end.
Proof.
  unfold qs_Inv. rewrite bind_cons. intros [Hinv Hwithin].
  unfold qs_body. destruct c as [|[lo hi] rest]; [done|].
  cbn [ranges_of] in *. rewrite <- app_comm_cons in Hinv, Hwithin.
  destruct (qs_activation T threshold a lo hi _ Hinv) as (act & Hq & Hinv').
  rewrite Hq.
  apply Forall_cons in Hwithin as [[HL HR] Hwithin]. simpl in HL, HR.
  assert (Hw : Forall (within L R) (handed_on act)).
  { destruct (quicksort_job_cases _ _ _ _ _ Hq)
      as [(-> & _)|(p & l & r & _ & _ & Hpd & Hperm & _)]; [done|].
    rewrite Hperm. destruct Hpd.
    repeat constructor; simpl; lia. }
  unfold handed_on in Hw.
  destruct (act_spawn act) as [j|]; rewrite ?bind_cons; cbn [ranges_of];
    simpl in *.
  - split.
    + by rewrite <- (assoc_L (++)).
    + apply Forall_cons in Hw as [? Hw]. constructor; [done|].
      rewrite <- (assoc_L (++)). by apply Forall_app.
  - split.
    + by rewrite <- (assoc_L (++)).
    + rewrite <- (assoc_L (++)). by apply Forall_app.
Qed.

End QuicksortSystem.

(* --------------------------------------------------------------------- *)
(** ** Quicksort: the whole parallel sort                                 *)
(* --------------------------------------------------------------------- *)

Lemma get_ext (a b : list Z) : (forall x, get a x = get b x) -> a = b.
Proof.
  intros H. apply list_eq. intros i. specialize (H (Z.of_nat i)).
  unfold get in H. rewrite !decide_True, !Nat2Z.id in H by lia. done.
Qed.

Lemma slice_empty a lo hi : hi < lo -> slice a (lo, hi) = [].
Proof.
  intros. unfold slice. simpl. by replace (Z.to_nat (hi - lo + 1)) with 0%nat by lia.
Qed.

(** The sequential baseline: sorted on the range, the same elements, the
    rest of the array untouched. *)
Lemma baseline_spec a left right :
  0 <= left -> right < Z.of_nat (length a) ->
  let T := baseline a left right in
  length T = length a /\ T ≡ₚ a /\ same_outside a T left right /\
  slice T (left, right) = sort_list (slice a (left, right)).
Proof.
  intros Hl Hr. unfold baseline. case_decide as Hle.
  - destruct (std_sort_spec a left right) as (a' & -> & H); [lia..|]. done.
  - simpl. split_and!; try done. by rewrite slice_empty by lia.
Qed.

Lemma baseline_trivial a left right :
  0 <= left -> right < Z.of_nat (length a) -> left >= right ->
  baseline a left right = a.
Proof.
  intros Hl Hr Hge.
  destruct (baseline_spec a left right Hl Hr) as (Hlen & _ & Hout & Hsl).
  apply get_ext. intros x.
  destruct (decide (left <= x <= right)) as [Hx|Hx]; [|by apply Hout].
  apply (slice_eq_get _ _ left right); [done..|].
  rewrite Hsl. symmetry. apply short_perm_eq.
  - symmetry. apply sort_list_perm.
  - unfold slice. rewrite length_take. simpl. lia.
Qed.

Lemma covering_within L R rs x :
  Forall (within L R) rs -> ~ (L <= x <= R) -> covering x rs = 0%nat.
Proof.
  induction 1 as [|[lo hi] rs [H1 H2] _ IH]; intros Hx; [done|].
  rewrite covering_cons, IH by done. simpl in *.
  rewrite covers_out; [done|]. unfold in_range. simpl. lia.
Qed.

Section ParallelSort.
Context (threshold : Z) (n : nat) (a : list Z) (left right : Z).
Hypothesis left_ok : 0 <= left.
Hypothesis right_ok : right < Z.of_nat (length a).
Hypothesis no_overflow : 2 * right <= LONG_MAX.

Let T := baseline a left right.

Definition qs_sane (L R : Z) (T : list Z) (s : qs_sys) : Prop :=
  sane qs_start qs_wcont (qs_Inv L R T) s.
Definition qs_good (L R : Z) (T : list Z) (s : qs_sys) : Prop :=
  good qs_start qs_wcont (qs_Inv L R T) s.

Lemma qs_root_bound : Z.of_nat (qs_wcont (qs_start (left, right))) <= 2 ^ 32.
Proof.
  unfold qs_wcont, qs_start, range_weight, range_size, LONG_MAX in *. simpl.
  case_decide; lia.
Qed.

Lemma qs_root_Inv : qs_Inv left right T a [UJob (left, right)].
Proof.
  destruct (baseline_spec a left right left_ok right_ok)
    as (Hlen & Hperm & Hout & Hsl). fold T in Hlen, Hperm, Hout, Hsl.
  split; simpl.
  - constructor.
    + done.
    + intros x. rewrite covering_cons. unfold covers. simpl. case_decide; lia.
    + repeat constructor; simpl; lia.
    + repeat constructor.
      * rewrite Hsl. by rewrite sort_list_perm.
      * rewrite Hsl. apply sort_list_sorted.
    + intros x. rewrite covering_cons. unfold covers. simpl.
      case_decide as Hx; [lia|]. intros _. symmetry. apply Hout.
      unfold in_range in Hx. simpl in Hx. lia.
  - repeat constructor; simpl; lia.
Qed.

Lemma qs_run_sane' sched s :
  qs_sane left right T s -> qs_sane left right T (qs_run threshold sched s).
Proof.
  apply (run_sane qs_start (qs_body threshold) qs_wcont qs_wcont_pos
           (qs_wcont_continue threshold) (qs_wcont_fork threshold)
           (qs_Inv left right T) (qs_Inv_perm left right T)
           (qs_Inv_start left right T) (qs_Inv_body threshold left right T)).
Qed.

Lemma qs_run_sane sched :
  qs_sane left right T (qs_run threshold sched (qs_async n a left right)).
Proof.
  apply qs_run_sane', init_sane; [apply qs_root_bound|apply qs_root_Inv].
Qed.

Lemma qs_run_good sched :
  no_stop sched ->
  qs_good left right T (qs_run threshold sched (qs_async n a left right)).
Proof.
  intros Hns.
  apply (run_good qs_start (qs_body threshold) qs_wcont qs_wcont_pos
           (qs_wcont_continue threshold) (qs_wcont_fork threshold)
           (qs_Inv left right T) (qs_Inv_perm left right T)
           (qs_Inv_start left right T) (qs_Inv_body threshold left right T));
    [done|].
  apply init_good; [apply qs_root_bound|apply qs_root_Inv].
Qed.

Lemma qs_completes s :
  qs_good left right T s ->
  exists rest, no_stop rest
    /\ prom (sys_state (qs_run threshold rest s)) <> None.
Proof.
  apply (good_completes qs_start (qs_body threshold) qs_wcont qs_wcont_pos
           (qs_wcont_continue threshold) (qs_wcont_fork threshold)
           (qs_Inv left right T) (qs_Inv_perm left right T)
           (qs_Inv_start left right T) (qs_Inv_body threshold left right T)).
Qed.

(** When the promise is set the array is the baseline's. *)
Lemma qs_sane_done s r :
  qs_sane left right T s -> prom (sys_state s) = Some r ->
  r = Value /\ sys_mem s = T.
Proof.
  intros Hs Hr. split; [by destruct r as [|[]]|].
  pose proof (sane_set _ _ _ _ _ Hs Hr) as [[_ _ _ _ Hset] _].
  apply get_ext. intros x. by apply Hset.
Qed.

(** At every moment the array agrees with the input outside the range. *)
Lemma qs_sane_frame s :
  qs_sane left right T s ->
  length (sys_mem s) = length a /\ same_outside a (sys_mem s) left right.
Proof.
  intros (_ & _ & _ & [[Hlen _ _ _ Hset] Hw] & _).
  destruct (baseline_spec a left right left_ok right_ok)
    as (HlenT & _ & Hout & _). fold T in HlenT, Hout.
  split; [congruence|]. intros x Hx.
  rewrite Hset by (by eapply covering_within). by apply Hout.
Qed.

(** A range of at most one element is never written to. *)
Lemma qs_sane_trivial s :
  left >= right -> qs_sane left right T s -> sys_mem s = a.
Proof.
  intros Hge Hs. pose proof (qs_sane_frame s Hs) as [_ Hout].
  destruct Hs as (_ & _ & _ & [[Hlen _ Hok Hsl Hset] Hw] & _).
  assert (HT : T = a) by (by apply baseline_trivial).
  rewrite HT in *. apply get_ext. intros x.
  destruct (decide (left <= x <= right)) as [Hx|Hx]; [|by apply Hout].
  assert (x = left /\ x = right) as [-> Heq] by lia.
  destruct (decide (covering left (units s ≫= ranges_of) = 0%nat)) as [Hc|Hc];
    [by apply Hset|].
  (* some pending range contains the index: it is the range itself *)
  assert (exists rg, rg ∈ units s ≫= ranges_of /\ in_range rg left)
    as ([lo hi] & Hin & Hrg).
  { clear -Hc. induction (units s ≫= ranges_of) as [|rg rs IH]; [done|].
    rewrite covering_cons in Hc. unfold covers in Hc.
    case_decide as Hd.
    - exists rg. split; [by left|done].
    - destruct IH as (rg' & ? & ?); [lia|]. exists rg'. split; [by right|done]. }
  pose proof (proj1 (Forall_forall _ _) Hw _ Hin) as [H1 H2].
  pose proof (proj1 (Forall_forall _ _) Hsl _ Hin) as [Hp _].
  unfold in_range in Hrg. simpl in *.
  assert (lo = left /\ hi = left) as [-> ->] by lia.
  apply (slice_eq_get _ _ left left); [lia|lia|].
  apply short_perm_eq; [done|].
  unfold slice. rewrite length_take. simpl. lia.
Qed.

End ParallelSort.

(** C3.  For every input array and range inside it (the empty range, a
    singleton, an already sorted or a constant sequence included), and
    every interleaving of the threads: once the parallel quicksort has
    completed, the future delivers success and the array is the output of
    the sequential baseline [std::sort] on the same input, which is sorted
    on the range, holds the same elements and leaves the rest of the
    array as it was; and while the pool is not shut down the sort can
    always be run to completion.  On the input 5, 3, 8, 1, 9, 2 the
    baseline, and so the parallel sort, gives 1, 2, 3, 5, 8, 9. *)
Theorem parallel_quicksort_sorts
    (threshold : Z) (n : nat) (a : list Z) (left right : Z)
    (sched : list label) :
  0 <= left -> right < Z.of_nat (length a) -> 2 * right <= LONG_MAX ->
  let s := qs_run threshold sched (qs_async n a left right) in
  let T := baseline a left right in
  (forall r, prom (sys_state s) = Some r -> r = Value /\ sys_mem s = T) /\
  (no_stop sched ->
   exists rest, no_stop rest /\
     prom (sys_state (qs_run threshold rest s)) = Some Value /\
     sys_mem (qs_run threshold rest s) = T) /\
  Sorted Z.le (slice T (left, right)) /\ T ≡ₚ a /\
  same_outside a T left right /\
  baseline [5; 3; 8; 1; 9; 2] 0 5 = [1; 2; 3; 5; 8; 9].
Proof.
  intros Hl Hr Hmax s T.
  pose proof (qs_run_sane threshold n a left right Hl Hr Hmax sched) as Hs.
  fold s T in Hs.
  destruct (baseline_spec a left right Hl Hr) as (_ & Hperm & Hout & Hsl).
  split_and!; try done.
  - intros r Hp. by apply (qs_sane_done a left right).
  - intros Hns.
    pose proof (qs_run_good threshold n a left right Hl Hr Hmax sched Hns)
      as Hg.
    destruct (qs_completes threshold a left right _ Hg) as (rest & Hnr & Hp).
    exists rest. split; [done|]. fold s in Hp.
    destruct (prom (sys_state (qs_run threshold rest s))) as [r|] eqn:Hpr;
      [|done].
    assert (Hs' : qs_sane left right T (qs_run threshold rest s))
      by (by apply qs_run_sane').
    destruct (qs_sane_done a left right _ r Hs' Hpr) as [-> ?]. done.
  - unfold T. rewrite Hsl. apply sort_list_sorted.
Qed.

(** C10.  [quicksort_job] on the range [left, right], with everything it
    spawns, writes only to indices of that range: in every state of every
    interleaving the array has its length and every element outside the
    range is what it was at the start; and for [left >= right] the call
    returns at once, hands nothing on, and the array is never changed. *)
Theorem quicksort_touches_only_its_range
    (threshold : Z) (n : nat) (a : list Z) (left right : Z)
    (sched : list label) :
  0 <= left -> right < Z.of_nat (length a) -> 2 * right <= LONG_MAX ->
  let s := qs_run threshold sched (qs_async n a left right) in
  length (sys_mem s) = length a /\
  (forall i, ~ (left <= i <= right) -> get (sys_mem s) i = get a i) /\
  (left >= right ->
   quicksort_job threshold a left right = Some (Activation a None []) /\
   sys_mem s = a).
Proof.
  intros Hl Hr Hmax s.
  pose proof (qs_run_sane threshold n a left right Hl Hr Hmax sched) as Hs.
  fold s in Hs.
  destruct (qs_sane_frame a left right Hl Hr s Hs) as [Hlen Hout].
  split_and!; try done.
  intros Hge. split.
  - unfold quicksort_job. by rewrite decide_True.
  - by apply (qs_sane_trivial a left right).
Qed.

(** C9.  For every range [left, right] inside the array with
    [right - left] above the small-sort cutoff (and such that neither
    [left + right] nor [right + 1] overflows a [long]), the partition loop of
    [quicksort_job] terminates without leaving the array, with final
    indices [l] and [r] such that [r < l], every element at an index of
    [left, r] is at most the pivot, every element at an index of
    [l, right] is at least the pivot, and every element strictly between
    [r] and [l] equals the pivot; the array is a permutation of what it was
    and is unchanged outside the range; and the two ranges the activation
    hands on are exactly [left, r] and [l, right]. *)
Theorem partition_postcondition
    (threshold : Z) (a : list Z) (left right : Z) :
  0 <= left -> right - left > tiny -> right < Z.of_nat (length a) ->
  left + right <= LONG_MAX -> right < LONG_MAX ->
  exists a' l r pivot act,
    pivot_of a left right = Some pivot /\
    partition_range a left right = Some (a', l, r) /\
    r < l /\ left - 1 <= r /\ l <= right + 1 /\
    (forall i x, left <= i <= r -> get a' i = Some x -> x <= pivot) /\
    (forall i x, l <= i <= right -> get a' i = Some x -> pivot <= x) /\
    (forall i x, r < i < l -> get a' i = Some x -> x = pivot) /\
    a' ≡ₚ a /\ length a' = length a /\ same_outside a a' left right /\
    quicksort_job threshold a left right = Some act /\
    act_array act = a' /\ handed_on act ≡ₚ [(left, r); (l, right)].
Proof.
  intros Hl Hbig Hr Hmax Hmax'. unfold tiny in Hbig.
  destruct (partition_range_total a left right) as [[[a' l] r] Hpart];
    [lia..|].
  destruct (partition_range_some a left right a' l r) as (p & Hp & Hpd);
    [lia|done|].
  assert (exists act, quicksort_job threshold a left right = Some act)
    as [act Hq].
  { unfold quicksort_job. rewrite decide_False by lia.
    rewrite decide_False by (unfold tiny; lia). rewrite Hpart.
    cbn [mbind option_bind]. repeat case_match; eauto. }
  destruct (quicksort_job_cases _ _ _ _ _ Hq)
    as [(_ & Hsmall & _)|(p' & l' & r' & _ & Hpart' & _ & Hperm & _)];
    [unfold tiny in Hsmall; lia|].
  rewrite Hpart in Hpart'. simplify_eq.
  destruct Hpd as [Hpiv Hlen Hperm' Hout Hcross Hl' Hr' Hle Hge].
  exists (act_array act), l', r', p, act. split_and!; try done; try lia.
  - intros i x Hi Hx. eapply Hle; [|done]. lia.
  - intros i x Hi Hx. eapply Hge; [|done]. lia.
  - intros i x Hi Hx.
    assert (x <= p) by (eapply Hle; [|done]; lia).
    assert (p <= x) by (eapply Hge; [|done]; lia). lia.
Qed.

(** C6.  After the partition of a range above the cutoff, where a
    sub-range [lo, hi] exceeds the threshold when [hi - lo > threshold]
    (the comparison the code makes): if both sub-ranges exceed it, exactly
    one closure is spawned, for the left one, and the right one is
    processed by a direct call; if exactly one exceeds it, that one is
    spawned and the other is processed by a direct call; if neither does,
    no task is created and both are processed by direct calls, left first.
    A worker running that activation goes on to [spawn_task_in_pool] in
    the first three cases and stays in the body in the last, the pool
    being untouched by the step. *)
Theorem spawn_policy
    (threshold : Z) (a : list Z) (left right : Z) (act : activation) :
  right - left > tiny ->
  quicksort_job threshold a left right = Some act ->
  exists l r,
    partition_range a left right = Some (act_array act, l, r) /\
    let left_big := r - left > threshold in
    let right_big := right - l > threshold in
    (left_big /\ right_big ->
       act_spawn act = Some (left, r) /\ act_inline act = [(l, right)]) /\
    (left_big /\ ~ right_big ->
       act_spawn act = Some (left, r) /\ act_inline act = [(l, right)]) /\
    (~ left_big /\ right_big ->
       act_spawn act = Some (l, right) /\ act_inline act = [(left, r)]) /\
    (~ left_big /\ ~ right_big ->
       act_spawn act = None /\ act_inline act = [(left, r); (l, right)]) /\
    (length (option_list (act_spawn act)) <= 1)%nat /\
    forall (s : qs_sys) k rest,
      sys_mem s = a ->
      sys_workers s !! k = Some (Running (Body ((left, right) :: rest))) ->
      let s' := qs_step threshold (Worker k) s in
      sys_mem s' = act_array act /\ sys_pool s' = sys_pool s /\
      sys_state s' = sys_state s /\
      sys_workers s' !! k =
        Some (Running
                match act_spawn act with
                | Some j => Spawning AtCounter j (act_inline act ++ rest)
                | None => Body (act_inline act ++ rest)
                end).
Proof.
  intros Hbig Hq.
  destruct (quicksort_job_cases _ _ _ _ _ Hq)
    as [(_ & Hsmall & _)|(p & l & r & _ & Hpart & _ & _ & _ & Hsp & Hin)];
    [lia|].
  exists l, r. split; [done|]. rewrite Hsp, Hin.
  split_and!.
  - intros [H1 H2]. by rewrite bool_decide_true.
  - intros [H1 H2]. by rewrite bool_decide_true.
  - intros [H1 H2]. by rewrite bool_decide_false, bool_decide_true.
  - intros [H1 H2]. by rewrite !bool_decide_false.
  - repeat case_bool_decide; simpl; lia.
  - intros s k rest Hm Hk. cbv zeta. unfold qs_step, step.
    unfold qs_sys, range in *. rewrite Hk.
    unfold task_step, qs_body. rewrite Hm, Hq, Hsp, Hin.
    repeat case_bool_decide; simpl; split_and!; try done;
      by eapply worker_after.
Qed.

(** The scenario of the specification, on a pool of two workers: the main
    thread spawns the root job and worker 1 does all the work. *)
Definition scenario_schedule : list label :=
  [Main; Main; Main] ++ replicate 12 (Worker 1).

Lemma parallel_quicksort_sorts_witness :
  0 <= 0 /\ 5 < Z.of_nat (length [5; 3; 8; 1; 9; 2]) /\ 2 * 5 <= LONG_MAX /\
  prom (sys_state (qs_run 0 scenario_schedule
                     (qs_async 2 [5; 3; 8; 1; 9; 2] 0 5))) = Some Value /\
  sys_mem (qs_run 0 scenario_schedule (qs_async 2 [5; 3; 8; 1; 9; 2] 0 5))
  = [1; 2; 3; 5; 8; 9].
Proof.
  assert (H0 : 0 <= 0) by lia.
  assert (H1 : 5 < Z.of_nat (length [5; 3; 8; 1; 9; 2])) by (simpl; lia).
  assert (H2 : 2 * 5 <= LONG_MAX) by (unfold LONG_MAX; lia).
  split; [exact H0|]. split; [exact H1|]. split; [exact H2|].
  destruct (parallel_quicksort_sorts 0 2 [5; 3; 8; 1; 9; 2] 0 5
              scenario_schedule H0 H1 H2) as [Hdone _].
  assert (Hp : prom (sys_state (qs_run 0 scenario_schedule
                       (qs_async 2 [5; 3; 8; 1; 9; 2] 0 5))) = Some Value)
    by (vm_compute; reflexivity).
  split; [exact Hp|].
  destruct (Hdone Value Hp) as [_ ->]. vm_compute. reflexivity.
Defined.

Lemma quicksort_touches_only_its_range_witness :
  0 <= 1 /\ 4 < Z.of_nat (length [5; 3; 8; 1; 9; 2]) /\ 2 * 4 <= LONG_MAX /\
  forall i, ~ (1 <= i <= 4) ->
    get (sys_mem (qs_run 0 scenario_schedule
                    (qs_async 2 [5; 3; 8; 1; 9; 2] 1 4))) i
    = get [5; 3; 8; 1; 9; 2] i.
Proof.
  assert (H0 : 0 <= 1) by lia.
  assert (H1 : 4 < Z.of_nat (length [5; 3; 8; 1; 9; 2])) by (simpl; lia).
  assert (H2 : 2 * 4 <= LONG_MAX) by (unfold LONG_MAX; lia).
  split; [exact H0|]. split; [exact H1|]. split; [exact H2|].
  apply (quicksort_touches_only_its_range 0 2 [5; 3; 8; 1; 9; 2] 1 4
           scenario_schedule H0 H1 H2).
Defined.

(** An array of 1200 elements, long enough to be partitioned. *)
Definition long_array : list Z :=
  (λ i, (Z.of_nat i * 7919) `mod` 1201) <$> seq 0 1200.

Definition long_activation : activation :=
  default (Activation [] None []) (quicksort_job 100 long_array 0 1199).

Lemma partition_postcondition_witness :
  0 <= 0 /\ 1199 - 0 > tiny /\ 1199 < Z.of_nat (length long_array) /\
  0 + 1199 <= LONG_MAX /\ 1199 < LONG_MAX /\
  exists a' l r, partition_range long_array 0 1199 = Some (a', l, r) /\ r < l.
Proof.
  assert (H0 : 0 <= 0) by lia.
  assert (H1 : 1199 - 0 > tiny) by (unfold tiny; lia).
  assert (H2 : 1199 < Z.of_nat (length long_array)) by (vm_compute; done).
  assert (H3 : 0 + 1199 <= LONG_MAX) by (unfold LONG_MAX; lia).
  assert (H4 : 1199 < LONG_MAX) by (unfold LONG_MAX; lia).
  split; [exact H0|]. split; [exact H1|]. split; [exact H2|].
  split; [exact H3|]. split; [exact H4|].
  destruct (partition_postcondition 0 long_array 0 1199 H0 H1 H2 H3 H4)
    as (a' & l & r & p & act & _ & Hp & Hc & _).
  exists a', l, r. split; [exact Hp|exact Hc].
Defined.

Lemma spawn_policy_witness :
  1199 - 0 > tiny /\
  quicksort_job 100 long_array 0 1199 = Some long_activation /\
  exists l r,
    partition_range long_array 0 1199
    = Some (act_array long_activation, l, r).
Proof.
  assert (H1 : 1199 - 0 > tiny) by (unfold tiny; lia).
  assert (H2 : quicksort_job 100 long_array 0 1199 = Some long_activation)
    by (vm_compute; reflexivity).
  split; [exact H1|]. split; [exact H2|].
  destruct (spawn_policy 100 long_array 0 1199 long_activation H1 H2)
    as (l & r & Hp & _).
  exists l, r. exact Hp.
Defined.

(** The number of elements of a range. *)
Definition range_elements (rg : range) : Z := rg.2 - rg.1 + 1.

(** The policy in the words of the specification, which compares the
    sizes of the two sub-ranges with [T]: what is spawned and what is
    processed inline, for the left part [lpart] and the right part
    [rpart] of a partitioned range. *)
Definition spec_spawn_policy (T : Z) (lpart rpart : range)
  : option range * list range :=
  let left_exceeds := bool_decide (range_elements lpart > T) in
  let right_exceeds := bool_decide (range_elements rpart > T) in
  if left_exceeds && right_exceeds then (Some lpart, [rpart])
  else if left_exceeds then (Some lpart, [rpart])
  else if right_exceeds then (Some rpart, [lpart])
  else (None, [lpart; rpart]).

(** The activation of [long_array] with the threshold 730. *)
Definition unspawned_activation : activation :=
  default (Activation [] None []) (quicksort_job 730 long_array 0 1199).

(** With sizes for "exceeds" the policy is not the code's.  The partition
    of [long_array] ends with [l = 731] and [r = 730]: the left part has
    731 elements, the right part 469.  With [T = 730] exactly one part,
    the left, has more than [T] elements, so it should be spawned; the code
    compares [r - left = 730] with [T], finds neither part big and spawns
    nothing. *)
Lemma spawn_policy_by_size_counterexample :
  quicksort_job 730 long_array 0 1199 = Some unspawned_activation /\
  partition_range long_array 0 1199
    = Some (act_array unspawned_activation, 731, 730) /\
  range_elements (0, 730) = 731 /\ range_elements (731, 1199) = 469 /\
  spec_spawn_policy 730 (0, 730) (731, 1199)
    = (Some (0, 730), [(731, 1199)]) /\
  act_spawn unspawned_activation = None /\
  act_inline unspawned_activation = [(0, 730); (731, 1199)] /\
  (act_spawn unspawned_activation, act_inline unspawned_activation)
    <> spec_spawn_policy 730 (0, 730) (731, 1199).
Proof.
  split_and!; try (vm_compute; reflexivity).
  vm_compute. discriminate.
Qed.


(* ===================================================================== *)
(** * Part V.  Further properties of the pool                             *)
(* ===================================================================== *)

Section PoolShape.
Context {T : Type}.
Implicit Types (p : ThreadPool T) (s : pool_sys T) (t : T).

Lemma worker_loop_index my c p r p' :
  worker_loop my c p = (r, p') -> m_index p' = m_index p.
Proof.
  unfold worker_loop. intros H. destruct c as [| |i| |].
  - by destruct (m_done p); simplify_eq.
  - destruct (try_pop_from_queue my p) as [[t p1]|] eqn:Hpop; simplify_eq;
      [|done].
    apply try_pop_spec in Hpop. naive_solver.
  - case_decide; simplify_eq; [|done].
    destruct (try_steal_from_queue _ p) as [[t p1]|] eqn:Hst; simplify_eq;
      [|done].
    apply try_steal_spec in Hst. naive_solver.
  - by simplify_eq.
  - by simplify_eq.
Qed.

Lemma pool_step_width lbl s :
  pool_width (ps_pool (pool_step lbl s)) = pool_width (ps_pool s).
Proof.
  destruct lbl as [t|n|k|]; unfold pool_step; try done.
  - destruct (ps_inflight s !! n) as [[idx t]|]; [|done].
    unfold push_front, pool_width. simpl. by rewrite length_alter.
  - destruct (ps_workers s !! k) as [[c|t]|]; try done.
    destruct (worker_loop k c (ps_pool s)) as [r p'] eqn:Hwl.
    by apply worker_loop_spec in Hwl as (? & _).
Qed.

Lemma pool_step_index lbl s :
  0 <= m_index (ps_pool s) <= SIZE_MAX ->
  0 <= m_index (ps_pool (pool_step lbl s)) <= SIZE_MAX.
Proof.
  intros Hi. destruct lbl as [t|n|k|]; unfold pool_step; try done.
  - simpl. unfold SIZE_MAX in *.
    pose proof (Z.mod_pos_bound (m_index (ps_pool s) + 1) (2 ^ 64 - 1 + 1)).
    lia.
  - by destruct (ps_inflight s !! n) as [[idx t]|].
  - destruct (ps_workers s !! k) as [[c|t]|]; try done.
    destruct (worker_loop k c (ps_pool s)) as [r p'] eqn:Hwl.
    apply worker_loop_index in Hwl. simpl. by rewrite Hwl.
Qed.

Lemma pool_run_width sched s :
  pool_width (ps_pool (pool_run sched s)) = pool_width (ps_pool s).
Proof.
  revert s. induction sched as [|lbl sched IH]; intros s; [done|].
  simpl. by rewrite IH, pool_step_width.
Qed.

Lemma pool_run_index sched s :
  0 <= m_index (ps_pool s) <= SIZE_MAX ->
  0 <= m_index (ps_pool (pool_run sched s)) <= SIZE_MAX.
Proof.
  revert s. induction sched as [|lbl sched IH]; intros s Hs; [done|].
  simpl. by apply IH, pool_step_index.
Qed.

(** X8.  The constructor fixes the shape of the pool for good: whatever
    is submitted, run or shut down afterwards, there are as many queues as
    workers, namely [n] of them, or 4 when the pool was built with
    [n = 0]; [m_index] stays a [size_t]; and every queue index that
    [push_task] computes (one about to be computed included) is a valid
    index of [m_queues], so that [m_queues[idx]] is always in bounds. *)
Theorem pool_shape_is_fixed (n : nat) (sched : list (pool_label T)) :
  let s := pool_run sched (pool_init n) in
  let K := if decide (n = 0%nat) then 4%nat else n in
  pool_width (ps_pool s) = K /\ length (ps_workers s) = K /\
  (1 <= K)%nat /\
  0 <= m_index (ps_pool s) <= SIZE_MAX /\
  ((next_index (ps_pool s)).1 < K)%nat /\
  Forall (λ it, (it.1 < K)%nat) (ps_inflight s).
Proof.
  intros s K.
  assert (HK : pool_width (ps_pool s) = K).
  { unfold s. rewrite pool_run_width. unfold pool_init, new_pool, pool_width.
    simpl. by rewrite length_replicate. }
  pose proof (pool_run_inv sched _ (pool_init_inv n)) as [Hw Hpos Hin _ _].
  fold s in Hw, Hpos, Hin. rewrite HK in *.
  assert (Hix : 0 <= m_index (ps_pool s) <= SIZE_MAX).
  { apply pool_run_index. unfold SIZE_MAX. simpl. lia. }
  split_and!; try done; try lia.
  destruct (next_index (ps_pool s)) as [idx p'] eqn:Hn.
  apply next_index_spec in Hn as (_ & _ & Hidx). simpl.
  rewrite HK in Hidx. auto.
Qed.

(** X7.  Shut down or not, no task is executed twice and no task is
    invented: in every state of every run that may include the destructor,
    every submitted task is in exactly one place (executed, being executed,
    queued, or on its way into a queue), so the executed tasks are, with
    multiplicity, among the submitted ones. *)
Theorem no_task_runs_twice (n : nat) (sched : list (pool_label T)) :
  let s := pool_run sched (pool_init n) in
  ps_submitted s ≡ₚ
    ps_executed s ++ calling (ps_workers s) ++ queued (ps_pool s)
    ++ (ps_inflight s).*2 /\
  ps_executed s ⊆+ ps_submitted s /\
  (length (ps_executed s) <= length (ps_submitted s))%nat.
Proof.
  intros s.
  pose proof (pool_run_inv sched _ (pool_init_inv n)) as [_ _ _ Hacc _].
  fold s in Hacc. split; [done|].
  assert (Hsub : ps_executed s ⊆+ ps_submitted s).
  { rewrite Hacc. by apply submseteq_inserts_r. }
  split; [done|]. by apply submseteq_length.
Qed.

End PoolShape.

(* --------------------------------------------------------------------- *)
(** ** [push_task]: the round robin                                       *)
(* --------------------------------------------------------------------- *)

Section RoundRobin.
Context {T : Type}.
Implicit Types (p : ThreadPool T) (t : T) (ts : list T).

(** [push_task] called for each task of [ts] in turn, the first one
    first, with nothing in between. *)
Definition push_all ts p : ThreadPool T :=
  foldl (λ p t, push_task t p) p ts.

(** The tasks of [ts] whose position, counted from 0, is [i] modulo [K],
    in the order of [ts]. *)
Definition every_nth (K i : nat) ts : list T :=
  (filter (λ jt, (jt.1 `mod` K)%nat = i) (imap pair ts)).*2.

Lemma every_nth_snoc K i ts t :
  every_nth K i (ts ++ [t]) =
  every_nth K i ts ++ (if decide ((length ts `mod` K)%nat = i) then [t] else []).
Proof.
  unfold every_nth. rewrite imap_app, filter_app, fmap_app. f_equal.
  simpl. rewrite Nat.add_0_r.
  rewrite (filter_singleton _ _ []). simpl. by case_decide.
Qed.

(** X1.  [push_task] distributes round robin: when [ts] (at most 2^64
    tasks, so that [m_index] has not wrapped before the last one) is
    submitted to a fresh pool of [K] queues, queue [i] receives exactly the
    tasks at positions [i], [i + K], [i + 2K], ... of [ts], the most recent
    one at its front; [m_index] is then the number of tasks modulo 2^64,
    and the number of queues and [m_done] are untouched. *)
Theorem push_task_round_robin (n : nat) ts :
  Z.of_nat (length ts) <= SIZE_MAX + 1 ->
  let p := push_all ts (new_pool n) in
  m_index p = Z.of_nat (length ts) `mod` (SIZE_MAX + 1) /\
  length (m_queues p) = pool_size n /\
  m_done p = false /\
  forall i, (i < pool_size n)%nat ->
    m_queues p !! i = Some (rev (every_nth (pool_size n) i ts)).
Proof.
  induction ts as [|t ts IH] using rev_ind; intros Hlen.
  - simpl. split_and!; try done.
    + by rewrite length_replicate.
    + intros i Hi. by apply lookup_replicate_2.
  - rewrite length_app in Hlen. simpl in Hlen.
    destruct IH as (Hidx & Hw & Hd & Hq); [lia|].
    unfold push_all in *. rewrite foldl_snoc.
    set (p := foldl (λ p t, push_task t p) (new_pool n) ts) in *.
    rewrite Z.mod_small in Hidx by (unfold SIZE_MAX in *; lia).
    pose proof (pool_size_pos n) as Hpos.
    assert (Hi0 : Z.to_nat (m_index p `mod` Z.of_nat (length (m_queues p)))
                  = (length ts `mod` pool_size n)%nat).
    { rewrite Hidx, Hw, <- Nat2Z.inj_mod. apply Nat2Z.id. }
    unfold push_task, next_index, push_front. cbn [m_queues m_index m_done].
    rewrite Hi0. split_and!.
    + rewrite Hidx, length_app. simpl. f_equal. lia.
    + by rewrite length_alter.
    + done.
    + intros i Hi. rewrite every_nth_snoc.
      destruct (decide ((length ts `mod` pool_size n)%nat = i)) as [->|Hne].
      * rewrite list_lookup_alter_eq, Hq by done. simpl.
        by rewrite rev_app_distr.
      * rewrite list_lookup_alter_ne, Hq by done. by rewrite app_nil_r.
Qed.

End RoundRobin.

Lemma push_task_round_robin_witness :
  Z.of_nat (length [10; 11; 12; 13; 14]%nat) <= SIZE_MAX + 1 /\
  m_queues (push_all [10; 11; 12; 13; 14]%nat (new_pool 3)) !! 1%nat
  = Some [14; 11]%nat.
Proof.
  assert (H1 : Z.of_nat (length [10; 11; 12; 13; 14]%nat) <= SIZE_MAX + 1)
    by (vm_compute; discriminate).
  split; [exact H1|].
  destruct (push_task_round_robin 3 [10; 11; 12; 13; 14]%nat H1)
    as (_ & _ & _ & Hq).
  apply (Hq 1%nat). vm_compute. lia.
Defined.

(* --------------------------------------------------------------------- *)
(** ** One queue: a stack for its owner, a queue for a thief              *)
(* --------------------------------------------------------------------- *)

Section QueueOrder.
Context {T : Type}.
Implicit Types (p : ThreadPool T) (t : T) (ts q : list T).

(** The pool [p] with queue [idx] replaced by [q]. *)
Definition with_queue (idx : nat) q p : ThreadPool T :=
  mkPool (<[idx := q]> (m_queues p)) (m_index p) (m_done p).

(** [n] successive calls of [take], which is [try_pop_from_queue idx] or
    [try_steal_from_queue idx], stopping at the first that returns
    [false]: the tasks they deliver, in order, and the pool they leave. *)
Fixpoint drain (take : ThreadPool T -> option (T * ThreadPool T))
    (n : nat) p : list T * ThreadPool T :=
  match n with
  | O => ([], p)
  | S n' =>
      match take p with
      | Some (t, p') => let '(l, p'') := drain take n' p' in (t :: l, p'')
      | None => ([], p)
      end
  end.

Lemma with_queue_id idx q p : m_queues p !! idx = Some q -> with_queue idx q p = p.
Proof.
  intros H. destruct p as [qs i d]. unfold with_queue. simpl in *.
  by rewrite list_insert_id.
Qed.

Lemma with_queue_twice idx q q' p :
  with_queue idx q (with_queue idx q' p) = with_queue idx q p.
Proof. unfold with_queue. simpl. by rewrite list_insert_insert_eq. Qed.

Lemma with_queue_lookup idx q p :
  (idx < length (m_queues p))%nat ->
  m_queues (with_queue idx q p) !! idx = Some q.
Proof. intros. unfold with_queue. simpl. by apply list_lookup_insert_eq. Qed.

Lemma push_front_with_queue idx t q p :
  m_queues p !! idx = Some q ->
  push_front idx t p = with_queue idx (t :: q) p.
Proof.
  intros H. unfold push_front, with_queue. f_equal.
  apply list_eq. intros i. destruct (decide (i = idx)) as [->|].
  - rewrite list_lookup_alter_eq, list_lookup_insert_eq
      by eauto using lookup_lt_Some. by rewrite H.
  - by rewrite list_lookup_alter_ne, list_lookup_insert_ne.
Qed.

Lemma push_fronts_with_queue idx ts q p :
  m_queues p !! idx = Some q ->
  foldl (λ p t, push_front idx t p) p ts = with_queue idx (rev ts ++ q) p.
Proof.
  revert q p. induction ts as [|t ts IH]; intros q p H; simpl.
  - by rewrite with_queue_id.
  - rewrite (push_front_with_queue _ _ q) by done.
    rewrite (IH (t :: q)) by (apply with_queue_lookup; eauto using lookup_lt_Some).
    rewrite with_queue_twice. by rewrite <- (assoc_L (++)).
Qed.

Lemma drain_pop idx l q p :
  m_queues p !! idx = Some (l ++ q) ->
  drain (try_pop_from_queue idx) (length l) p = (l, with_queue idx q p).
Proof.
  revert p. induction l as [|t l IH]; intros p H; simpl.
  - by rewrite with_queue_id.
  - unfold try_pop_from_queue at 1. rewrite H. simpl.
    fold (with_queue idx (l ++ q) p).
    rewrite IH by (apply with_queue_lookup; eauto using lookup_lt_Some).
    by rewrite with_queue_twice.
Qed.

Lemma drain_steal idx l q p :
  m_queues p !! idx = Some (q ++ l) ->
  drain (try_steal_from_queue idx) (length l) p = (rev l, with_queue idx q p).
Proof.
  revert p. induction l as [|t l IH] using rev_ind; intros p H; simpl.
  - rewrite app_nil_r in H. by rewrite with_queue_id.
  - rewrite length_app, Nat.add_comm. simpl.
    unfold try_steal_from_queue at 1. rewrite H.
    rewrite (assoc_L (++)), last_snoc, List.removelast_last.
    fold (with_queue idx (q ++ l) p).
    rewrite IH by (apply with_queue_lookup; eauto using lookup_lt_Some).
    rewrite with_queue_twice. by rewrite rev_app_distr.
Qed.

(** X4.  A queue is a stack for its owner and a queue for thieves: after
    the tasks [ts] have been pushed, in that order, on an empty queue,
    [try_pop_from_queue] called [length ts] times delivers them most
    recent first, [try_steal_from_queue] called [length ts] times delivers
    them oldest first, either way the pool is then as it was before the
    pushes, and on the empty queue both return [false]. *)
Theorem owner_pops_newest_thief_steals_oldest (idx : nat) ts p :
  m_queues p !! idx = Some [] ->
  let p' := foldl (λ p t, push_front idx t p) p ts in
  drain (try_pop_from_queue idx) (length ts) p' = (rev ts, p) /\
  drain (try_steal_from_queue idx) (length ts) p' = (ts, p) /\
  try_pop_from_queue idx p = None /\
  try_steal_from_queue idx p = None.
Proof.
  intros H p'. unfold p'. rewrite (push_fronts_with_queue _ _ []) by done.
  rewrite app_nil_r.
  assert (Hi : (idx < length (m_queues p))%nat) by eauto using lookup_lt_Some.
  split_and!.
  - rewrite <- (length_rev ts).
    rewrite (drain_pop idx (rev ts) [])
      by (rewrite app_nil_r; by apply with_queue_lookup).
    by rewrite with_queue_twice, with_queue_id.
  - rewrite <- (length_rev ts).
    rewrite (drain_steal idx (rev ts) []) by (by apply with_queue_lookup).
    by rewrite with_queue_twice, with_queue_id, rev_involutive.
  - apply try_pop_none. auto.
  - apply try_steal_none. auto.
Qed.

End QueueOrder.

Lemma owner_pops_newest_thief_steals_oldest_witness :
  m_queues (new_pool (T := nat) 2) !! 1%nat = Some [] /\
  drain (try_steal_from_queue 1)
    (length [7; 8; 9]%nat)
    (foldl (λ p t, push_front 1 t p) (new_pool 2) [7; 8; 9]%nat)
  = ([7; 8; 9]%nat, new_pool 2).
Proof.
  assert (H : m_queues (new_pool (T := nat) 2) !! 1%nat = Some [])
    by reflexivity.
  split; [exact H|].
  apply (owner_pops_newest_thief_steals_oldest 1 [7; 8; 9]%nat (new_pool 2) H).
Defined.

(* --------------------------------------------------------------------- *)
(** ** After the destructor                                               *)
(* --------------------------------------------------------------------- *)

Section Shutdown.
Context {T : Type}.
Implicit Types (s : pool_sys T) (w : pworker T) (p : ThreadPool T).

(** How many of its own steps a worker needs at most to leave its loop
    once [m_done] is set.  The longest way is that of a worker that read
    [m_done] as [false] just before the store: it still makes its pop,
    its whole scan and its wait. *)
Definition exit_rank (K : nat) w : nat :=
  match w with
  | Seek Exited => 0
  | Seek LoopTop => 1
  | Seek Waiting => 2
  | Call _ => 2
  | Seek (Stealing i) => 3 + (K - i)
  | Seek Popping => 4 + K
  end.

(** The number of steps worker [k] makes in a schedule. *)
Definition steps_of (k : nat) (sched : list (pool_label T)) : nat :=
  sum_list_with
    (λ lbl, match lbl with
            | Work k' => if decide (k' = k) then 1 else 0
            | _ => 0
            end)%nat sched.

Lemma exit_rank_zero K w : exit_rank K w = 0%nat -> w = Seek Exited.
Proof. destruct w as [[| |i| |]|t]; simpl; intros; done || lia. Qed.

Lemma exit_rank_bound K w :
  (exit_rank K w <= K + 4)%nat.
Proof. destruct w as [[| |i| |]|t]; simpl; lia. Qed.

Lemma worker_loop_done_rank my c p r p' :
  m_done p = true -> worker_loop my c p = (r, p') ->
  (exit_rank (pool_width p)
     (match r with Next c' => Seek c' | Got t => Call t end)
   <= exit_rank (pool_width p) (Seek c) - 1)%nat.
Proof.
  unfold worker_loop, pool_width. intros Hd H. destruct c as [| |i| |].
  - rewrite Hd in H. simplify_eq. simpl. lia.
  - destruct (try_pop_from_queue my p) as [[??]|]; simplify_eq; simpl; lia.
  - case_decide; [destruct (try_steal_from_queue _ p) as [[??]|]|];
      simplify_eq; simpl; lia.
  - simplify_eq. simpl. lia.
  - simplify_eq. simpl. lia.
Qed.

Lemma pool_step_done_stays lbl s :
  m_done (ps_pool s) = true -> m_done (ps_pool (pool_step lbl s)) = true.
Proof.
  intros Hd. destruct lbl as [t|n|k|]; unfold pool_step; try done.
  - by destruct (ps_inflight s !! n) as [[idx t]|].
  - destruct (ps_workers s !! k) as [[c|t]|]; try done.
    destruct (worker_loop k c (ps_pool s)) as [r p'] eqn:Hwl.
    apply worker_loop_spec in Hwl as (_ & ? & _). simpl. congruence.
Qed.

Lemma pool_run_done_stays sched s :
  m_done (ps_pool s) = true -> m_done (ps_pool (pool_run sched s)) = true.
Proof.
  revert s. induction sched as [|lbl sched IH]; intros s Hd; [done|].
  simpl. by apply IH, pool_step_done_stays.
Qed.

Lemma pool_step_rank lbl s k w :
  m_done (ps_pool s) = true -> ps_workers s !! k = Some w ->
  exists w', ps_workers (pool_step lbl s) !! k = Some w' /\
    (exit_rank (pool_width (ps_pool s)) w'
     <= exit_rank (pool_width (ps_pool s)) w - steps_of k [lbl])%nat.
Proof.
  intros Hd Hk.
  assert (Hlt : (k < length (ps_workers s))%nat) by eauto using lookup_lt_Some.
  destruct lbl as [t|n|k'|]; unfold pool_step, steps_of; simpl.
  - exists w. split; [done|lia].
  - exists w. split; [by destruct (ps_inflight s !! n) as [[idx t]|]|lia].
  - destruct (decide (k' = k)) as [->|Hne].
    + rewrite Hk. destruct w as [c|t].
      * destruct (worker_loop k c (ps_pool s)) as [r p'] eqn:Hwl.
        eexists. split; [by apply list_lookup_insert_eq|].
        pose proof (worker_loop_done_rank _ _ _ _ _ Hd Hwl). simpl in *. lia.
      * eexists. split; [by apply list_lookup_insert_eq|]. simpl. lia.
    + exists w. split; [|lia].
      destruct (ps_workers s !! k') as [[c|t]|]; try done.
      * destruct (worker_loop k' c (ps_pool s)) as [r p'].
        simpl. by rewrite list_lookup_insert_ne.
      * simpl. by rewrite list_lookup_insert_ne.
  - exists w. split; [done|lia].
Qed.

Lemma pool_run_rank sched s k w :
  m_done (ps_pool s) = true -> ps_workers s !! k = Some w ->
  exists w', ps_workers (pool_run sched s) !! k = Some w' /\
    (exit_rank (pool_width (ps_pool s)) w'
     <= exit_rank (pool_width (ps_pool s)) w - steps_of k sched)%nat.
Proof.
  revert s w. induction sched as [|lbl sched IH]; intros s w Hd Hk.
  - exists w. split; [done|]. unfold steps_of. simpl. lia.
  - destruct (pool_step_rank lbl s k w Hd Hk) as (w1 & Hk1 & Hr1).
    destruct (IH (pool_step lbl s) w1 (pool_step_done_stays _ _ Hd) Hk1)
      as (w' & Hk' & Hr').
    rewrite pool_step_width in Hr'.
    exists w'. split; [done|]. unfold steps_of in *. simpl in *. lia.
Qed.

(** X2.  The destructor's store is final and makes every worker leave.
    Once [m_done] is set it is never reset, whatever is submitted or run
    afterwards; a worker that has left its loop stays out; and every
    worker has left [worker_loop] after at most [N + 4] further steps of
    its own (one step being one load of [m_done], one locked queue
    operation, one return from [wait_for] or the call of one task),
    whatever the other threads do in the meantime.  [N + 4] is the way of
    a worker that had read [m_done] as [false] just before the store: its
    pop, [N] attempts to steal, the test that ends the scan, the wait and
    the load that ends the loop. *)
Theorem workers_exit_after_shutdown
    (n k : nat) (before after : list (pool_label T)) :
  let s := pool_run before (pool_init n) in
  m_done (ps_pool s) = true ->
  (k < pool_size n)%nat ->
  m_done (ps_pool (pool_run after s)) = true /\
  (ps_workers s !! k = Some (Seek Exited) ->
   ps_workers (pool_run after s) !! k = Some (Seek Exited)) /\
  ((pool_size n + 4 <= steps_of k after)%nat ->
   ps_workers (pool_run after s) !! k = Some (Seek Exited)).
Proof.
  intros s Hd Hk.
  pose proof (pool_run_inv before _ (pool_init_inv n)) as [Hw _ _ _ _].
  fold s in Hw.
  assert (HK : pool_width (ps_pool s) = pool_size n).
  { unfold s. rewrite pool_run_width. unfold pool_init, new_pool, pool_width.
    simpl. by rewrite length_replicate. }
  destruct (lookup_lt_is_Some_2 (ps_workers s) k) as [w Hwk]; [lia|].
  destruct (pool_run_rank after s k w Hd Hwk) as (w' & Hk' & Hr).
  split_and!.
  - by apply pool_run_done_stays.
  - intros Hex. rewrite Hwk in Hex. simplify_eq. simpl in Hr.
    rewrite Hk'. f_equal. apply (exit_rank_zero (pool_width (ps_pool s))).
    lia.
  - intros Hsteps. rewrite Hk'. f_equal.
    apply (exit_rank_zero (pool_width (ps_pool s))).
    pose proof (exit_rank_bound (pool_width (ps_pool s)) w). lia.
Qed.

(** A worker that is about to load [m_done], is inside [wait_for], or
    has left its loop: it is not calling a task, not about to pop after
    having read [m_done] as [false], and not in a stealing scan. *)
Definition parked w : bool :=
  match w with
  | Seek LoopTop | Seek Waiting | Seek Exited => true
  | _ => false
  end.

Lemma pool_step_parked lbl s :
  pool_inv s -> m_done (ps_pool s) = true ->
  Forall (λ w, parked w = true) (ps_workers s) ->
  Forall (λ w, parked w = true) (ps_workers (pool_step lbl s)) /\
  ps_executed (pool_step lbl s) = ps_executed s /\
  queued (ps_pool s) ⊆+ queued (ps_pool (pool_step lbl s)).
Proof.
  intros [_ _ Hin _ _] Hd Hp.
  destruct lbl as [t|n|k|]; unfold pool_step; try done.
  - destruct (ps_inflight s !! n) as [[idx t]|] eqn:Hn; [|done]. simpl.
    split_and!; try done.
    assert (Hidx : (idx < pool_width (ps_pool s))%nat).
    { eapply Forall_forall in Hin; [|by eapply list_elem_of_lookup_2].
      done. }
    destruct (push_front_spec idx t (ps_pool s) Hidx) as (Hq & _).
    rewrite Hq. by apply submseteq_cons.
  - destruct (ps_workers s !! k) as [[c|t]|] eqn:Hk; [| |done].
    + pose proof (proj1 (Forall_forall _ _) Hp _
                    (list_elem_of_lookup_2 _ _ _ Hk)) as Hc.
      unfold worker_loop. rewrite Hd.
      destruct c as [| |i| |]; try done; simpl;
        (split_and!; [by apply Forall_insert_2|done|done]).
    + pose proof (proj1 (Forall_forall _ _) Hp _
                    (list_elem_of_lookup_2 _ _ _ Hk)) as Hc.
      done.
Qed.

(** X3.  The destructor does not drain the queues.  If, when [m_done] is
    set, every worker is about to load [m_done], is inside [wait_for] or
    has left its loop (so none is calling a task, is in a stealing scan, or
    has read [m_done] as [false] and not yet made its pop), then no task is
    executed ever after: whatever is queued then, or is pushed later, stays
    in its queue, and every worker stays parked. *)
Theorem shutdown_abandons_queued_tasks
    (n : nat) (before after : list (pool_label T)) :
  let s := pool_run before (pool_init n) in
  m_done (ps_pool s) = true ->
  Forall (λ w, parked w = true) (ps_workers s) ->
  let s' := pool_run after s in
  ps_executed s' = ps_executed s /\
  queued (ps_pool s) ⊆+ queued (ps_pool s') /\
  Forall (λ w, parked w = true) (ps_workers s').
Proof.
  intros s Hd Hp.
  pose proof (pool_run_inv before _ (pool_init_inv n)) as Hinv. fold s in Hinv.
  clearbody s. revert s Hd Hp Hinv.
  induction after as [|lbl after IH]; intros s Hd Hp Hinv; [done|].
  destruct (pool_step_parked lbl s Hinv Hd Hp) as (Hp1 & He1 & Hq1).
  destruct (IH (pool_step lbl s) (pool_step_done_stays _ _ Hd) Hp1
              (pool_step_inv _ _ Hinv)) as (He & Hq & Hp').
  simpl. split_and!; [congruence|by etrans|done].
Qed.

End Shutdown.

Lemma workers_exit_after_shutdown_witness :
  m_done (ps_pool (pool_run [Reserve 7%nat; Land 0; Work 1; Shutdown]
                            (pool_init 2))) = true /\
  (1 < pool_size 2)%nat /\
  (pool_size 2 + 4 <= steps_of (T := nat) 1 (replicate 6 (Work 1)))%nat /\
  ps_workers (pool_run (replicate 6 (Work 1))
                (pool_run [Reserve 7%nat; Land 0; Work 1; Shutdown]
                          (pool_init 2))) !! 1%nat
  = Some (Seek Exited).
Proof.
  assert (H1 : m_done (ps_pool (pool_run
             [Reserve 7%nat; Land 0; Work 1; Shutdown] (pool_init 2))) = true)
    by reflexivity.
  assert (H2 : (1 < pool_size 2)%nat) by (vm_compute; lia).
  assert (H3 : (pool_size 2 + 4
                <= steps_of (T := nat) 1 (replicate 6 (Work 1)))%nat)
    by (vm_compute; lia).
  split; [exact H1|]. split; [exact H2|]. split; [exact H3|].
  destruct (workers_exit_after_shutdown 2 1
              [Reserve 7%nat; Land 0; Work 1; Shutdown]
              (replicate 6 (Work 1)) H1 H2) as (_ & _ & Hex).
  exact (Hex H3).
Defined.

Lemma shutdown_abandons_queued_tasks_witness :
  m_done (ps_pool (pool_run [Reserve 7%nat; Land 0; Shutdown]
                            (pool_init 2))) = true /\
  Forall (λ w, parked w = true)
    (ps_workers (pool_run [Reserve 7%nat; Land 0; Shutdown] (pool_init 2))) /\
  ps_executed (pool_run [Work 0; Work 1; Work 0; Work 1]
                 (pool_run [Reserve 7%nat; Land 0; Shutdown] (pool_init 2)))
  = [].
Proof.
  assert (H1 : m_done (ps_pool (pool_run
             [Reserve 7%nat; Land 0; Shutdown] (pool_init 2))) = true)
    by reflexivity.
  assert (H2 : Forall (λ w, parked w = true)
    (ps_workers (pool_run [Reserve 7%nat; Land 0; Shutdown] (pool_init 2))))
    by (vm_compute; repeat constructor).
  split; [exact H1|]. split; [exact H2|].
  apply (shutdown_abandons_queued_tasks 2
           [Reserve 7%nat; Land 0; Shutdown]
           [Work 0; Work 1; Work 0; Work 1] H1 H2).
Defined.

(* --------------------------------------------------------------------- *)
(** ** A worker looking for work                                          *)
(* --------------------------------------------------------------------- *)

Section Seeking.
Context {T : Type}.
Implicit Types (s : pool_sys T) (w : pworker T) (p : ThreadPool T)
  (c : seek).

(** The state [s] with worker [k] put at the control point [c]. *)
Definition seek_at (k : nat) c s : pool_sys T :=
  mkPoolSys (ps_pool s) (<[k := Seek c]> (ps_workers s)) (ps_inflight s)
            (ps_submitted s) (ps_executed s).

(** The control point that follows [c] when every attempt fails. *)
Definition idle_next (K : nat) c : seek :=
  match c with
  | LoopTop => Popping
  | Popping => Stealing 0
  | Stealing i => if decide (i < K)%nat then Stealing (S i) else Waiting
  | Waiting => LoopTop
  | Exited => Exited
  end.

Fixpoint idle_after (K j : nat) c : seek :=
  match j with
  | O => c
  | S j' => idle_after K j' (idle_next K c)
  end.

Lemma seek_at_id k c s : ps_workers s !! k = Some (Seek c) -> seek_at k c s = s.
Proof.
  intros H. destruct s as [p ws fl sub ex]. unfold seek_at. simpl in *.
  by rewrite list_insert_id.
Qed.

Lemma seek_at_twice k c c' s : seek_at k c (seek_at k c' s) = seek_at k c s.
Proof. unfold seek_at. simpl. by rewrite list_insert_insert_eq. Qed.

Lemma queued_empty_lookup p i q :
  queued p = [] -> m_queues p !! i = Some q -> q = [].
Proof.
  unfold queued. intros H Hi.
  apply (take_drop_middle _ _ _) in Hi. rewrite <- Hi in H.
  rewrite concat_app in H. simpl in H.
  apply app_eq_nil in H as [_ H]. by apply app_eq_nil in H as [H _].
Qed.

Lemma worker_loop_idle my c p :
  queued p = [] -> m_done p = false ->
  worker_loop my c p = (Next (idle_next (pool_width p) c), p).
Proof.
  intros Hq Hd. unfold worker_loop, idle_next, pool_width.
  destruct c as [| |i| |]; try done.
  - by rewrite Hd.
  - assert (try_pop_from_queue my p = None) as ->; [|done].
    apply try_pop_none. destruct (m_queues p !! my) as [q|] eqn:Hm; auto.
    right. f_equal. by eapply queued_empty_lookup.
  - case_decide; [|done].
    assert (try_steal_from_queue (steal_index p my i) p = None) as ->; [|done].
    apply try_steal_none.
    destruct (m_queues p !! steal_index p my i) as [q|] eqn:Hm; auto.
    right. f_equal. by eapply queued_empty_lookup.
Qed.

Lemma pool_step_idle k c s :
  queued (ps_pool s) = [] -> m_done (ps_pool s) = false ->
  (k < length (ps_workers s))%nat ->
  pool_step (Work k) (seek_at k c s)
  = seek_at k (idle_next (pool_width (ps_pool s)) c) s.
Proof.
  intros Hq Hd Hk. unfold pool_step, seek_at at 1 2 3. simpl.
  rewrite list_lookup_insert_eq by done.
  rewrite worker_loop_idle by done.
  unfold seek_at. simpl. by rewrite list_insert_insert_eq.
Qed.

Lemma pool_run_cons lbl (sched : list (pool_label T)) s :
  pool_run (lbl :: sched) s = pool_run sched (pool_step lbl s).
Proof. reflexivity. Qed.

Lemma pool_run_idle j k c s :
  queued (ps_pool s) = [] -> m_done (ps_pool s) = false ->
  (k < length (ps_workers s))%nat ->
  pool_run (replicate j (Work k)) (seek_at k c s)
  = seek_at k (idle_after (pool_width (ps_pool s)) j c) s.
Proof.
  intros Hq Hd Hk. revert c. induction j as [|j IH]; intros c; [done|].
  cbn [replicate idle_after]. rewrite pool_run_cons, pool_step_idle by done.
  apply IH.
Qed.

Lemma idle_after_app K i j c :
  idle_after K (i + j) c = idle_after K j (idle_after K i c).
Proof. revert c. induction i as [|i IH]; intros c; [done|]. simpl. apply IH. Qed.

Lemma idle_after_scan K i j :
  (i + j <= K)%nat -> idle_after K j (Stealing i) = Stealing (i + j).
Proof.
  revert i. induction j as [|j IH]; intros i Hij; simpl.
  - f_equal. lia.
  - rewrite decide_True by lia. rewrite IH by lia. f_equal. lia.
Qed.

Lemma idle_after_cycle K :
  idle_after K (K + 3) LoopTop = Waiting /\
  idle_after K (K + 4) LoopTop = LoopTop.
Proof.
  assert (H : idle_after K (S (S K)) LoopTop = Stealing K).
  { simpl. by rewrite idle_after_scan by lia. }
  split.
  - replace (K + 3)%nat with (S (S K) + 1)%nat by lia.
    rewrite idle_after_app, H. simpl. by rewrite decide_False by lia.
  - replace (K + 4)%nat with (S (S K) + 2)%nat by lia.
    rewrite idle_after_app, H. simpl. by rewrite decide_False by lia.
Qed.

(** X5.  A worker that finds nothing changes nothing.  In a running pool
    whose queues are all empty, a worker at the top of its loop loads
    [m_done], tries its own queue, then all [N] queues of the stealing
    scan, reaches [wait_for] after [N + 3] steps and is back at the top of
    the loop after [N + 4], the whole state being then exactly what it was;
    and however long it goes on, the queues, [m_index] and [m_done] stay as
    they are and nothing is executed. *)
Theorem idle_worker_polls_without_effect (k : nat) s :
  ps_workers s !! k = Some (Seek LoopTop) ->
  m_done (ps_pool s) = false ->
  queued (ps_pool s) = [] ->
  let K := pool_width (ps_pool s) in
  ps_workers (pool_run (replicate (K + 3) (Work k)) s) !! k
    = Some (Seek Waiting) /\
  pool_run (replicate (K + 4) (Work k)) s = s /\
  forall j,
    ps_pool (pool_run (replicate j (Work k)) s) = ps_pool s /\
    ps_executed (pool_run (replicate j (Work k)) s) = ps_executed s.
Proof.
  intros Hk Hd Hq K.
  assert (Hlt : (k < length (ps_workers s))%nat) by eauto using lookup_lt_Some.
  assert (Hrun : forall j, pool_run (replicate j (Work k)) s
                           = seek_at k (idle_after K j LoopTop) s).
  { intros j. rewrite <- (seek_at_id k LoopTop s Hk) at 1.
    by apply pool_run_idle. }
  destruct (idle_after_cycle K) as [H2 H3].
  split_and!.
  - rewrite Hrun, H2. simpl. by apply list_lookup_insert_eq.
  - rewrite Hrun, H3. by apply seek_at_id.
  - intros j. by rewrite Hrun.
Qed.

(** The stealing scan reaches every queue. *)
Lemma steal_index_onto p my idx :
  (idx < pool_width p)%nat ->
  exists i, (i < pool_width p)%nat /\ steal_index p my i = idx.
Proof.
  unfold steal_index, pool_width. set (K := length (m_queues p)).
  intros Hidx. set (c := ((my + 1) `mod` K)%nat).
  assert (Hc : (c < K)%nat) by (apply Nat.mod_upper_bound; lia).
  assert (Hmod : forall i, ((my + 1 + i) `mod` K = (c + i) `mod` K)%nat).
  { intros i. unfold c. by rewrite Nat.Div0.add_mod_idemp_l. }
  destruct (decide (c <= idx)%nat).
  - exists (idx - c)%nat. split; [lia|]. rewrite Hmod.
    replace (c + (idx - c))%nat with idx by lia. by apply Nat.mod_small.
  - exists (idx + K - c)%nat. split; [lia|]. rewrite Hmod.
    replace (c + (idx + K - c))%nat with (idx + 1 * K)%nat by lia.
    rewrite Nat.Div0.mod_add. by apply Nat.mod_small.
Qed.

Lemma scan_finds k s : forall d i i0 t0 q0,
  (d = pool_width (ps_pool s) - i)%nat ->
  (k < length (ps_workers s))%nat ->
  (i <= i0 < pool_width (ps_pool s))%nat ->
  m_queues (ps_pool s) !! steal_index (ps_pool s) k i0 = Some (t0 :: q0) ->
  exists j t, (j <= d)%nat /\
    let s' := pool_run (replicate j (Work k)) (seek_at k (Stealing i) s) in
    ps_workers s' !! k = Some (Call t) /\
    queued (ps_pool s) ≡ₚ t :: queued (ps_pool s') /\
    ps_executed s' = ps_executed s.
Proof.
  induction d as [|d IH]; intros i i0 t0 q0 Hd Hk Hi Hq; [lia|].
  destruct (try_steal_from_queue (steal_index (ps_pool s) k i) (ps_pool s))
    as [[t p']|] eqn:Hst.
  - exists 1%nat, t. split; [lia|]. cbn [replicate]. rewrite pool_run_cons.
    unfold pool_run, foldl, pool_step, seek_at at 1 2. simpl.
    rewrite list_lookup_insert_eq by done. unfold worker_loop.
    rewrite decide_True by (unfold pool_width in *; lia). rewrite Hst. simpl.
    apply try_steal_spec in Hst as (Hperm & _).
    split_and!; [|done..].
    apply list_lookup_insert_eq. by rewrite length_insert.
  - assert (i <> i0).
    { intros ->. apply try_steal_none in Hst as [Hst|Hst]; congruence. }
    destruct (IH (S i) i0 t0 q0) as (j & t & Hj & Hres); [lia|done|lia|done|].
    exists (S j), t. split; [lia|].
    assert (Hstep : pool_step (Work k) (seek_at k (Stealing i) s)
                    = seek_at k (Stealing (S i)) s).
    { unfold pool_step, seek_at at 1 2 3. simpl.
      rewrite list_lookup_insert_eq by done. unfold worker_loop.
      rewrite decide_True by (unfold pool_width in *; lia). rewrite Hst.
      unfold seek_at. simpl. by rewrite list_insert_insert_eq. }
    cbn [replicate]. rewrite pool_run_cons, Hstep. exact Hres.
Qed.

(** X6.  No task can hide from a worker.  In a running pool in which some
    queue holds a task, a worker at the top of its loop that is left to
    run calls a task after at most [N + 2] steps of its own: it loads
    [m_done], then pops its own queue, or else its scan finds the first
    non-empty queue.  The task it calls is one of the queued ones, it is
    removed from the queues, and nothing has been executed in between. *)
Theorem seeking_worker_finds_a_task (k : nat) s :
  ps_workers s !! k = Some (Seek LoopTop) ->
  m_done (ps_pool s) = false ->
  queued (ps_pool s) <> [] ->
  exists j t, (2 <= j <= pool_width (ps_pool s) + 2)%nat /\
    let s' := pool_run (replicate j (Work k)) s in
    ps_workers s' !! k = Some (Call t) /\
    queued (ps_pool s) ≡ₚ t :: queued (ps_pool s') /\
    ps_executed s' = ps_executed s.
Proof.
  intros Hk Hd Hq.
  assert (Hlt : (k < length (ps_workers s))%nat) by eauto using lookup_lt_Some.
  assert (Hstep0 : pool_step (Work k) s = seek_at k Popping s).
  { unfold pool_step. rewrite Hk. unfold worker_loop. by rewrite Hd. }
  destruct (try_pop_from_queue k (ps_pool s)) as [[t p']|] eqn:Hpop.
  - exists 2%nat, t. split; [lia|]. cbn [replicate].
    rewrite !pool_run_cons, Hstep0.
    unfold pool_run, foldl, pool_step, seek_at at 1 2. simpl.
    rewrite list_lookup_insert_eq by done.
    unfold worker_loop. rewrite Hpop. simpl.
    apply try_pop_spec in Hpop as (Hperm & _).
    split_and!; [|done..].
    apply list_lookup_insert_eq. by rewrite length_insert.
  - destruct (concat_nonempty _ Hq) as (idx & t0 & q0 & Hidx).
    destruct (steal_index_onto (ps_pool s) k idx) as (i0 & Hi0 & Hsi).
    { unfold pool_width. eauto using lookup_lt_Some. }
    destruct (scan_finds k s (pool_width (ps_pool s)) 0 i0 t0 q0)
      as (j & t & Hj & Hres); [lia|done|lia|by rewrite Hsi|].
    exists (S (S j)), t. split; [lia|].
    assert (Hstep : pool_step (Work k) (seek_at k Popping s)
                    = seek_at k (Stealing 0) s).
    { unfold pool_step, seek_at at 1 2 3. simpl.
      rewrite list_lookup_insert_eq by done. unfold worker_loop.
      rewrite Hpop. unfold seek_at. simpl.
      by rewrite list_insert_insert_eq. }
    cbn [replicate]. rewrite !pool_run_cons, Hstep0, Hstep. exact Hres.
Qed.

End Seeking.

Lemma idle_worker_polls_without_effect_witness :
  ps_workers (pool_init (T := nat) 3) !! 1%nat = Some (Seek LoopTop) /\
  m_done (ps_pool (pool_init (T := nat) 3)) = false /\
  queued (ps_pool (pool_init (T := nat) 3)) = [] /\
  pool_run (replicate (pool_width (ps_pool (pool_init (T := nat) 3)) + 4)
              (Work 1)) (pool_init (T := nat) 3)
  = pool_init 3.
Proof.
  assert (H1 : ps_workers (pool_init (T := nat) 3) !! 1%nat
               = Some (Seek LoopTop)) by reflexivity.
  assert (H2 : m_done (ps_pool (pool_init (T := nat) 3)) = false)
    by reflexivity.
  assert (H3 : queued (ps_pool (pool_init (T := nat) 3)) = []) by reflexivity.
  split; [exact H1|]. split; [exact H2|]. split; [exact H3|].
  apply (idle_worker_polls_without_effect 1 (pool_init 3) H1 H2 H3).
Defined.

Lemma seeking_worker_finds_a_task_witness :
  ps_workers (pool_run [Reserve 7%nat; Land 0] (pool_init 3)) !! 1%nat
    = Some (Seek LoopTop) /\
  m_done (ps_pool (pool_run [Reserve 7%nat; Land 0] (pool_init 3))) = false /\
  queued (ps_pool (pool_run [Reserve 7%nat; Land 0] (pool_init 3))) <> [] /\
  exists j t, (2 <= j <= 3 + 2)%nat /\
    ps_workers (pool_run (replicate j (Work 1))
                  (pool_run [Reserve 7%nat; Land 0] (pool_init 3))) !! 1%nat
    = Some (Call t).
Proof.
  assert (H1 : ps_workers (pool_run [Reserve 7%nat; Land 0] (pool_init 3))
                 !! 1%nat = Some (Seek LoopTop)) by reflexivity.
  assert (H2 : m_done (ps_pool (pool_run [Reserve 7%nat; Land 0]
                                  (pool_init 3))) = false) by reflexivity.
  assert (H3 : queued (ps_pool (pool_run [Reserve 7%nat; Land 0]
                                  (pool_init 3))) <> [])
    by (vm_compute; discriminate).
  split; [exact H1|]. split; [exact H2|]. split; [exact H3|].
  destruct (seeking_worker_finds_a_task 1
              (pool_run [Reserve 7%nat; Land 0] (pool_init 3)) H1 H2 H3)
    as (j & t & Hj & Hw & _).
  exists j, t. split; [exact Hj|exact Hw].
Defined.


(* ===================================================================== *)
(** * Part VI.  Further properties of the fork-join state                 *)
(* ===================================================================== *)

Section TaskTreeInvariants.
Context {E : Type}.
Implicit Types (root : jtree E) (s : jt_sys E).

Lemma jt_run_shape sched s : shape s -> shape (jt_run sched s).
Proof.
  revert s. induction sched as [|lbl sched IH]; intros s Hs; [done|].
  simpl. apply IH. by apply step_shape.
Qed.

Lemma jt_run_work sched s :
  shape s ->
  (work jt_start jt_wcont (jt_run sched s) <= work jt_start jt_wcont s)%nat.
Proof.
  revert s. induction sched as [|lbl sched IH]; intros s Hs; [done|].
  simpl. etrans; [apply IH; by apply step_shape|].
  by apply (step_work jt_start jt_body jt_wcont jt_wcont_pos
              jt_wcont_continue jt_wcont_fork).
Qed.

Lemma jt_pending_bound n root sched :
  (pending (jt_run sched (jt_async n root)) < 2 * jt_size root)%nat.
Proof.
  pose proof (jt_run_work sched (jt_async n root) (init_shape _ _ _)) as Hw.
  unfold jt_async in Hw at 2. rewrite init_work, jt_wcont_start in Hw.
  pose proof (pending_work jt_start jt_wcont jt_wcont_pos
                (jt_run sched (jt_async n root))).
  pose proof (jt_weight_size root). lia.
Qed.

(** X9.  The counter of the [QuicksortState] counts the unfinished tasks:
    in every state of every run of a task tree of at most 2^30 jobs it is
    the number of jobs for which [spawn_task_in_pool] has done its
    [fetch_add] and whose wrapper has not yet done its [fetch_sub]; it is
    never negative and never wraps around. *)
Theorem counter_counts_unfinished_tasks
    (n : nat) root (sched : list label) :
  Z.of_nat (jt_size root) <= 2 ^ 30 ->
  let s := jt_run sched (jt_async n root) in
  counter (sys_state s) = Z.of_nat (pending s) /\
  0 <= counter (sys_state s) < 2 ^ 31.
Proof.
  intros Hb s.
  assert (Hs : jt_sane s) by (apply jt_run_sane; lia).
  destruct Hs as (_ & Hfj & _).
  pose proof (jt_pending_bound n root sched) as Hp. fold s in Hp.
  assert (Hc : counter (sys_state s) = wrap_int (Z.of_nat (pending s))).
  { unfold fj_inv, fj_inv_on, aux_of in Hfj. tauto. }
  rewrite wrap_int_small in Hc by lia. lia.
Qed.

Lemma sum_list_with_elem {A} (f : A -> nat) (l : list A) x :
  sum_list_with f l = 0%nat -> x ∈ l -> f x = 0%nat.
Proof.
  induction l as [|y l IH]; simpl; intros H Hx; [by apply elem_of_nil in Hx|].
  apply elem_of_cons in Hx as [->|Hx]; [lia|]. apply IH; [lia|done].
Qed.

(** X10.  When the future is ready the fork-join has nothing left to
    do: no job is left in any queue, the thread that called
    [quicksort_async] has finished spawning, the counter is 0, and no
    worker is at a program point of a wrapper from which it will still
    touch the state or run a body (it is not in a body, not in a spawn, not
    in the [catch] block, not before its [fetch_sub], not before the call
    on the promise) and none has died.  A worker may still be returning
    from the lambda, which touches nothing shared.  Destroying the pool
    after [fut.wait()] therefore abandons no job. *)
Theorem completion_is_quiescent (n : nat) root (sched : list label) :
  Z.of_nat (jt_size root) <= 2 ^ 31 ->
  let s := jt_run sched (jt_async n root) in
  is_Some (prom (sys_state s)) ->
  queued (sys_pool s) = [] /\
  sys_main s = MainWaiting /\
  counter (sys_state s) = 0 /\
  pending s = 0%nat /\
  (forall k a, sys_workers s !! k <> Some (Running a)) /\
  (forall k why, sys_workers s !! k <> Some (Crashed why)).
Proof.
  intros Hb s [r Hr].
  pose proof (jt_run_sane n root sched Hb) as (_ & Hfj & _ & _ & Hcr).
  fold s in Hfj, Hcr.
  destruct (fj_inv_set s r Hfj Hr) as (Hp0 & Hsets & Hhits & _ & _ & Hc & Hu).
  assert (Hfin : sum_list_with finalizing (items s) = 0%nat).
  { unfold fj_inv, fj_inv_on, aux_of in Hfj.
    destruct Hfj as (_ & Hh & _). rewrite Hsets, Hhits in Hh.
    cbn [length] in Hh. lia. }
  assert (Hworker : forall k w, sys_workers s !! k = Some w ->
                      IWorker w ∈ items s).
  { intros k w Hk. unfold items. apply elem_of_cons. right.
    apply elem_of_app. left. apply list_elem_of_fmap. exists w.
    split; [done|]. by eapply list_elem_of_lookup_2. }
  split_and!; [| |done|done| |].
  - destruct (queued (sys_pool s)) as [|j q] eqn:Hq; [done|].
    assert (Hin : IQueued j ∈ items s).
    { unfold items. rewrite Hq. apply elem_of_cons. right.
      apply elem_of_app. right. rewrite fmap_cons. by left. }
    pose proof (sum_list_with_elem _ _ _ Hp0 Hin). done.
  - assert (Hin : IMain (sys_main s) ∈ items s) by (unfold items; by left).
    pose proof (sum_list_with_elem _ _ _ Hp0 Hin) as H1.
    pose proof (sum_list_with_elem _ _ _ Hu Hin) as H2.
    by destruct (sys_main s) as [[]|].
  - intros k a Hk. pose proof (Hworker _ _ Hk) as Hin.
    pose proof (sum_list_with_elem _ _ _ Hp0 Hin) as H1.
    pose proof (sum_list_with_elem _ _ _ Hfin Hin) as H2.
    destruct a as [c|[] j c|e| |]; simpl in *; done.
  - intros k why Hk. pose proof (Hworker _ _ Hk) as Hin.
    pose proof (sum_list_with_elem _ _ _ Hcr Hin) as H3. done.
Qed.

End TaskTreeInvariants.

Lemma counter_counts_unfinished_tasks_witness :
  Z.of_nat (jt_size demo_tree) <= 2 ^ 30 /\
  counter (sys_state (jt_run demo_schedule (jt_async 2 demo_tree)))
  = Z.of_nat (pending (jt_run demo_schedule (jt_async 2 demo_tree))).
Proof.
  assert (H : Z.of_nat (jt_size demo_tree) <= 2 ^ 30)
    by (vm_compute; discriminate).
  split; [exact H|].
  apply (counter_counts_unfinished_tasks 2 demo_tree demo_schedule H).
Defined.

(** A schedule that runs [demo_tree] to completion on two workers. *)
Definition demo_complete : list label :=
  demo_schedule ++ replicate 40 (Worker 0) ++ replicate 40 (Worker 1).

Lemma completion_is_quiescent_witness :
  Z.of_nat (jt_size demo_tree) <= 2 ^ 31 /\
  is_Some (prom (sys_state (jt_run demo_complete (jt_async 2 demo_tree)))) /\
  queued (sys_pool (jt_run demo_complete (jt_async 2 demo_tree))) = [].
Proof.
  assert (H1 : Z.of_nat (jt_size demo_tree) <= 2 ^ 31)
    by (vm_compute; discriminate).
  assert (H2 : is_Some (prom (sys_state
             (jt_run demo_complete (jt_async 2 demo_tree)))))
    by (vm_compute; eauto).
  split; [exact H1|]. split; [exact H2|].
  apply (completion_is_quiescent 2 demo_tree demo_complete H1 H2).
Defined.


(* ===================================================================== *)
(** * Part VII.  Further properties of the sort                           *)
(* ===================================================================== *)

(** ** One activation *)

Lemma handed_on_within threshold a left right act :
  quicksort_job threshold a left right = Some act ->
  Forall (within left right) (handed_on act).
Proof.
  intros Hq.
  destruct (quicksort_job_cases _ _ _ _ _ Hq)
    as [(-> & _)|(p & l & r & _ & _ & Hpd & -> & _)]; [done|].
  destruct Hpd as [_ _ _ _ _ Hl Hr _ _].
  repeat constructor; simpl; lia.
Qed.

(** X12.  The recursion of [quicksort_job] is well founded and stays
    inside its range: every range an activation hands on, to the pool or to
    a recursive call, lies within [left, right] and is strictly shorter,
    there are at most two of them, and a range of at most [tiny + 1]
    elements hands on none. *)
Theorem quicksort_job_hands_on_smaller_ranges
    (threshold : Z) (a : list Z) (left right : Z) (act : activation) :
  quicksort_job threshold a left right = Some act ->
  Forall (λ rg, left <= rg.1 /\ rg.2 <= right
                /\ rg.2 - rg.1 < right - left) (handed_on act) /\
  (length (handed_on act) <= 2)%nat /\
  (right - left <= tiny -> handed_on act = []).
Proof.
  intros Hq.
  destruct (quicksort_job_cases _ _ _ _ _ Hq)
    as [(Hnil & Hsmall & _)|(p & l & r & Hbig & _ & Hpd & Hperm & Hlen & _)].
  - rewrite Hnil. split_and!; [constructor|simpl; lia|done].
  - split_and!; [|lia|lia].
    rewrite Hperm. destruct Hpd as [_ _ _ _ Hcross Hl Hr _ _].
    repeat constructor; simpl; lia.
Qed.

Lemma quicksort_job_hands_on_smaller_ranges_witness :
  quicksort_job 100 long_array 0 1199 = Some long_activation /\
  (length (handed_on long_activation) <= 2)%nat.
Proof.
  assert (H : quicksort_job 100 long_array 0 1199 = Some long_activation)
    by (vm_compute; reflexivity).
  split; [exact H|].
  apply (quicksort_job_hands_on_smaller_ranges 100 long_array 0 1199
           long_activation H).
Defined.

(** ** Equal keys *)

Section EqualKeys.
Context (a : list Z) (left right p : Z).
Hypothesis all_p : forall i, left <= i <= right -> get a i = Some p.
Hypothesis right_max : right < LONG_MAX.

Lemma scan_up_stops l :
  left <= l <= right -> scan_up (S (length a)) a p l = Some l.
Proof.
  intros Hl. simpl. rewrite all_p by done. simpl.
  by rewrite decide_False by lia.
Qed.

Lemma scan_down_stops r :
  left <= r <= right -> scan_down (S (length a)) a p r = Some r.
Proof.
  intros Hr. simpl. rewrite all_p by done. simpl.
  by rewrite decide_False by lia.
Qed.

Lemma swap_equal l r :
  left <= l <= right -> left <= r <= right -> swap a l r = Some a.
Proof.
  intros Hl Hr. unfold swap. rewrite !all_p by done. simpl.
  pose proof (all_p l Hl) as [? H1]%get_Some.
  pose proof (all_p r Hr) as [? H2]%get_Some.
  by rewrite (list_insert_id a (Z.to_nat l)), list_insert_id.
Qed.

Lemma partition_loop_equal fuel : forall l r,
  (Z.to_nat (r - l) < fuel)%nat -> left <= l -> l <= r -> r <= right ->
  exists l' r', partition_loop fuel a p l r = Some (a, l', r') /\
    l' + r' = l + r /\ 1 <= l' - r' <= 2.
Proof.
  induction fuel as [|f IH]; intros l r Hf Hl Hlr Hr; [lia|].
  pose proof (all_p l ltac:(lia)) as [? _]%get_Some.
  rewrite partition_loop_S, scan_up_stops, scan_down_stops by lia.
  cbn [mbind option_bind]. rewrite decide_True by done.
  rewrite swap_equal by lia. cbn [mbind option_bind].
  rewrite !long_add_total by (unfold LONG_MIN, LONG_MAX in *; lia).
  cbn [mbind option_bind]. case_decide as Hgo.
  - destruct (IH (l + 1) (r + -1)) as (l' & r' & -> & Hsum & Hd);
      [lia..|].
    exists l', r'. split; [done|lia].
  - exists (l + 1), (r + -1). split; [done|lia].
Qed.

End EqualKeys.

(** X15.  Equal keys do not degrade the partition.  On a range whose
    elements are all equal both scans stop at once, every iteration swaps
    and moves both indices, and the loop ends in the middle: the array is
    what it was and the two ranges handed on, [left, r] and [l, right],
    have the same length. *)
Theorem partition_of_equal_keys_is_balanced
    (a : list Z) (left right p : Z) :
  left <= right ->
  (forall i, left <= i <= right -> get a i = Some p) ->
  left + right <= LONG_MAX -> right < LONG_MAX ->
  exists l r,
    partition_range a left right = Some (a, l, r) /\
    r - left = right - l /\ 1 <= l - r <= 2.
Proof.
  intros Hlr Hall Hsum Hmax.
  pose proof (Hall left ltac:(lia)) as [Hl0 _]%get_Some.
  unfold partition_range, pivot_of.
  rewrite long_add_total by (unfold LONG_MIN; lia). cbn [mbind option_bind].
  rewrite Hall by (by apply quot2_between). cbn [mbind option_bind].
  destruct (partition_loop_equal a left right p Hall Hmax
              (S (Z.to_nat (right - left))) left right)
    as (l & r & Hp & Hs & Hd); [lia..|].
  exists l, r. split; [done|lia].
Qed.

Lemma partition_of_equal_keys_is_balanced_witness :
  1 <= 6 /\
  (forall i, 1 <= i <= 6 -> get [0; 4; 4; 4; 4; 4; 4; 9] i = Some 4) /\
  1 + 6 <= LONG_MAX /\ 6 < LONG_MAX /\
  exists l r,
    partition_range [0; 4; 4; 4; 4; 4; 4; 9] 1 6
    = Some ([0; 4; 4; 4; 4; 4; 4; 9], l, r) /\ r - 1 = 6 - l.
Proof.
  assert (H1 : 1 <= 6) by lia.
  assert (H2 : forall i, 1 <= i <= 6 ->
                 get [0; 4; 4; 4; 4; 4; 4; 9] i = Some 4).
  { intros i Hi.
    assert (i = 1 \/ i = 2 \/ i = 3 \/ i = 4 \/ i = 5 \/ i = 6)
      as [->|[->|[->|[->|[->| ->]]]]] by lia; reflexivity. }
  assert (H3 : 1 + 6 <= LONG_MAX) by (unfold LONG_MAX; lia).
  assert (H4 : 6 < LONG_MAX) by (unfold LONG_MAX; lia).
  split; [exact H1|]. split; [exact H2|]. split; [exact H3|].
  split; [exact H4|].
  destruct (partition_of_equal_keys_is_balanced
              [0; 4; 4; 4; 4; 4; 4; 9] 1 6 4 H1 H2 H3 H4)
    as (l & r & Hp & Hs & _).
  exists l, r. split; [exact Hp|exact Hs].
Defined.

(** ** The whole sort *)

Lemma units_worker {job cont exn mem : Type}
    (s : sys job cont exn mem) k w :
  sys_workers s !! k = Some w ->
  exists us, units s ≡ₚ unit_of (IWorker w) ++ us.
Proof.
  intros Hk. exists (rest_of_worker k s (queued (sys_pool s)) ≫= unit_of).
  unfold units. rewrite (items_worker _ _ _ Hk). by rewrite bind_cons.
Qed.

(** X11.  The parallel sort is memory safe.  For a range inside the array
    (and [2 * right] within a [long]) no thread ever runs into undefined
    behaviour, in any interleaving: no worker dies, and whenever a worker is
    about to run [quicksort_job] on a range, that range lies inside the
    array and the activation is defined, that is, all its array accesses
    are in bounds and its index arithmetic does not overflow. *)
Theorem parallel_quicksort_never_faults
    (threshold : Z) (n : nat) (a : list Z) (left right : Z)
    (sched : list label) :
  0 <= left -> right < Z.of_nat (length a) -> 2 * right <= LONG_MAX ->
  let s := qs_run threshold sched (qs_async n a left right) in
  (forall k w, sys_workers s !! k = Some w -> forall why, w <> Crashed why) /\
  (forall k lo hi rest,
     sys_workers s !! k = Some (Running (Body ((lo, hi) :: rest))) ->
     left <= lo /\ hi <= right /\ 0 <= lo /\ hi < Z.of_nat (length (sys_mem s))
     /\ exists act, quicksort_job threshold (sys_mem s) lo hi = Some act).
Proof.
  intros Hl Hr Hmax s.
  pose proof (qs_run_sane threshold n a left right Hl Hr Hmax sched)
    as (_ & _ & _ & HI & Hcr). fold s in HI, Hcr.
  split.
  - intros k w Hk. by eapply no_crashed_worker.
  - intros k lo hi rest Hk.
    destruct (units_worker s k _ Hk) as (us & Hus). simpl in Hus.
    apply (qs_Inv_perm _ _ _ _ _ _ Hus) in HI. destruct HI as [Hinv Hw].
    rewrite bind_cons in Hinv, Hw. cbn [ranges_of] in Hinv, Hw.
    rewrite <- app_comm_cons in Hinv, Hw.
    apply Forall_cons in Hw as [[H1 H2] _]. simpl in H1, H2.
    pose proof Hinv as [Hlen _ Hok _ _].
    apply Forall_cons in Hok as [(H3 & H4 & _) _]. simpl in H3, H4.
    destruct (qs_activation _ threshold _ _ _ _ Hinv) as (act & Hq & _).
    rewrite Hlen. split_and!; try done. by exists act.
Qed.

Lemma parallel_quicksort_never_faults_witness :
  0 <= 0 /\ 5 < Z.of_nat (length [5; 3; 8; 1; 9; 2]) /\ 2 * 5 <= LONG_MAX /\
  forall k w,
    sys_workers (qs_run 0 scenario_schedule
                   (qs_async 2 [5; 3; 8; 1; 9; 2] 0 5)) !! k = Some w ->
    forall why, w <> Crashed why.
Proof.
  assert (H0 : 0 <= 0) by lia.
  assert (H1 : 5 < Z.of_nat (length [5; 3; 8; 1; 9; 2])) by (simpl; lia).
  assert (H2 : 2 * 5 <= LONG_MAX) by (unfold LONG_MAX; lia).
  split; [exact H0|]. split; [exact H1|]. split; [exact H2|].
  apply (parallel_quicksort_never_faults 0 2 [5; 3; 8; 1; 9; 2] 0 5
           scenario_schedule H0 H1 H2).
Defined.

(** *** Below the threshold *)

Section BelowThreshold.
Context (threshold : Z) (L R : Z) (T : list Z).

(** The invariant of a sort that never spawns: besides [qs_Inv], every
    range still to be sorted is too short to be spawned, and there is at
    most one job or running body. *)
Definition seq_Inv (a : list Z) (us : list (@unit_ range (list range)))
  : Prop :=
  qs_Inv L R T a us /\
  Forall (λ rg : range, rg.2 - rg.1 <= threshold + 1) (us ≫= ranges_of) /\
  (length us <= 1)%nat.

Lemma seq_Inv_perm a us us' : us ≡ₚ us' -> seq_Inv a us -> seq_Inv a us'.
Proof.
  intros Hp (H1 & H2 & H3). split_and!.
  - by eapply qs_Inv_perm.
  - by rewrite <- Hp.
  - by rewrite <- Hp.
Qed.

Lemma seq_Inv_start a j us :
  seq_Inv a (UJob j :: us) -> seq_Inv a (UCont (qs_start j) :: us).
Proof. done. Qed.

Lemma quicksort_job_short a lo hi act :
  hi - lo <= threshold + 1 ->
  quicksort_job threshold a lo hi = Some act ->
  act_spawn act = None /\
  Forall (λ rg : range, rg.2 - rg.1 <= threshold + 1) (act_inline act).
Proof.
  intros Hshort Hq.
  pose proof (handed_on_within _ _ _ _ _ Hq) as Hsm.
  assert (Hsp : act_spawn act = None).
  { destruct (quicksort_job_cases _ _ _ _ _ Hq)
      as [(Hnil & _)|(p & l & r & _ & _ & Hpd & _ & _ & Hsp & _)].
    - unfold handed_on in Hnil. by destruct (act_spawn act).
    - destruct Hpd as [_ _ _ _ _ Hl' Hr' _ _].
      rewrite Hsp, !bool_decide_false by lia. done. }
  split; [done|].
  unfold handed_on in Hsm. rewrite Hsp in Hsm. simpl in Hsm.
  eapply Forall_impl; [exact Hsm|]. intros rg [? ?]. lia.
Qed.

Lemma seq_Inv_body a c us :
  seq_Inv a (UCont c :: us) ->
  match qs_body threshold a c with
  | Continue a' c' => seq_Inv a' (UCont c' :: us)
  | Fork a' j c' => seq_Inv a' (UJob j :: UCont c' :: us)
  | Return | Raise _ => seq_Inv a us
  | Fault => False
  end.
Proof.
  intros (H1 & H2 & H3).
  pose proof (qs_Inv_body threshold L R T a c us H1) as Hb.
  rewrite bind_cons in H2. cbn [ranges_of] in H2. simpl in H3.
  unfold qs_body in *. destruct c as [|[lo hi] rest].
  - apply Forall_app in H2 as [_ H2]. split_and!; [done|done|lia].
  - destruct (quicksort_job threshold a lo hi) as [act|] eqn:Hq; [|done].
    rewrite <- app_comm_cons in H2.
    apply Forall_cons in H2 as [Hshort H2]. simpl in Hshort.
    destruct (quicksort_job_short a lo hi act Hshort Hq) as [Hsp Hin].
    rewrite Hsp in *. split_and!; [done| |simpl; lia].
    rewrite bind_cons. cbn [ranges_of]. rewrite <- (assoc_L (++)).
    by apply Forall_app.
Qed.

End BelowThreshold.

(** X13.  A range of at most [threshold + 2] elements is sorted
    sequentially: apart from [quicksort_async], which spawns the root job,
    no call of [spawn_task_in_pool] is ever made, so no worker is ever
    inside one, at most one job is ever in the queues, and the result is
    the same sorted array. *)
Theorem sort_within_threshold_never_spawns
    (threshold : Z) (n : nat) (a : list Z) (left right : Z)
    (sched : list label) :
  0 <= left -> right < Z.of_nat (length a) -> 2 * right <= LONG_MAX ->
  right - left <= threshold + 1 ->
  let s := qs_run threshold sched (qs_async n a left right) in
  (forall k pc j c,
     sys_workers s !! k <> Some (Running (Spawning pc j c))) /\
  (forall k lo hi rest act,
     sys_workers s !! k = Some (Running (Body ((lo, hi) :: rest))) ->
     quicksort_job threshold (sys_mem s) lo hi = Some act ->
     act_spawn act = None) /\
  (length (queued (sys_pool s)) <= 1)%nat.
Proof.
  intros Hl Hr Hmax Hshort s.
  assert (Hs : sane qs_start qs_wcont
                 (seq_Inv threshold left right (baseline a left right)) s).
  { apply (run_sane qs_start (qs_body threshold) qs_wcont qs_wcont_pos
             (qs_wcont_continue threshold) (qs_wcont_fork threshold)
             (seq_Inv threshold left right (baseline a left right))
             (seq_Inv_perm threshold left right _)
             (seq_Inv_start threshold left right _)
             (seq_Inv_body threshold left right _)).
    apply init_sane; [by apply (qs_root_bound a)|].
    split_and!; [by apply qs_root_Inv| |simpl; lia].
    repeat constructor. simpl. lia. }
  destruct Hs as (_ & _ & _ & (HI & Hsm & Hlen) & _).
  split_and!.
  - intros k pc j c Hk.
    destruct (units_worker s k _ Hk) as (us & Hus).
    rewrite Hus in Hlen. simpl in Hlen. lia.
  - intros k lo hi rest act Hk Hq.
    destruct (units_worker s k _ Hk) as (us & Hus). simpl in Hus.
    rewrite Hus, bind_cons in Hsm. cbn [ranges_of] in Hsm.
    rewrite <- app_comm_cons in Hsm.
    apply Forall_cons in Hsm as [Hsh _]. simpl in Hsh.
    by destruct (quicksort_job_short threshold _ _ _ _ Hsh Hq).
  - assert (Hq : (length (queued (sys_pool s)) <= length (units s))%nat).
    { unfold units, items. rewrite bind_cons, bind_app, !length_app.
      assert (length ((IQueued <$> queued (sys_pool s)) ≫= unit_of)
              = length (queued (sys_pool s))) as ->; [|lia].
      induction (queued (sys_pool s)) as [|j q IH]; [done|].
      rewrite fmap_cons, bind_cons. simpl. by rewrite IH. }
    lia.
Qed.

Lemma sort_within_threshold_never_spawns_witness :
  0 <= 0 /\ 5 < Z.of_nat (length [5; 3; 8; 1; 9; 2]) /\ 2 * 5 <= LONG_MAX /\
  5 - 0 <= 4 + 1 /\
  (length (queued (sys_pool (qs_run 4%Z scenario_schedule
                               (qs_async 2 [5; 3; 8; 1; 9; 2]%Z 0%Z 5%Z))))
   <= 1)%nat.
Proof.
  assert (H0 : 0 <= 0) by lia.
  assert (H1 : 5 < Z.of_nat (length [5; 3; 8; 1; 9; 2])) by (simpl; lia).
  assert (H2 : 2 * 5 <= LONG_MAX) by (unfold LONG_MAX; lia).
  assert (H3 : 5 - 0 <= 4 + 1) by lia.
  split; [exact H0|]. split; [exact H1|]. split; [exact H2|].
  split; [exact H3|].
  apply (sort_within_threshold_never_spawns 4 2 [5; 3; 8; 1; 9; 2] 0 5
           scenario_schedule H0 H1 H2 H3).
Defined.

(** *** The call made by [main] *)

(** [constexpr long N = 1000000] and the threshold [main] passes to
    [quicksort_async(pool, arr1, 0, N-1, 100000)]. *)
Definition main_N : Z := 1000000.
Definition main_threshold : Z := 100000.

Lemma std_sort_whole (a : list Z) :
  std_sort a 0 (Z.of_nat (length a)) = Some (sort_list a).
Proof.
  unfold std_sort. rewrite decide_True by lia. f_equal.
  rewrite Z.sub_0_r, Nat2Z.id. simpl.
  by rewrite firstn_all, drop_all, app_nil_r.
Qed.

Lemma baseline_whole (a : list Z) :
  baseline a 0 (Z.of_nat (length a) - 1) = sort_list a.
Proof.
  unfold baseline. case_decide as Hn.
  - replace (Z.of_nat (length a) - 1 + 1) with (Z.of_nat (length a)) by lia.
    by rewrite std_sort_whole.
  - destruct a as [|x a]; [done|]. simpl in Hn. lia.
Qed.

(** X14.  Sorting a whole array as [main] does, with
    [quicksort_async(pool, arr, 0, N - 1, threshold)], [N] being the
    length of the array (0 included), gives what [std::sort(arr, arr + N)]
    gives on a copy: whenever the future is ready it holds no exception
    and the array is the sorted permutation of the input; while the pool
    is alive the future does become ready.  The [N] of [main] is within
    the bound under which the index arithmetic cannot overflow. *)
Theorem whole_array_sort_agrees_with_std_sort
    (threshold : Z) (n : nat) (a : list Z) (sched : list label) :
  2 * (Z.of_nat (length a) - 1) <= LONG_MAX ->
  let N := Z.of_nat (length a) in
  let s := qs_run threshold sched (qs_async n a 0 (N - 1)) in
  std_sort a 0 N = Some (sort_list a) /\
  (forall r, prom (sys_state s) = Some r ->
     r = Value /\ Some (sys_mem s) = std_sort a 0 N) /\
  (no_stop sched ->
   exists rest, no_stop rest /\
     prom (sys_state (qs_run threshold rest s)) = Some Value) /\
  Sorted Z.le (sort_list a) /\ sort_list a ≡ₚ a /\
  2 * (main_N - 1) <= LONG_MAX.
Proof.
  intros Hmax N s.
  assert (H0 : 0 <= 0) by lia.
  assert (Hr : N - 1 < Z.of_nat (length a)) by (unfold N; lia).
  pose proof (qs_run_sane threshold n a 0 (N - 1) H0 Hr Hmax sched) as Hs.
  fold s in Hs.
  split_and!.
  - apply std_sort_whole.
  - intros r Hp. destruct (qs_sane_done a 0 (N - 1) s r Hs Hp) as [-> Hm].
    split; [done|]. unfold N in *.
    by rewrite Hm, baseline_whole, std_sort_whole.
  - intros Hns.
    pose proof (qs_run_good threshold n a 0 (N - 1) H0 Hr Hmax sched Hns)
      as Hg.
    destruct (qs_completes threshold a 0 (N - 1) _ Hg) as (rest & Hnr & Hp).
    exists rest. split; [done|]. fold s in Hp.
    destruct (prom (sys_state (qs_run threshold rest s))) as [r|] eqn:Hpr;
      [|done].
    assert (Hs' : qs_sane 0 (N - 1) (baseline a 0 (N - 1))
                    (qs_run threshold rest s)) by (by apply qs_run_sane').
    by destruct (qs_sane_done a 0 (N - 1) _ r Hs' Hpr) as [-> _].
  - apply sort_list_sorted.
  - apply sort_list_perm.
  - unfold main_N, LONG_MAX. lia.
Qed.

Lemma whole_array_sort_agrees_with_std_sort_witness :
  2 * (Z.of_nat (length [5; 3; 8; 1; 9; 2]) - 1) <= LONG_MAX /\
  std_sort [5; 3; 8; 1; 9; 2] 0 (Z.of_nat (length [5; 3; 8; 1; 9; 2]))
  = Some (sort_list [5; 3; 8; 1; 9; 2]).
Proof.
  assert (H : 2 * (Z.of_nat (length [5; 3; 8; 1; 9; 2]) - 1) <= LONG_MAX)
    by (vm_compute; discriminate).
  split; [exact H|].
  apply (whole_array_sort_agrees_with_std_sort main_threshold 2
           [5; 3; 8; 1; 9; 2] scenario_schedule H).
Defined.

(** ** The domain of one activation *)

Lemma scan_up_first fuel a p l l1 :
  scan_up fuel a p l = Some l1 -> is_Some (get a l).
Proof.
  destruct fuel as [|f]; [done|]. simpl.
  destruct (get a l); [eauto|done].
Qed.

Lemma scan_down_first fuel a p r r1 :
  scan_down fuel a p r = Some r1 -> is_Some (get a r).
Proof.
  destruct fuel as [|f]; [done|]. simpl.
  destruct (get a r); [eauto|done].
Qed.

Lemma partition_loop_first fuel a p l r res :
  partition_loop fuel a p l r = Some res ->
  is_Some (get a l) /\ is_Some (get a r).
Proof.
  destruct fuel as [|f]; [done|]. rewrite partition_loop_S. intros H.
  destruct (scan_up _ a p l) as [l1|] eqn:Hl1; [|done].
  destruct (scan_down _ a p r) as [r1|] eqn:Hr1; [|done].
  split; [by eapply scan_up_first|by eapply scan_down_first].
Qed.

(** X16.  [quicksort_job] must be given a range of the array: whenever an
    activation on a range of more than one element is defined, that is,
    runs without undefined behaviour, both ends of the range are indices
    of the array and, if the range is partitioned, [left + right] fits a
    [long]. *)
Theorem quicksort_job_needs_a_range_of_the_array
    (threshold : Z) (a : list Z) (left right : Z) (act : activation) :
  quicksort_job threshold a left right = Some act ->
  left < right ->
  0 <= left /\ right < Z.of_nat (length a) /\
  (right - left > tiny -> LONG_MIN <= left + right <= LONG_MAX).
Proof.
  unfold quicksort_job. intros H Hlt.
  rewrite decide_False in H by lia. case_decide as Hsmall.
  - unfold std_sort in H. case_decide as Hb; [|done]. lia.
  - destruct (partition_range a left right) as [[[a' l] r]|] eqn:Hp; [|done].
    unfold partition_range, pivot_of in Hp.
    destruct (long_add left right) as [m|] eqn:Hm; [|done].
    apply long_add_Some in Hm as [-> Hm]. cbn [mbind option_bind] in Hp.
    destruct (get a _) as [p|]; [|done]. cbn [mbind option_bind] in Hp.
    apply partition_loop_first in Hp as [[x Hx] [y Hy]].
    apply get_bounds in Hx, Hy. lia.
Qed.

Lemma quicksort_job_needs_a_range_of_the_array_witness :
  quicksort_job 100 long_array 0 1199 = Some long_activation /\
  0 < 1199 /\
  0 <= 0 /\ 1199 < Z.of_nat (length long_array).
Proof.
  assert (H1 : quicksort_job 100 long_array 0 1199 = Some long_activation)
    by (vm_compute; reflexivity).
  assert (H2 : 0 < 1199) by lia.
  split; [exact H1|]. split; [exact H2|].
  destruct (quicksort_job_needs_a_range_of_the_array 100 long_array 0 1199
              long_activation H1 H2) as (H3 & H4 & _).
  split; [exact H3|exact H4].
Defined.

(** ** The elements of the array *)

Lemma std_sort_perm a first last a' :
  std_sort a first last = Some a' -> a' ≡ₚ a /\ length a' = length a.
Proof.
  intros H. pose proof H as H'. unfold std_sort in H'.
  case_decide as Hb; [|done]. clear H'.
  replace last with (last - 1 + 1) in H by lia.
  destruct (std_sort_spec a first (last - 1)) as (a'' & Ha & Hlen & Hperm & _);
    [lia..|].
  rewrite H in Ha. by simplify_eq.
Qed.

Lemma quicksort_job_perm threshold a lo hi act :
  quicksort_job threshold a lo hi = Some act ->
  act_array act ≡ₚ a /\ length (act_array act) = length a.
Proof.
  intros Hq. pose proof Hq as H. unfold quicksort_job in H.
  case_decide as Hge; [by simplify_eq|].
  case_decide as Hsmall.
  - destruct (std_sort a lo (hi + 1)) as [a'|] eqn:Hs; simplify_eq/=.
    by eapply std_sort_perm.
  - destruct (quicksort_job_cases _ _ _ _ _ Hq)
      as [(_ & ? & _)|(p & l & r & _ & _ & Hpd & _)]; [lia|].
    split; apply Hpd.
Qed.

Section Elements.
Context (threshold : Z) (a0 : list Z) (L R : Z) (T : list Z).

Definition perm_Inv (a : list Z) (us : list (@unit_ range (list range)))
  : Prop :=
  qs_Inv L R T a us /\ a ≡ₚ a0.

Lemma perm_Inv_perm a us us' : us ≡ₚ us' -> perm_Inv a us -> perm_Inv a us'.
Proof. intros Hp [H1 H2]. split; [by eapply qs_Inv_perm|done]. Qed.

Lemma perm_Inv_start a j us :
  perm_Inv a (UJob j :: us) -> perm_Inv a (UCont (qs_start j) :: us).
Proof. done. Qed.

Lemma perm_Inv_body a c us :
  perm_Inv a (UCont c :: us) ->
  match qs_body threshold a c with
  | Continue a' c' => perm_Inv a' (UCont c' :: us)
  | Fork a' j c' => perm_Inv a' (UJob j :: UCont c' :: us)
  | Return | Raise _ => perm_Inv a us
  | Fault => False
  end.
Proof.
  intros [H1 H2].
  pose proof (qs_Inv_body threshold L R T a c us H1) as Hb.
  unfold qs_body in *. destruct c as [|[lo hi] rest]; [done|].
  destruct (quicksort_job threshold a lo hi) as [act|] eqn:Hq; [|done].
  destruct (quicksort_job_perm _ _ _ _ _ Hq) as [Hp _].
  destruct (act_spawn act); (split; [done|by etrans]).
Qed.

End Elements.

(** X17.  The sort only rearranges.  One activation of [quicksort_job],
    whatever it is given, leaves an array with the elements it found, each
    as often, and of the same length.  And in the parallel sort, whenever
    no worker is in the middle of an activation (a partition or a
    [std::sort] counts as one step here, the ranges of the activations
    that are alive being disjoint), the array holds exactly the elements
    of the input and has the input's length: not only at the end. *)
Theorem array_is_a_permutation_between_activations
    (threshold : Z) (n : nat) (a : list Z) (left right : Z)
    (sched : list label) :
  0 <= left -> right < Z.of_nat (length a) -> 2 * right <= LONG_MAX ->
  let s := qs_run threshold sched (qs_async n a left right) in
  sys_mem s ≡ₚ a /\ length (sys_mem s) = length a /\
  (forall t m lo hi act,
     quicksort_job t m lo hi = Some act ->
     act_array act ≡ₚ m /\ length (act_array act) = length m).
Proof.
  intros Hl Hr Hmax s.
  assert (Hs : sane qs_start qs_wcont
                 (perm_Inv a left right (baseline a left right)) s).
  { apply (run_sane qs_start (qs_body threshold) qs_wcont qs_wcont_pos
             (qs_wcont_continue threshold) (qs_wcont_fork threshold)
             (perm_Inv a left right (baseline a left right))
             (perm_Inv_perm a left right _)
             (perm_Inv_start a left right _)
             (perm_Inv_body threshold a left right _)).
    apply init_sane; [by apply (qs_root_bound a)|].
    split; [by apply qs_root_Inv|done]. }
  destruct Hs as (_ & _ & _ & (_ & Hp) & _).
  split_and!; [done|by apply Permutation_length|].
  intros t m lo hi act Hq. by eapply quicksort_job_perm.
Qed.

Lemma array_is_a_permutation_between_activations_witness :
  0 <= 0 /\ 5 < Z.of_nat (length [5; 3; 8; 1; 9; 2]) /\ 2 * 5 <= LONG_MAX /\
  sys_mem (qs_run 0 scenario_schedule (qs_async 2 [5; 3; 8; 1; 9; 2] 0 5))
  ≡ₚ [5; 3; 8; 1; 9; 2].
Proof.
  assert (H0 : 0 <= 0) by lia.
  assert (H1 : 5 < Z.of_nat (length [5; 3; 8; 1; 9; 2])) by (simpl; lia).
  assert (H2 : 2 * 5 <= LONG_MAX) by (unfold LONG_MAX; lia).
  split; [exact H0|]. split; [exact H1|]. split; [exact H2|].
  apply (array_is_a_permutation_between_activations 0 2 [5; 3; 8; 1; 9; 2]
           0 5 scenario_schedule H0 H1 H2).
Defined.
